(** * PyFFI: the MOPP bytecode codec, the unique-index scan and the
    optimisation spells, embedded from the Python sources.

    - [src/niftools/PyFFI/NIF/bhkMoppBvTreeShape.py]: [updateOriginScale],
      [updateMopp], [parseMopp];
    - [src/niftools/pyffi/PyFFI/Spells/NIF/optimize.py]: [isequalTriGeomData],
      [optimizeTriBasedGeom] (the scan for duplicate vertices, the copy of the
      attributes, the new strips and triangles), [fixTexturePath], and the
      loop of [testRoot] that merges the properties of a block;
    - [src/pyffi/spells/nif/optimize.py]: [SpellCleanRefLists.cleanreflist],
      [SpellMergeDuplicates.branchentry], the strips and triangles in
      [SpellOptimizeGeometry.branchentry], the subshape counts in
      [SpellOptimizeCollisionGeometry.optimize_mopp], and
      [SpellOptimizeAnimation.optimize_keys].

    Python lists are Rocq lists read with stdpp's lookup, and an index outside
    the list raises [IndexError] as in Python.  Indices, byte values and
    counters are natural numbers; coordinates are Python floats, that is
    IEEE 754 doubles. *)

From Stdlib Require Import ZArith Floats Ascii String.
From stdpp Require Import functions base list strings gmap sorting.
From Stdlib Require Import Lia.

Local Open Scope nat_scope.

(** ** Python outcomes *)

(** The exceptions the embedded code can raise. *)
Inductive exn : Type :=
| ValueError (msg : string)
| IndexError
| ZeroDivisionError
| NameError (name : string)
| RuntimeError (msg : string).

(** A run either finishes with a value, raises, or exhausts the recursion
    budget the embedding gives it. *)
Inductive outcome (A : Type) : Type :=
| Done (a : A)
| Raised (e : exn)
| Timeout.
Arguments Done {A} a.
Arguments Raised {A} e.
Arguments Timeout {A}.

Definition obind {A B} (m : outcome A) (f : A → outcome B) : outcome B :=
  match m with
  | Done a => f a
  | Raised e => Raised e
  | Timeout => Timeout
  end.

#[global] Instance outcome_ret : MRet outcome := λ A a, Done a.
#[global] Instance outcome_bind : MBind outcome := λ A B f m, obind m f.
#[global] Instance outcome_fmap : FMap outcome := λ A B f m, obind m (λ a, Done (f a)).

(** [l[i]] for a non-negative index. *)
Definition getitem {A} (l : list A) (i : nat) : outcome A :=
  match l !! i with
  | Some a => Done a
  | None => Raised IndexError
  end.

(** ** Printing runs: [parseMopp] prints while it decodes *)

(** One event per piece of output.  [PrOpcode] is the line header
    ["%4i:"%i + "  "*depth + '0x%02X'%code]; the others carry the numbers
    that the corresponding [print] statements format. *)
Inductive event : Type :=
| PrOpcode (i depth code : nat)
| PrOffsetInc (args : list nat) (toffset : nat)
| PrOffsetSet (args : list nat) (toffset : nat)
| PrTriangle (args : list nat) (t : nat)
| PrJump (target : nat)
| PrBranch (code : nat) (args : list nat) (target1 target2 : nat)
| PrIf (depth : nat)
| PrElse (depth : nat)
| PrBound (code : nat) (args : list nat)
| PrUnknown (code : nat)
| PrFollowing
| PrBytes (bytes : list nat)
| PrAfterJump (b opcode : nat) (bytes : list nat).

(** A printing computation: what was printed, and how the run ended. *)
Definition printing (A : Type) : Type := list event * outcome A.

Definition pret {A} (a : A) : printing A := ([], Done a).
Definition praise {A} (e : exn) : printing A := ([], Raised e).
Definition print (ev : event) : printing unit := ([ev], Done tt).
Definition plift {A} (m : outcome A) : printing A := ([], m).

Definition pbind {A B} (m : printing A) (f : A → printing B) : printing B :=
  match m.2 with
  | Done a => let r := f a in (m.1 ++ r.1, r.2)
  | Raised e => (m.1, Raised e)
  | Timeout => (m.1, Timeout)
  end.

#[global] Instance printing_ret : MRet printing := λ A a, pret a.
#[global] Instance printing_bind : MBind printing := λ A B f m, pbind m f.

(** ** Hexadecimal formatting, ["0x%02X"] *)

Definition hex_digit (n : nat) : ascii :=
  match n with
  | 0 => "0" | 1 => "1" | 2 => "2" | 3 => "3" | 4 => "4" | 5 => "5"
  | 6 => "6" | 7 => "7" | 8 => "8" | 9 => "9" | 10 => "A" | 11 => "B"
  | 12 => "C" | 13 => "D" | 14 => "E" | _ => "F"
  end%char.

Fixpoint hex_digits (fuel n : nat) (acc : string) : string :=
  match fuel with
  | 0 => acc
  | S fuel =>
      let acc := String (hex_digit (n mod 16)) acc in
      if n / 16 =? 0 then acc else hex_digits fuel (n / 16) acc
  end.

(** ["%02X" % n]: upper-case digits, padded with zeros to two places. *)
Definition format_02X (n : nat) : string :=
  let s := hex_digits n n "" in
  match String.length s with
  | 0 => "00"
  | 1 => "0" +:+ s
  | _ => s
  end.

(** ** The MOPP shape block *)

Module Vector3.
Record t : Type := mk { x : float; y : float; z : float }.
End Vector3.

(** [self.shape.data] of a MOPP shape: the packed vertices and triangles. *)
Record hkPackedNiTriStripsData : Type := {
  pk_vertices : list Vector3.t;
  pk_triangles : list (nat * nat * nat);
}.

Record bhkMoppBvTreeShape : Type := {
  shape_data : hkPackedNiTriStripsData;
  origin : Vector3.t;
  scale : float;
  moppDataSize : nat;
  moppData : list nat;
}.

(** ** [parseMopp] *)

(** The conditions of the [if]/[elif] chain of [parseMopp], in its order. *)
Inductive opcode_kind : Type :=
| OffsetByte | OffsetShort | OffsetSet
| TriangleCompact | TriangleByte | TriangleShort | TriangleShort53
| JumpByte | JumpShort
| BranchTwoArgs | BranchOneArg | BranchShort
| Bound | BoundXYZ
| Unknown.

Definition opcode_kind_of (code : nat) : opcode_kind :=
  if code =? 0x09 then OffsetByte
  else if bool_decide (code ∈ [0x0A]) then OffsetShort
  else if bool_decide (code ∈ [0x0B]) then OffsetSet
  else if (0x30 <=? code) && (code <? 0x50) then TriangleCompact
  else if code =? 0x50 then TriangleByte
  else if bool_decide (code ∈ [0x51]) then TriangleShort
  else if bool_decide (code ∈ [0x53]) then TriangleShort53
  else if bool_decide (code ∈ [0x05]) then JumpByte
  else if bool_decide (code ∈ [0x06]) then JumpShort
  else if bool_decide (code ∈ [0x10; 0x11; 0x12; 0x13; 0x14; 0x15;
                               0x16; 0x17; 0x18; 0x19; 0x1A; 0x1C])
       then BranchTwoArgs
  else if bool_decide (code ∈ [0x20; 0x21; 0x22]) then BranchOneArg
  else if bool_decide (code ∈ [0x23; 0x24; 0x25]) then BranchShort
  else if bool_decide (code ∈ [0x26; 0x27; 0x28]) then Bound
  else if bool_decide (code ∈ [0x01; 0x02; 0x03; 0x04]) then BoundXYZ
  else Unknown.

Section parseMopp.
Variable self : bhkMoppBvTreeShape.

(** [mopp[i]] *)
Definition mopp_at (i : nat) : printing nat := plift (getitem (moppData self) i).

(** [[mopp[j] for j in xrange(lo, hi)]] *)
Fixpoint mopp_slice (lo n : nat) : printing (list nat) :=
  match n with
  | 0 => pret []
  | S n => b ← mopp_at lo; bs ← mopp_slice (S lo) n; pret (b :: bs)
  end.

Definition mopp_range (lo hi : nat) : printing (list nat) :=
  mopp_slice lo (hi - lo).

(** The loop of the [else:] arm over [zip(extrabytes, extraindex)]. *)
Fixpoint print_after_jumps (bjs : list (nat * nat)) : printing unit :=
  match bjs with
  | [] => pret tt
  | (b, j) :: bjs =>
      (if j + b + 1 <? moppDataSize self then
         op ← mopp_at (j + b + 1);
         bs ← mopp_range (j + b + 2) (min (moppDataSize self) (j + b + 11));
         print (PrAfterJump b op bs)
       else pret tt);;
      print_after_jumps bjs
  end.

(** The [else:] arm: report, then raise. *)
Definition unknown_opcode (i code : nat) : printing (list nat * list nat) :=
  print (PrUnknown code);;
  print PrFollowing;;
  extrabytes ← mopp_range (i + 1) (min (moppDataSize self) (i + 10));
  let extraindex := seq (i + 1) (min (moppDataSize self) (i + 10) - (i + 1)) in
  print (PrBytes extrabytes);;
  print_after_jumps (zip extrabytes extraindex);;
  praise (ValueError ("unknown mopp opcode 0x" +:+ format_02X code)).

(** The [while] loop of [parseMopp] together with its recursive calls.
    [fuel] bounds the number of loop iterations and calls on a path; the
    cursor moves forward in each, so [parseMopp] below passes enough. *)
Fixpoint parseMopp_loop (fuel depth i toffset : nat) (ids tris : list nat)
  : printing (list nat * list nat) :=
  match fuel with
  | 0 => ([], Timeout)
  | S fuel =>
    if negb (i <? moppDataSize self) then pret (ids, tris) else
    code ← mopp_at i;
    print (PrOpcode i depth code);;
    match opcode_kind_of code with
    | OffsetByte =>
        a ← mopp_at (i + 1);
        let toffset := toffset + a in
        print (PrOffsetInc [a] toffset);;
        parseMopp_loop fuel depth (i + 2) toffset (ids ++ [i; i + 1]) tris
    | OffsetShort =>
        a ← mopp_at (i + 1);
        b ← mopp_at (i + 2);
        let toffset := toffset + (a * 256 + b) in
        print (PrOffsetInc [a; b] toffset);;
        parseMopp_loop fuel depth (i + 3) toffset
          (ids ++ [i; i + 1; i + 2]) tris
    | OffsetSet =>
        c ← mopp_at (i + 3);
        d ← mopp_at (i + 4);
        let toffset := 256 * c + d in
        a ← mopp_at (i + 1);
        b ← mopp_at (i + 2);
        print (PrOffsetSet [a; b; c; d] toffset);;
        parseMopp_loop fuel depth (i + 5) toffset
          (ids ++ [i; i + 1; i + 2; i + 3; i + 4]) tris
    | TriangleCompact =>
        print (PrTriangle [] (code - 0x30 + toffset));;
        pret (ids ++ [i], tris ++ [code - 0x30 + toffset])
    | TriangleByte =>
        a ← mopp_at (i + 1);
        print (PrTriangle [a] (a + toffset));;
        pret (ids ++ [i; i + 1], tris ++ [a + toffset])
    | TriangleShort =>
        a ← mopp_at (i + 1);
        b ← mopp_at (i + 2);
        let t := a * 256 + b + toffset in
        print (PrTriangle [a; b] t);;
        pret (ids ++ [i; i + 1; i + 2], tris ++ [t])
    | TriangleShort53 =>
        c ← mopp_at (i + 3);
        d ← mopp_at (i + 4);
        let t := c * 256 + d + toffset in
        a ← mopp_at (i + 1);
        b ← mopp_at (i + 2);
        print (PrTriangle [a; b; c; d] t);;
        pret (ids ++ [i; i + 1; i + 2; i + 3; i + 4], tris ++ [t])
    | JumpByte =>
        a ← mopp_at (i + 1);
        print (PrJump (i + 2 + a));;
        parseMopp_loop fuel depth (i + (2 + a)) toffset (ids ++ [i; i + 1]) tris
    | JumpShort =>
        a ← mopp_at (i + 1);
        b ← mopp_at (i + 2);
        let jump := a * 256 + b in
        print (PrJump (i + 3 + jump));;
        parseMopp_loop fuel depth (i + (3 + jump)) toffset
          (ids ++ [i; i + 1; i + 2]) tris
    | BranchTwoArgs =>
        a ← mopp_at (i + 1);
        b ← mopp_at (i + 2);
        d ← mopp_at (i + 3);
        print (PrBranch code [a; b] (i + 4) (i + 4 + d));;
        print (PrIf depth);;
        sub1 ← parseMopp_loop fuel (depth + 1) (i + 4) toffset [] [];
        print (PrElse depth);;
        sub2 ← parseMopp_loop fuel (depth + 1) (i + 4 + d) toffset [] [];
        pret (ids ++ [i; i + 1; i + 2; i + 3] ++ sub1.1 ++ sub2.1,
              tris ++ sub1.2 ++ sub2.2)
    | BranchOneArg =>
        a ← mopp_at (i + 1);
        d ← mopp_at (i + 2);
        print (PrBranch code [a] (i + 3) (i + 3 + d));;
        print (PrIf depth);;
        sub1 ← parseMopp_loop fuel (depth + 1) (i + 3) toffset [] [];
        print (PrElse depth);;
        sub2 ← parseMopp_loop fuel (depth + 1) (i + 3 + d) toffset [] [];
        pret (ids ++ [i; i + 1; i + 2] ++ sub1.1 ++ sub2.1,
              tris ++ sub1.2 ++ sub2.2)
    | BranchShort =>
        c ← mopp_at (i + 3);
        d ← mopp_at (i + 4);
        let jump1 := c * 256 + d in
        e ← mopp_at (i + 5);
        f ← mopp_at (i + 6);
        let jump2 := e * 256 + f in
        a ← mopp_at (i + 1);
        b ← mopp_at (i + 2);
        print (PrBranch code [a; b] (i + 7 + jump1) (i + 7 + jump2));;
        print (PrIf depth);;
        sub1 ← parseMopp_loop fuel (depth + 1) (i + 7 + jump1) toffset [] [];
        print (PrElse depth);;
        sub2 ← parseMopp_loop fuel (depth + 1) (i + 7 + jump2) toffset [] [];
        pret (ids ++ [i; i + 1; i + 2; i + 3; i + 4; i + 5; i + 6]
                  ++ sub1.1 ++ sub2.1,
              tris ++ sub1.2 ++ sub2.2)
    | Bound =>
        a ← mopp_at (i + 1);
        b ← mopp_at (i + 2);
        print (PrBound code [a; b]);;
        parseMopp_loop fuel depth (i + 3) toffset (ids ++ [i; i + 1; i + 2]) tris
    | BoundXYZ =>
        a ← mopp_at (i + 1);
        b ← mopp_at (i + 2);
        c ← mopp_at (i + 3);
        print (PrBound code [a; b; c]);;
        parseMopp_loop fuel depth (i + 4) toffset
          (ids ++ [i; i + 1; i + 2; i + 3]) tris
    | Unknown => unknown_opcode i code
    end
  end.

(** [self.parseMopp(start, depth, toffset)]: the list of byte indices
    processed and the list of triangle indices met. *)
Definition parseMopp (start depth toffset : nat) : printing (list nat * list nat) :=
  parseMopp_loop (S (moppDataSize self - start)) depth start toffset [] [].
End parseMopp.

(** A run that does not exhaust its budget. *)
Definition terminates {A} (m : printing A) : Prop := m.2 ≠ Timeout.

(** ** The report of an unrecognized opcode *)

Definition unknown_message (code : nat) : string :=
  "unknown mopp opcode 0x" +:+ format_02X code.

(** What [parseMopp] prints at an unrecognized opcode, header included. *)
Definition report (self : bhkMoppBvTreeShape) (i depth code : nat) : list event :=
  PrOpcode i depth code :: (unknown_opcode self i code).1.

(** The bytes printed after ["following bytes are"]: up to nine of them. *)
Definition following_bytes (self : bhkMoppBvTreeShape) (i : nat) : list nat :=
  take (min (moppDataSize self) (i + 10) - (i + 1)) (drop (i + 1) (moppData self)).

Definition is_after_jump (ev : event) : Prop :=
  match ev with PrAfterJump _ _ _ => True | _ => False end.

Definition is_opcode_header (ev : event) : Prop :=
  match ev with PrOpcode _ _ _ => True | _ => False end.

(** ** Every unrecognized opcode the decoder reaches ends the run *)

  (** The cursor positions of a run are the [PrOpcode] headers it prints.
      [reports m]: a header with an unrecognized opcode is where [m] stops,
      with the report printed last and the [ValueError] naming the opcode;
      and every header tells the byte at its offset. *)
Definition reports (self : bhkMoppBvTreeShape) {A} (m : printing A) : Prop :=
    ∀ j d c, PrOpcode j d c ∈ m.1 →
      (j < moppDataSize self ∧ moppData self !! j = Some c) ∧
      (opcode_kind_of c = Unknown →
         m.2 = Raised (ValueError (unknown_message c)) ∧
         ∃ pre, m.1 = pre ++ report self j d c).

(** ** Buffers laid out from recognized opcode forms *)

(** The forms after which the decoder's loop goes on. *)
Inductive form : Type :=
| FOffsetByte (a : nat)                 (* 0x09 a *)
| FOffsetShort (a b : nat)              (* 0x0A a b *)
| FOffsetSet (a b c d : nat)            (* 0x0B a b c d *)
| FJumpByte (skipped : list nat)        (* 0x05 n, then n bytes jumped over *)
| FJumpShort (skipped : list nat)       (* 0x06 hi lo, then the bytes jumped over *)
| FBound (code a b : nat)               (* 0x26..0x28 a b *)
| FBoundXYZ (code a b c : nat).         (* 0x01..0x04 a b c *)

(** A decode tree: forms in a row, closed by a leaf or by a branch with its
    two sub-trees laid out one after the other. *)
Inductive tree : Type :=
| LeafCompact (k : nat)                        (* 0x30 + k *)
| LeafByte (a : nat)                           (* 0x50 a *)
| LeafShort (a b : nat)                        (* 0x51 a b *)
| LeafShort53 (a b c d : nat)                  (* 0x53 a b c d *)
| IfTwoArgs (code a b : nat) (t1 t2 : tree)    (* 0x10..0x1C a b disp *)
| IfOneArg (code a : nat) (t1 t2 : tree)       (* 0x20..0x22 a disp *)
| IfShort (code a b : nat) (t1 t2 : tree)      (* 0x23..0x25 a b j1hi j1lo j2hi j2lo *)
| Then (f : form) (t : tree).

Definition assemble_form (f : form) : list nat :=
  match f with
  | FOffsetByte a => [0x09; a]
  | FOffsetShort a b => [0x0A; a; b]
  | FOffsetSet a b c d => [0x0B; a; b; c; d]
  | FJumpByte skipped => [0x05; length skipped] ++ skipped
  | FJumpShort skipped =>
      [0x06; length skipped / 256; length skipped mod 256] ++ skipped
  | FBound code a b => [code; a; b]
  | FBoundXYZ code a b c => [code; a; b; c]
  end.

Fixpoint assemble (t : tree) : list nat :=
  match t with
  | LeafCompact k => [0x30 + k]
  | LeafByte a => [0x50; a]
  | LeafShort a b => [0x51; a; b]
  | LeafShort53 a b c d => [0x53; a; b; c; d]
  | IfTwoArgs code a b t1 t2 =>
      [code; a; b; length (assemble t1)] ++ assemble t1 ++ assemble t2
  | IfOneArg code a t1 t2 =>
      [code; a; length (assemble t1)] ++ assemble t1 ++ assemble t2
  | IfShort code a b t1 t2 =>
      [code; a; b; 0; 0; length (assemble t1) / 256; length (assemble t1) mod 256]
        ++ assemble t1 ++ assemble t2
  | Then f t => assemble_form f ++ assemble t
  end.

Definition is_byte (b : nat) : Prop := b < 256.

Definition form_ok (f : form) : Prop :=
  match f with
  | FOffsetByte a => is_byte a
  | FOffsetShort a b => is_byte a ∧ is_byte b
  | FOffsetSet a b c d => is_byte a ∧ is_byte b ∧ is_byte c ∧ is_byte d
  | FJumpByte skipped => length skipped < 256 ∧ Forall is_byte skipped
  | FJumpShort skipped => is_byte (length skipped / 256) ∧ Forall is_byte skipped
  | FBound code a b => code ∈ [0x26; 0x27; 0x28] ∧ is_byte a ∧ is_byte b
  | FBoundXYZ code a b c =>
      code ∈ [0x01; 0x02; 0x03; 0x04] ∧ is_byte a ∧ is_byte b ∧ is_byte c
  end.

(** Opcodes from the right family, operands and displacements that fit their
    fields. *)
Fixpoint tree_ok (t : tree) : Prop :=
  match t with
  | LeafCompact k => k < 32
  | LeafByte a => is_byte a
  | LeafShort a b => is_byte a ∧ is_byte b
  | LeafShort53 a b c d => is_byte a ∧ is_byte b ∧ is_byte c ∧ is_byte d
  | IfTwoArgs code a b t1 t2 =>
      code ∈ [0x10; 0x11; 0x12; 0x13; 0x14; 0x15; 0x16; 0x17; 0x18; 0x19; 0x1A; 0x1C]
      ∧ is_byte a ∧ is_byte b ∧ length (assemble t1) < 256
      ∧ tree_ok t1 ∧ tree_ok t2
  | IfOneArg code a t1 t2 =>
      code ∈ [0x20; 0x21; 0x22] ∧ is_byte a ∧ length (assemble t1) < 256
      ∧ tree_ok t1 ∧ tree_ok t2
  | IfShort code a b t1 t2 =>
      code ∈ [0x23; 0x24; 0x25] ∧ is_byte a ∧ is_byte b
      ∧ is_byte (length (assemble t1) / 256) ∧ tree_ok t1 ∧ tree_ok t2
  | Then f t => form_ok f ∧ tree_ok t
  end.

(** Nesting depth of the branches. *)
Fixpoint branch_depth (t : tree) : nat :=
  match t with
  | IfTwoArgs _ _ _ t1 t2 | IfOneArg _ _ t1 t2 | IfShort _ _ _ t1 t2 =>
      S (max (branch_depth t1) (branch_depth t2))
  | Then _ t => branch_depth t
  | _ => 0
  end.

(** The triangle offset after a form. *)
Definition form_toffset (f : form) (toffset : nat) : nat :=
  match f with
  | FOffsetByte a => toffset + a
  | FOffsetShort a b => toffset + (a * 256 + b)
  | FOffsetSet a b c d => 256 * c + d
  | _ => toffset
  end.

(** The triangles of a tree, "then" side first. *)
Fixpoint tree_triangles (t : tree) (toffset : nat) : list nat :=
  match t with
  | LeafCompact k => [k + toffset]
  | LeafByte a => [a + toffset]
  | LeafShort a b => [a * 256 + b + toffset]
  | LeafShort53 a b c d => [c * 256 + d + toffset]
  | IfTwoArgs _ _ _ t1 t2 | IfOneArg _ _ t1 t2 | IfShort _ _ _ t1 t2 =>
      tree_triangles t1 toffset ++ tree_triangles t2 toffset
  | Then f t => tree_triangles t (form_toffset f toffset)
  end.

(** The byte offsets the decoder lists for a form or tree laid out at [i]. *)
Definition form_ids (f : form) (i : nat) : list nat :=
  match f with
  | FOffsetByte _ | FJumpByte _ => [i; i + 1]
  | FOffsetShort _ _ | FJumpShort _ | FBound _ _ _ => [i; i + 1; i + 2]
  | FOffsetSet _ _ _ _ => [i; i + 1; i + 2; i + 3; i + 4]
  | FBoundXYZ _ _ _ _ => [i; i + 1; i + 2; i + 3]
  end.

Fixpoint tree_ids (t : tree) (i : nat) : list nat :=
  match t with
  | LeafCompact _ => [i]
  | LeafByte _ => [i; i + 1]
  | LeafShort _ _ => [i; i + 1; i + 2]
  | LeafShort53 _ _ _ _ => [i; i + 1; i + 2; i + 3; i + 4]
  | IfTwoArgs _ _ _ t1 t2 =>
      [i; i + 1; i + 2; i + 3] ++ tree_ids t1 (i + 4)
        ++ tree_ids t2 (i + 4 + length (assemble t1))
  | IfOneArg _ _ t1 t2 =>
      [i; i + 1; i + 2] ++ tree_ids t1 (i + 3)
        ++ tree_ids t2 (i + 3 + length (assemble t1))
  | IfShort _ _ _ t1 t2 =>
      [i; i + 1; i + 2; i + 3; i + 4; i + 5; i + 6] ++ tree_ids t1 (i + 7)
        ++ tree_ids t2 (i + 7 + length (assemble t1))
  | Then f t => form_ids f i ++ tree_ids t (i + length (assemble_form f))
  end.

(** ** Decoding a laid-out tree *)

(** [yields m a]: the run [m] finishes with [a], whatever it prints. *)
Definition yields {A} (m : printing A) (a : A) : Prop := ∃ log, m = (log, Done a).

(** ** [updateOriginScale] and [updateMopp] *)

(** Python's floats are IEEE 754 doubles, the kernel's [float]: [+], [-] and
    [/] round to the nearest double.  The literals [0.1] and [0.2] denote the
    doubles nearest to them. *)
Definition point_one : float := 0x1.999999999999ap-4.
Definition point_two : float := 0x1.999999999999ap-3.

(** [min(l)] and [max(l)]: the first element, replaced by each later element
    that is smaller (larger) than it; both raise on an empty list. *)
Definition py_min (l : list float) : outcome float :=
  match l with
  | [] => Raised (ValueError "min() arg is an empty sequence")
  | v :: l => Done (foldl (λ m x, if (x <? m)%float then x else m) v l)
  end.

Definition py_max (l : list float) : outcome float :=
  match l with
  | [] => Raised (ValueError "max() arg is an empty sequence")
  | v :: l => Done (foldl (λ m x, if (m <? x)%float then x else m) v l)
  end.

(** [a / b] *)
Definition py_div (a b : float) : outcome float :=
  if (b =? 0)%float then Raised ZeroDivisionError else Done (a / b)%float.

(** The value of [math.ceil(x)]: a float that holds an integer, an infinity
    or nan.  [Integer 0] stands for the negative zero as well. *)
Inductive ceiling : Type :=
| Integer (n : Z)
| Infinity (negative : bool)
| NaN.

Definition py_ceil (x : float) : ceiling :=
  match Prim2SF x with
  | S754_zero _ => Integer 0
  | S754_infinity negative => Infinity negative
  | S754_nan => NaN
  | S754_finite negative m e =>
      (* [x] is [m * 2^e], negated when [negative] *)
      if (0 <=? e)%Z then
        Integer (if negative then - (Z.pos m * 2 ^ e) else Z.pos m * 2 ^ e)
      else if negative then Integer (- (Z.pos m / 2 ^ (- e)))
      else Integer (- (- Z.pos m / 2 ^ (- e)))
  end.

(** [c < 0] and [c > 255] on such a float. *)
Definition lt_zero (c : ceiling) : bool :=
  match c with
  | Integer n => (n <? 0)%Z
  | Infinity negative => negative
  | NaN => false
  end.

Definition gt_255 (c : ceiling) : bool :=
  match c with
  | Integer n => (255 <? n)%Z
  | Infinity negative => negb negative
  | NaN => false
  end.

Definition set_origin_scale (self : bhkMoppBvTreeShape) (o : Vector3.t) (s : float)
  : bhkMoppBvTreeShape :=
  {| shape_data := shape_data self; origin := o; scale := s;
     moppDataSize := moppDataSize self; moppData := moppData self |}.

Definition updateOriginScale (self : bhkMoppBvTreeShape) : outcome bhkMoppBvTreeShape :=
  let vertices := pk_vertices (shape_data self) in
  minx ← py_min (Vector3.x <$> vertices);
  miny ← py_min (Vector3.y <$> vertices);
  minz ← py_min (Vector3.z <$> vertices);
  maxx ← py_max (Vector3.x <$> vertices);
  maxy ← py_max (Vector3.y <$> vertices);
  maxz ← py_max (Vector3.z <$> vertices);
  extent ← py_max [maxx - minx; maxy - miny; maxz - minz]%float;
  scale ← py_div (256 * 256 * 254)%float (point_two + extent)%float;
  mret (set_origin_scale self
          (Vector3.mk (minx - point_one) (miny - point_one) (minz - point_one))
          scale).

(** The opcodes [updateMopp] names. *)
Definition BOUNDX : nat := 0x26.
Definition BOUNDY : nat := 0x27.
Definition BOUNDZ : nat := 0x28.
Definition TESTZ : nat := 0x12.

(** The loop [for t in xrange(numtriangles-1)] and the closing
    [mopp.extend([i])]; [count] is the number of iterations left. *)
Fixpoint trivial_tree (count maxz i : nat) (mopp : list nat) : list nat :=
  match count with
  | 0 => mopp ++ [i]
  | S count =>
      let mopp := mopp ++ [TESTZ; maxz; 0; 1; i] in
      let i := i + 1 in
      if i =? 0x50 then trivial_tree count maxz 0x30 (mopp ++ [0x09; 0x20])
      else trivial_tree count maxz i mopp
  end.

(** [math.ceil((max + 0.1 - origin) / q)] for one axis. *)
Definition quantized_bound (coords : list float) (o q : float) : outcome ceiling :=
  m ← py_max coords;
  r ← py_div (m + point_one - o)%float q;
  mret (py_ceil r).

Definition set_mopp (self : bhkMoppBvTreeShape) (mopp : list nat) : bhkMoppBvTreeShape :=
  {| shape_data := shape_data self; origin := origin self; scale := scale self;
     moppDataSize := length mopp; moppData := mopp |}.

(** The bounds are floats that hold integers in 0..255 when both tests are
    passed, and the byte array keeps these integers.  A nan passes both
    tests; the conversion to a byte is then taken to raise as [int] does
    (the byte array is not part of these sources). *)
Definition updateMopp (self : bhkMoppBvTreeShape) : outcome bhkMoppBvTreeShape :=
  let vertices := pk_vertices (shape_data self) in
  q ← py_div (256 * 256)%float (scale self);
  maxx ← quantized_bound (Vector3.x <$> vertices) (Vector3.x (origin self)) q;
  maxy ← quantized_bound (Vector3.y <$> vertices) (Vector3.y (origin self)) q;
  maxz ← quantized_bound (Vector3.z <$> vertices) (Vector3.z (origin self)) q;
  if lt_zero maxx || lt_zero maxy || lt_zero maxz then
    Raised (ValueError "cannot update mopp tree with invalid origin")
  else if gt_255 maxx || gt_255 maxy || gt_255 maxz then
    Raised (ValueError "cannot update mopp tree with invalid scale")
  else
    match maxx, maxy, maxz with
    | Integer maxx, Integer maxy, Integer maxz =>
        let mopp := [BOUNDZ; 0; Z.to_nat maxz] ++ [BOUNDY; 0; Z.to_nat maxy]
                      ++ [BOUNDX; 0; Z.to_nat maxx] in
        let numtriangles := length (pk_triangles (shape_data self)) in
        let mopp := trivial_tree (numtriangles - 1) (Z.to_nat maxz) 0x30 mopp in
        mret (set_mopp self mopp)
    | _, _, _ => Raised (ValueError "cannot convert float NaN to integer")
    end.

Definition unit_shape (n : nat) : bhkMoppBvTreeShape :=
  {| shape_data := {| pk_vertices := [Vector3.mk 0 0 0; Vector3.mk 1 2 3];
                      pk_triangles := replicate n (0, 1, 1) |};
     origin := Vector3.mk 0 0 0; scale := 1;
     moppDataSize := 0; moppData := [] |}.

(** ** The trivial tree as a laid-out tree *)

(** The tree [trivial_tree] lays out: a chain of Z-tests, one triangle on the
    "then" side of each, with an offset increment when the 32 compact leaves
    are used up. *)
Fixpoint chain_tree (count maxz i : nat) : tree :=
  match count with
  | 0 => LeafCompact (i - 0x30)
  | S count =>
      IfTwoArgs TESTZ maxz 0 (LeafCompact (i - 0x30))
        (if i + 1 =? 0x50 then Then (FOffsetByte 0x20) (chain_tree count maxz 0x30)
         else chain_tree count maxz (i + 1))
  end.

(** What [updateMopp] writes is the layout of the bound setters followed by
    the chain. *)
Definition trivial_mopp (maxx maxy maxz count : nat) : tree :=
  Then (FBound BOUNDZ 0 maxz) (Then (FBound BOUNDY 0 maxy)
    (Then (FBound BOUNDX 0 maxx) (chain_tree count maxz 0x30))).

(** ** Concrete buffers *)

Definition mopp_of (data : list nat) : bhkMoppBvTreeShape :=
  {| shape_data := {| pk_vertices := []; pk_triangles := [] |};
     origin := Vector3.mk 0 0 0; scale := 1;
     moppDataSize := length data; moppData := data |}.

(** The unit shape with the origin and scale [updateOriginScale] gives it. *)
Definition scaled_unit_shape (n : nat) : bhkMoppBvTreeShape :=
  set_origin_scale (unit_shape n)
    (Vector3.mk (0 - point_one) (0 - point_one) (0 - point_one))
    (256 * 256 * 254 / (point_two + 3))%float.

(** A jump whose displacement lands on the operand of the next form. *)
Definition jump_into_operand : bhkMoppBvTreeShape := mopp_of [0x05; 0x01; 0x09; 0x00].

(** Branches nested three deep, every displacement on the start of a form. *)
Definition nested_three : tree :=
  IfTwoArgs 0x10 7 9
    (IfOneArg 0x20 3 (IfShort 0x23 1 2 (LeafCompact 0) (LeafByte 1))
                     (Then (FOffsetByte 4) (LeafShort 0 2)))
    (Then (FJumpByte [0xFF; 0xFF]) (Then (FBound 0x26 0 9) (LeafCompact 31))).

(** The number of operand bytes of each opcode kind. *)
Definition operand_count (k : opcode_kind) : option nat :=
  match k with
  | TriangleCompact => Some 0
  | OffsetByte | TriangleByte | JumpByte => Some 1
  | OffsetShort | TriangleShort | JumpShort | BranchOneArg | Bound => Some 2
  | BranchTwoArgs | BoundXYZ => Some 3
  | OffsetSet | TriangleShort53 => Some 4
  | BranchShort => Some 6
  | Unknown => None
  end.

(** A recognized opcode followed by exactly its operand bytes. *)
Definition is_form (bs : list nat) : bool :=
  match bs with
  | [] => false
  | code :: args =>
      match operand_count (opcode_kind_of code) with
      | Some n => (length args =? n) && forallb (λ b, b <? 256) bs
      | None => false
      end
  end.


(** ** Quantization of a coordinate *)

(** The quantization factor [q = 256*256 / self.scale]; as a plain quotient
    it is defined also where Python would raise. *)
Definition quantization_factor (self : bhkMoppBvTreeShape) : float :=
  (256 * 256 / scale self)%float.

(** The grid cell of a coordinate [v] on an axis with origin [o], with the
    margin [updateMopp] uses: [math.ceil((v + 0.1 - o) / q)]. *)
Definition quantize (v o q : float) : ceiling := py_ceil ((v + point_one - o) / q)%float.

(** An integer in 0..255. *)
Definition in_byte_range (c : ceiling) : Prop :=
  match c with
  | Integer n => (0 ≤ n ≤ 255)%Z
  | _ => False
  end.

(** [self] has a vertex that falls outside the 8-bit grid on some axis. *)
Definition vertex_outside_grid (self : bhkMoppBvTreeShape) : Prop :=
  ∃ v, v ∈ pk_vertices (shape_data self) ∧
    let q := quantization_factor self in
    let o := origin self in
    ¬ (in_byte_range (quantize (Vector3.x v) (Vector3.x o) q) ∧
       in_byte_range (quantize (Vector3.y v) (Vector3.y o) q) ∧
       in_byte_range (quantize (Vector3.z v) (Vector3.z o) q)).

(** Two vertices, one far below the origin, under a unit grid. *)
Definition below_origin_shape : bhkMoppBvTreeShape :=
  {| shape_data := {| pk_vertices := [Vector3.mk (-1000) 0 0; Vector3.mk 10 0 0];
                      pk_triangles := [(0, 1, 1); (1, 0, 0)] |};
     origin := Vector3.mk 0 0 0; scale := 65536;
     moppDataSize := 0; moppData := [] |}.

(** A vertex far above the grid. *)
Definition above_grid_shape : bhkMoppBvTreeShape :=
  {| shape_data := {| pk_vertices := [Vector3.mk 0 0 0; Vector3.mk 1000 0 0];
                      pk_triangles := [(0, 1, 1)] |};
     origin := Vector3.mk 0 0 0; scale := 65536;
     moppDataSize := 1; moppData := [0x30] |}.

(** A triangle of side 1 at the distance [2^49] from zero, where
    neighbouring doubles are 1/8 apart. *)
Definition far_triangle_shape : bhkMoppBvTreeShape :=
  {| shape_data := {| pk_vertices := [Vector3.mk 562949953421312 0 0;
                                      Vector3.mk 562949953421313 0 0;
                                      Vector3.mk 562949953421312 1 0];
                      pk_triangles := [(0, 1, 2)] |};
     origin := Vector3.mk 0 0 0; scale := 1;
     moppDataSize := 0; moppData := [] |}.

(** A coordinate whose margin rounds onto the edge of the grid:
    [254.9 + 0.1] is [255.0] in doubles. *)
Definition edge_shape : bhkMoppBvTreeShape :=
  {| shape_data := {| pk_vertices := [Vector3.mk 0x1.fdccccccccccdp+7 0 0];
                      pk_triangles := [(0, 0, 0)] |};
     origin := Vector3.mk 0 0 0; scale := 65536;
     moppDataSize := 0; moppData := [] |}.

(** The largest coordinates, from which [updateMopp] takes its bounds. *)
Definition max_coordinate (coords : list float) : float :=
  match coords with
  | [] => 0%float
  | v :: l => foldl (λ m x, if (m <? x)%float then x else m) v l
  end.

(** The three bounds [updateMopp] computes, the cells of the largest
    coordinates, with the errors raised on the way. *)
Definition mopp_bounds (self : bhkMoppBvTreeShape) : outcome (ceiling * ceiling * ceiling) :=
  let vertices := pk_vertices (shape_data self) in
  q ← py_div (256 * 256)%float (scale self);
  maxx ← quantized_bound (Vector3.x <$> vertices) (Vector3.x (origin self)) q;
  maxy ← quantized_bound (Vector3.y <$> vertices) (Vector3.y (origin self)) q;
  maxz ← quantized_bound (Vector3.z <$> vertices) (Vector3.z (origin self)) q;
  mret (maxx, maxy, maxz).


(** ** Removing duplicate vertices: the index maps *)

(** [l[i] = v] for a non-negative index. *)
Definition setitem {A} (l : list A) (i : nat) (v : A) : outcome (list A) :=
  if decide (i < length l) then Done (<[i:=v]> l) else Raised IndexError.

Section unique_index.
Context {K : Type} `{Countable K}.

(** The variables of the scan in [optimizeTriBasedGeom]: [v_map] maps an old
    index to its new index, [v_map_inverse] maps a new index to an old one,
    [k_map] maps a hash to its new index, [index] is the next new index. *)
Record scan : Type := {
  v_map : list nat;
  v_map_inverse : list nat;
  k_map : gmap K nat;
  index : nat;
}.

(** The body of [for i, vhash in enumerate(...)]. *)
Definition scan_step (st : scan) (i : nat) (vhash : K) : outcome scan :=
  match k_map st !! vhash with
  | None =>
      (* KeyError: vertex is new *)
      let k_map' := <[vhash := index st]> (k_map st) in
      v_map' ← setitem (v_map st) i (index st);
      mret {| v_map := v_map'; v_map_inverse := v_map_inverse st ++ [i];
              k_map := k_map'; index := index st + 1 |}
  | Some k =>
      (* vertex already exists *)
      v_map' ← setitem (v_map st) i k;
      mret {| v_map := v_map'; v_map_inverse := v_map_inverse st;
              k_map := k_map st; index := index st |}
  end.

Fixpoint scan_loop (st : scan) (i : nat) (hashes : list K) : outcome scan :=
  match hashes with
  | [] => mret st
  | vhash :: hashes => st' ← scan_step st i vhash; scan_loop st' (S i) hashes
  end.

(** The scan of [optimizeTriBasedGeom], from the allocation of [v_map] to
    [new_numvertices = index]: the two maps and the new vertex count. *)
Definition remove_duplicate_vertices (numVertices : nat) (hashes : list K)
  : outcome (list nat * list nat * nat) :=
  st ← scan_loop {| v_map := replicate numVertices 0; v_map_inverse := [];
                    k_map := ∅; index := 0 |} 0 hashes;
  mret (v_map st, v_map_inverse st, index st).

(** [i] is the first position of its hash. *)
Definition is_first_occurrence (hashes : list K) (i : nat) : Prop :=
  ∃ h, hashes !! i = Some h ∧ h ∉ take i hashes.

#[global] Instance is_first_occurrence_dec hashes i :
  Decision (is_first_occurrence hashes i).
Proof.
  unfold is_first_occurrence. destruct (hashes !! i) as [h|].
  - destruct (decide (h ∈ take i hashes)) as [Hin|Hout].
    + right. intros (h' & [= <-] & Hn). done.
    + left. by exists h.
  - right. by intros (h' & [=] & _).
Defined.

(** The first positions of the distinct hashes, in increasing order. *)
Definition first_occurrences (hashes : list K) : list nat :=
  filter (is_first_occurrence hashes) (seq 0 (length hashes)).

(** The state of the scan after the hashes [seen], for [numVertices = n]. *)
Definition scan_inv (n : nat) (seen : list K) (st : scan) : Prop :=
  length (v_map st) = n ∧
  index st = length (v_map_inverse st) ∧
  v_map_inverse st = first_occurrences seen ∧
  (∀ h j, k_map st !! h = Some j ↔
          ∃ r, v_map_inverse st !! j = Some r ∧ seen !! r = Some h) ∧
  (∀ i h, seen !! i = Some h →
          ∃ j, v_map st !! i = Some j ∧ k_map st !! h = Some j).
End unique_index.


(** ** Postconditions of printing runs *)

(** [ensures m Q]: if [m] finishes, its value satisfies [Q]. *)
Definition ensures {A} (m : printing A) (Q : A → Prop) : Prop :=
  ∀ a, m.2 = Done a → Q a.

(** The offsets listed lie between the start of the run and the end of the
    data. *)
Definition ids_within (self : bhkMoppBvTreeShape) (lo : nat)
    (r : list nat * list nat) : Prop :=
  Forall (λ i, lo ≤ i < length (moppData self)) r.1.

(** A recognized opcode with one operand missing at the end of the data. *)
Definition truncated_offset_short : bhkMoppBvTreeShape := mopp_of [0x28; 0; 7; 0x0A; 1].


(** A shape whose scale is zero, and one with no vertex. *)
Definition zero_scale_shape : bhkMoppBvTreeShape :=
  set_origin_scale (unit_shape 1) (Vector3.mk 0 0 0) 0.

Definition no_vertex_shape : bhkMoppBvTreeShape :=
  {| shape_data := {| pk_vertices := []; pk_triangles := [(0, 1, 2)] |};
     origin := Vector3.mk 0 0 0; scale := 1; moppDataSize := 0; moppData := [] |}.


(** ** [SpellCleanRefLists.cleanreflist] *)

(** What a spell keeps between calls: the [changed] flag and the messages
    sent to the toaster. *)
Record spell_log : Type := {
  changed : bool;
  messages : list string;
}.

Definition toaster_msg (msg : string) (st : spell_log) : spell_log :=
  {| changed := changed st; messages := messages st ++ [msg] |}.

Definition set_changed (st : spell_log) : spell_log :=
  {| changed := true; messages := messages st |}.

Section cleanreflist.
Context {B : Type} `{EqDecision B}.

(** The loop of [cleanreflist]; a reference is [None] or a block. *)
Fixpoint cleanreflist_loop (st : spell_log) (cleanlist : list B)
    (reflist : list (option B)) (category : string) : spell_log * list B :=
  match reflist with
  | [] => (st, cleanlist)
  | ref :: reflist =>
      match ref with
      | None =>
          let st := toaster_msg ("removing empty " +:+ category +:+ " reference") st in
          cleanreflist_loop (set_changed st) cleanlist reflist category
      | Some b =>
          if decide (b ∈ cleanlist) then
            let st := toaster_msg ("removing duplicate " +:+ category +:+ " reference") st in
            cleanreflist_loop (set_changed st) cleanlist reflist category
          else cleanreflist_loop st (cleanlist ++ [b]) reflist category
      end
  end.

(** [self.cleanreflist(reflist, category)]: the cleaned copy, and the spell
    afterwards. *)
Definition cleanreflist (st : spell_log) (reflist : list (option B))
    (category : string) : spell_log * list B :=
  cleanreflist_loop st [] reflist category.
End cleanreflist.


(** ** [SpellMergeDuplicates.branchentry] *)

Section merge_duplicates.
Context {B : Type} `{EqDecision B}.

(** What the spell asks of a block; these are methods and class tests of the
    block library: [branch.is_interchangeable(otherbranch)],
    [isinstance(branch, NifFormat.NiProperty)], the truth value of
    [branch.controller], [isinstance(branch, NifFormat.BSShaderProperty)]. *)
Variable is_interchangeable : B → B → bool.
Variable is_NiProperty : B → bool.
Variable has_controller : B → bool.
Variable is_BSShaderProperty : B → bool.

(** The spell: the branches visited so far, its flag and messages, and the
    calls [self.data.replace_global_node(old, new)] it has made, in order. *)
Record merge_spell : Type := {
  branches : list B;
  merge_log : spell_log;
  replaced : list (B * option B);
}.

(** The [for otherbranch in self.branches] loop; [None] when the loop runs to
    its end, the returned pair when it returns from inside. *)
Fixpoint merge_loop (st : merge_spell) (branch : B) (others : list B)
  : option (merge_spell * bool) :=
  match others with
  | [] => None
  | otherbranch :: others =>
      if bool_decide (branch ≠ otherbranch) && is_interchangeable branch otherbranch then
        if is_NiProperty branch && has_controller branch then
          merge_loop st branch others
        else if is_BSShaderProperty branch then
          merge_loop st branch others
        else
          Some ({| branches := branches st;
                   merge_log := set_changed
                                  (toaster_msg "removing duplicate branch" (merge_log st));
                   replaced := replaced st ++ [(branch, Some otherbranch)] |},
                false)
      else merge_loop st branch others
  end.

Definition merge_branchentry (st : merge_spell) (branch : B) : merge_spell * bool :=
  match merge_loop st branch (branches st) with
  | Some r => r
  | None =>
      ({| branches := branches st ++ [branch]; merge_log := merge_log st;
          replaced := replaced st |}, true)
  end.

(** The earlier branches [branch] could be merged into. *)
Definition merge_candidates (st : merge_spell) (branch : B) : list B :=
  filter (λ o, branch ≠ o ∧ is_interchangeable branch o = true) (branches st).

(** The blocks the spell never merges away. *)
Definition merge_excluded (branch : B) : bool :=
  is_NiProperty branch && has_controller branch || is_BSShaderProperty branch.
End merge_duplicates.


(** A small population of blocks, named by numbers: blocks are
    interchangeable when they agree modulo 10, the blocks below 100 are
    properties, the odd ones carry a controller, and 200 and above are
    shader properties. *)
Definition demo_merge_branchentry
    (st : merge_spell (B:=nat)) (branch : nat) : merge_spell * bool :=
  merge_branchentry (λ a b, a mod 10 =? b mod 10) (λ b, b <? 100) Nat.odd
    (λ b, 200 <=? b) st branch.

Definition demo_merge_spell : merge_spell (B:=nat) :=
  {| branches := [12; 33; 52; 150];
     merge_log := {| changed := false; messages := [] |};
     replaced := [] |}.


(** ** [SpellOptimizeGeometry.branchentry]: re-pointing strips and triangles *)

(** The loop [for i in xrange(len(strip))] over one strip, which is changed
    in place.  [warns] collects the indices reported by the warning
    "Corrupt nif: bad vertex index in strip (%i); replacing by valid index
    which might modify your geometry!"; they are kept when the loop raises.
    [count] is the number of iterations left. *)
Fixpoint remap_strip_loop (v_map : list nat) (count i : nat)
    (strip : list nat) (warns : list nat) : list nat * outcome (list nat) :=
  match count with
  | 0 => (warns, Done strip)
  | S count =>
      match strip !! i with
      | None => (warns, Raised IndexError)
      | Some cur =>
          match v_map !! cur with
          | Some k => remap_strip_loop v_map count (S i) (<[i:=k]> strip) warns
          | None =>
              (* except IndexError *)
              let warns := warns ++ [cur] in
              match strip !! (if 0 <? i then i - 1 else i + 1) with
              | Some v => remap_strip_loop v_map count (S i) (<[i:=v]> strip) warns
              | None => (warns, Raised IndexError)
              end
          end
      end
  end.

Definition remap_strip (v_map : list nat) (strip : list nat)
  : list nat * outcome (list nat) :=
  remap_strip_loop v_map (length strip) 0 strip [].

(** The indices of a strip that [v_map] does not cover, in order. *)
Definition bad_indices (v_map : list nat) (l : list nat) : list nat :=
  filter (λ v, v_map !! v = None) l.

(** [for tri in data.triangles: tri.v_1 = v_map[tri.v_1]; ...], with no
    handler around it. *)
Definition remap_triangle (v_map : list nat) (tri : nat * nat * nat)
  : outcome (nat * nat * nat) :=
  v1 ← getitem v_map tri.1.1;
  v2 ← getitem v_map tri.1.2;
  v3 ← getitem v_map tri.2;
  mret (v1, v2, v3).

Fixpoint remap_triangles (v_map : list nat) (tris : list (nat * nat * nat))
  : outcome (list (nat * nat * nat)) :=
  match tris with
  | [] => mret []
  | tri :: tris =>
      tri' ← remap_triangle v_map tri;
      tris' ← remap_triangles v_map tris;
      mret (tri' :: tris')
  end.


(** The old [optimizeTriBasedGeom] re-points a strip with no handler:
    [for i in xrange(len(strip)): strip[i] = v_map[strip[i]]]. *)
Fixpoint remap_strip_unchecked (v_map : list nat) (strip : list nat)
  : outcome (list nat) :=
  match strip with
  | [] => mret []
  | v :: strip =>
      k ← getitem v_map v;
      strip' ← remap_strip_unchecked v_map strip;
      mret (k :: strip')
  end.

(** [for i, v in enumerate(data.vertices): old_i = v_map_inverse[i];
    v.x = oldverts[old_i][0]; ...] over an array that [updateSize] has given
    [count] more entries from index [i] on: the new entries, read from the
    copy [old] of the attribute made before. *)
Fixpoint copy_old_loop {A} (v_map_inverse : list nat) (old : list A)
    (i count : nat) : outcome (list A) :=
  match count with
  | 0 => mret []
  | S count =>
      old_i ← getitem v_map_inverse i;
      v ← getitem old old_i;
      rest ← copy_old_loop v_map_inverse old (S i) count;
      mret (v :: rest)
  end.

Definition copy_old {A} (new_numvertices : nat) (v_map_inverse : list nat)
    (old : list A) : outcome (list A) :=
  copy_old_loop v_map_inverse old 0 new_numvertices.

(** The part of [optimizeTriBasedGeom] between the degenerate case and the
    stripifier, for one per-vertex attribute [old] and a [NiTriShape]: the
    scan, the copy of the attribute, the new triangles. *)
Definition optimize_vertices_and_triangles {K A} `{Countable K}
    (numVertices : nat) (hashes : list K) (old : list A)
    (tris : list (nat * nat * nat))
  : outcome (list A * list (nat * nat * nat)) :=
  '(v_map, v_map_inverse, new_numvertices) ←
     remove_duplicate_vertices numVertices hashes;
  new ← copy_old new_numvertices v_map_inverse old;
  tris' ← remap_triangles v_map tris;
  mret (new, tris').

(** After the rewrite, corner [t'] stands for the old corner [t]: the new
    vertex [t'] carries the attribute of the first old vertex that has the
    hash of [t]. *)
Definition corner_kept {K A} `{Countable K} (hashes : list K) (old new : list A)
    (t t' : nat) : Prop :=
  ∃ r, is_first_occurrence hashes r ∧ hashes !! r = hashes !! t ∧
       is_Some (old !! r) ∧ new !! t' = old !! r.


(** ** [SpellOptimizeAnimation.optimize_keys] *)

(** What [isinstance(keys[0].value, ...)] finds: a float or an int, a string,
    a [Vector4] or quaternion, a [Vector3], or something else. *)
Inductive key_kind : Type :=
  | KScalar
  | KWord
  | KVector4
  | KVector3
  | KOther.

Section optimize_keys.
Context {Key Qv : Type} `{EqDecision Qv}.

(** What the loops compare: [int(precision*key.value)] for numbers, the list
    of the [int(key.value.c*precision)] of the components for vectors, and
    [key.value] itself for strings.  The numbers are taken to be finite, so
    that [int] returns. *)
Variable quant : Key → Qv.

(** The [try] block of the loops over numbers and over strings. *)
Definition scalar_key_kept (keys : list Key) (i : nat) (key : Key) : outcome bool :=
  prev ← getitem keys (i - 1);
  if decide (quant prev ≠ quant key) then mret true
  else
    next ← getitem keys (i + 1);
    mret (bool_decide (quant next ≠ quant key)).

Fixpoint optimize_scalar_loop (keys : list Key) (i : nat) (rest new_keys : list Key)
  : outcome (list Key) :=
  match rest with
  | [] => mret new_keys
  | key :: rest =>
      if i =? 0 then optimize_scalar_loop keys (S i) rest (new_keys ++ [key])
      else
        match scalar_key_kept keys i key with
        | Done true => optimize_scalar_loop keys (S i) rest (new_keys ++ [key])
        | Done false => optimize_scalar_loop keys (S i) rest new_keys
        | Raised IndexError =>
            (* except IndexError *)
            optimize_scalar_loop keys (S i) rest (new_keys ++ [key])
        | Raised e => Raised e
        | Timeout => Timeout
        end
  end.

(** The loops over vectors.  [tempkey] is a list of three lists of ints;
    [None] stands for the empty list that [tempkey[2] = []] leaves when
    [keys[i+1]] raises. *)
Fixpoint optimize_vector_loop (keys : list Key) (i : nat) (rest : list Key)
    (tempkey : option Qv * option Qv * option Qv) (new_keys : list Key)
  : outcome (list Key) :=
  match rest with
  | [] => mret new_keys
  | key :: rest =>
      if i =? 0 then optimize_vector_loop keys (S i) rest tempkey (new_keys ++ [key])
      else
        let tempkey0 := tempkey.1.2 in
        let tempkey1 := tempkey.2 in
        match getitem keys (i + 1) with
        | Raised IndexError =>
            optimize_vector_loop keys (S i) rest (tempkey0, tempkey1, None)
              (new_keys ++ [key])
        | Raised e => Raised e
        | Timeout => Timeout
        | Done next =>
            let tempkey2 := Some (quant next) in
            if decide (tempkey1 ≠ tempkey0) then
              optimize_vector_loop keys (S i) rest (tempkey0, tempkey1, tempkey2)
                (new_keys ++ [key])
            else if decide (tempkey1 ≠ tempkey2) then
              optimize_vector_loop keys (S i) rest (tempkey0, tempkey1, tempkey2)
                (new_keys ++ [key])
            else
              optimize_vector_loop keys (S i) rest (tempkey0, tempkey1, tempkey2)
                new_keys
        end
  end.

Definition optimize_keys (kind : key_kind) (keys : list Key) : outcome (list Key) :=
  if length keys <? 3 then mret keys
  else
    match kind with
    | KScalar | KWord => optimize_scalar_loop keys 0 keys []
    | KVector4 | KVector3 =>
        k0 ← getitem keys 0;
        k1 ← getitem keys 1;
        k2 ← getitem keys 2;
        optimize_vector_loop keys 0 keys
          (Some (quant k0), Some (quant k1), Some (quant k2)) []
    | KOther => mret keys
    end.

(** The keys of [l] that differ from the key before them or from the key
    after them, and the last one; [qp] is the value before [l]. *)
Fixpoint thin (qp : Qv) (l : list Key) : list Key :=
  match l with
  | [] => []
  | k :: rest =>
      match rest with
      | [] => [k]
      | next :: _ =>
          if decide (qp = quant k ∧ quant next = quant k)
          then thin (quant k) rest
          else k :: thin (quant k) rest
      end
  end.

(** A list of values without the repetitions of a value just seen. *)
Fixpoint squash (l : list Qv) : list Qv :=
  match l with
  | [] => []
  | a :: rest =>
      match rest with
      | [] => [a]
      | b :: _ => if decide (a = b) then squash rest else a :: squash rest
      end
  end.

(** No key of [l] has the value of both its neighbours; [qp] is the value
    before [l]. *)
Fixpoint no_triple (qp : Qv) (l : list Key) : Prop :=
  match l with
  | [] => True
  | k :: rest =>
      match rest with
      | [] => True
      | next :: _ => ¬ (qp = quant k ∧ quant next = quant k) ∧ no_triple (quant k) rest
      end
  end.
End optimize_keys.


(** ** [SpellOptimizeCollisionGeometry.optimize_mopp]: the subshape counts *)

(** [while v_map_inverse[new_i] < old_max_index: num_vertices += 1;
    new_i += 1] inside [try ... except IndexError: pass]; returns [new_i] and
    [num_vertices].  [old_max_index] starts at [-1], so it is an integer. *)
Fixpoint count_below (fuel : nat) (v_map_inverse : list nat) (old_max_index : Z)
    (new_i num_vertices : nat) : outcome (nat * nat) :=
  match fuel with
  | 0 => Timeout
  | S fuel =>
      match getitem v_map_inverse new_i with
      | Done v =>
          if (Z.of_nat v <? old_max_index)%Z
          then count_below fuel v_map_inverse old_max_index (new_i + 1) (num_vertices + 1)
          else Done (new_i, num_vertices)
      | Raised IndexError => Done (new_i, num_vertices)
      | Raised e => Raised e
      | Timeout => Timeout
      end
  end.

(** [for sub_shape in shape.sub_shapes], on the list of the [num_vertices]
    of the subshapes; returns the new [num_vertices]. *)
Fixpoint fix_counts_loop (v_map_inverse : list nat) (sub_shapes : list nat)
    (old_max_index : Z) (new_i : nat) : outcome (list nat) :=
  match sub_shapes with
  | [] => mret []
  | num :: sub_shapes =>
      let old_max_index := (old_max_index + Z.of_nat num)%Z in
      r ← count_below (S (length v_map_inverse)) v_map_inverse old_max_index new_i 0;
      rest ← fix_counts_loop v_map_inverse sub_shapes old_max_index r.1;
      mret (r.2 :: rest)
  end.

(** "fix subshape counts": the quick way for one subshape, where
    [shape.data.num_vertices] is [len(v_map_inverse)], and the slow way. *)
Definition fix_subshape_counts (num_sub_shapes : nat) (sub_shapes : list nat)
    (v_map_inverse : list nat) : outcome (list nat) :=
  if num_sub_shapes =? 1 then setitem sub_shapes 0 (length v_map_inverse)
  else fix_counts_loop v_map_inverse sub_shapes (-1) 0.


(** ** [isequalTriGeomData] *)

Section isequalTriGeomData.
Context {C A K : Type} `{EqDecision A} `{EqDecision K}.

(** [isinstance(x, cls)], from the class of [x] and [cls]. *)
Variable isinstance : C → C → bool.

(** What the comparison reads of a [NiTriShapeData] or [NiTriStripsData]
    block: its class, its attributes by name, the hashes that
    [getVertexHashGenerator] yields and the triangles that [getTriangles]
    returns. *)
Record TriGeomData : Type := {
  tg_class : C;
  tg_getattr : string → A;
  tg_verthashes : list K;
  tg_triangles : list (nat * nat * nat);
}.

Definition trivial_attributes : list string :=
  ["numVertices"; "keepFlags"; "compressFlags"; "hasVertices";
   "numUvSets"; "hasNormals"; "center"; "radius";
   "hasVertexColors"; "hasUv"; "consistencyFlags"]%string.

(** [for attribute in (...): if getattr(shape1, attribute) !=
    getattr(shape2, attribute): return False]; [true] when the loop ends. *)
Fixpoint attributes_equal (names : list string) (shape1 shape2 : TriGeomData) : bool :=
  match names with
  | [] => true
  | attribute :: names =>
      if decide (tg_getattr shape1 attribute ≠ tg_getattr shape2 attribute)
      then false
      else attributes_equal names shape1 shape2
  end.

(** [for x in l1: if not x in l2: return False]; [true] when the loop ends. *)
Fixpoint all_in {X} `{EqDecision X} (l1 l2 : list X) : bool :=
  match l1 with
  | [] => true
  | x :: l1 => if decide (x ∈ l2) then all_in l1 l2 else false
  end.

(** [[tuple(verthashes[i] for i in tri) for tri in triangles]]. *)
Fixpoint hashed_triangles (verthashes : list K) (triangles : list (nat * nat * nat))
  : outcome (list (K * K * K)) :=
  match triangles with
  | [] => mret []
  | tri :: triangles =>
      h1 ← getitem verthashes tri.1.1;
      h2 ← getitem verthashes tri.1.2;
      h3 ← getitem verthashes tri.2;
      rest ← hashed_triangles verthashes triangles;
      mret ((h1, h2, h3) :: rest)
  end.

(** The blocks live in a store, and [shape1 is shape2] compares their
    places in it. *)
Definition isequalTriGeomData (blocks : nat → TriGeomData) (shape1 shape2 : nat)
  : outcome bool :=
  if decide (shape1 = shape2) then mret true
  else
    let s1 := blocks shape1 in
    let s2 := blocks shape2 in
    if negb (isinstance (tg_class s1) (tg_class s2))
       || negb (isinstance (tg_class s2) (tg_class s1))
    then mret false
    else if negb (attributes_equal trivial_attributes s1 s2) then mret false
    else
      let verthashes1 := tg_verthashes s1 in
      let verthashes2 := tg_verthashes s2 in
      if negb (all_in verthashes1 verthashes2) then mret false
      else if negb (all_in verthashes2 verthashes1) then mret false
      else
        triangles1 ← hashed_triangles verthashes1 (tg_triangles s1);
        triangles2 ← hashed_triangles verthashes2 (tg_triangles s2);
        if negb (all_in triangles1 triangles2) then mret false
        else if negb (all_in triangles2 triangles1) then mret false
        else mret true.
End isequalTriGeomData.


(** ** [fixTexturePath] *)

Definition LF : ascii := ascii_of_nat 10.
Definition CR : ascii := ascii_of_nat 13.
Definition backslash : ascii := ascii_of_nat 92.

(** [old in s], for a one-character string [old]. *)
Fixpoint contains_char (old : ascii) (s : string) : bool :=
  match s with
  | EmptyString => false
  | String c s => Ascii.eqb c old || contains_char old s
  end.

(** [s.replace(old, new)], for a one-character string [old]. *)
Fixpoint replace_char (old : ascii) (new : string) (s : string) : string :=
  match s with
  | EmptyString => EmptyString
  | String c s =>
      if Ascii.eqb c old then String.append new (replace_char old new s)
      else String c (replace_char old new s)
  end.

Fixpoint count_char (old : ascii) (s : string) : nat :=
  match s with
  | EmptyString => 0
  | String c s => (if Ascii.eqb c old then 1 else 0) + count_char old s
  end.

(** The lines printed, and the new [block.fileName].  The replacement
    strings are a backslash followed by a letter. *)
Definition fixTexturePath (fileName : string) : list string * string :=
  if contains_char LF fileName || contains_char CR fileName then
    let fileName := replace_char LF "\n" fileName in
    let fileName := replace_char CR "\r" fileName in
    (["fixing corrupted file name"%string; String.append "  " fileName], fileName)
  else ([], fileName).


(** ** [testRoot]: merging the properties of a block *)

Section merge_properties.
Context {P H : Type} `{EqDecision P} `{Countable H}.

(** What the loop reads of a property: whether [prop.controller] is set,
    the name of its class, whether that name is in [exclude], and the pair
    of the class name and [prop.getHash(ignore_strings = ...)]. *)
Variable has_controller : P → bool.
Variable class_name : P → string.
Variable excluded : P → bool.
Variable hashvalue : P → H.

(** [for i, prop in enumerate(block.properties)], over the array that the
    loop itself changes; [count] is the number of entries left.  Returns the
    properties of the block, [property_map] and the lines printed. *)
Fixpoint merge_properties_loop (count i : nat) (properties : list P)
    (property_map : gmap H P) (out : list string)
  : list P * gmap H P * list string :=
  match count with
  | 0 => (properties, property_map, out)
  | S count =>
      match properties !! i with
      | None => (properties, property_map, out)
      | Some prop =>
          if has_controller prop then
            merge_properties_loop count (S i) properties property_map out
          else if excluded prop then
            merge_properties_loop count (S i) properties property_map out
          else
            match property_map !! hashvalue prop with
            | None =>
                (* KeyError *)
                merge_properties_loop count (S i) properties
                  (<[hashvalue prop := prop]> property_map) out
            | Some new_prop =>
                if decide (new_prop ≠ prop) then
                  merge_properties_loop count (S i) (<[i := new_prop]> properties)
                    (<[hashvalue prop := new_prop]> property_map)
                    (out ++ [String.append "  removing duplicate "
                               (String.append (class_name prop) " block")])
                else
                  merge_properties_loop count (S i) properties property_map out
            end
      end
  end.

Definition merge_properties (properties : list P) (property_map : gmap H P)
  : list P * gmap H P * list string :=
  merge_properties_loop (length properties) 0 properties property_map [].
End merge_properties.


(** ** Buffers on which decoding meets recognized forms only *)

(** A run that returns a result. *)
Definition returns {A} (m : printing A) : Prop := ∃ a, yields m a.

(** The offsets at which decoding goes on after the form at [i]: the next
    form after a form that only sets something, the target of a jump, the two
    sides of a branch, and none after a triangle.  [None] when the opcode is
    not recognized or one of its operands lies past the end of the data. *)
Definition successors (self : bhkMoppBvTreeShape) (i code : nat) : option (list nat) :=
  let mopp := moppData self in
  match opcode_kind_of code with
  | OffsetByte => _ ← mopp !! (i + 1); Some [i + 2]
  | OffsetShort => _ ← mopp !! (i + 1); _ ← mopp !! (i + 2); Some [i + 3]
  | OffsetSet =>
      _ ← mopp !! (i + 1); _ ← mopp !! (i + 2);
      _ ← mopp !! (i + 3); _ ← mopp !! (i + 4); Some [i + 5]
  | TriangleCompact => Some []
  | TriangleByte => _ ← mopp !! (i + 1); Some []
  | TriangleShort => _ ← mopp !! (i + 1); _ ← mopp !! (i + 2); Some []
  | TriangleShort53 =>
      _ ← mopp !! (i + 1); _ ← mopp !! (i + 2);
      _ ← mopp !! (i + 3); _ ← mopp !! (i + 4); Some []
  | JumpByte => a ← mopp !! (i + 1); Some [i + (2 + a)]
  | JumpShort => a ← mopp !! (i + 1); b ← mopp !! (i + 2); Some [i + (3 + (a * 256 + b))]
  | BranchTwoArgs =>
      _ ← mopp !! (i + 1); _ ← mopp !! (i + 2); d ← mopp !! (i + 3);
      Some [i + 4; i + 4 + d]
  | BranchOneArg => _ ← mopp !! (i + 1); d ← mopp !! (i + 2); Some [i + 3; i + 3 + d]
  | BranchShort =>
      _ ← mopp !! (i + 1); _ ← mopp !! (i + 2);
      c ← mopp !! (i + 3); d ← mopp !! (i + 4);
      e ← mopp !! (i + 5); f ← mopp !! (i + 6);
      Some [i + 7 + (c * 256 + d); i + 7 + (e * 256 + f)]
  | Bound => _ ← mopp !! (i + 1); _ ← mopp !! (i + 2); Some [i + 3]
  | BoundXYZ =>
      _ ← mopp !! (i + 1); _ ← mopp !! (i + 2); _ ← mopp !! (i + 3); Some [i + 4]
  | Unknown => None
  end.

(** From offset [i] on, following every displacement as it is written, only
    recognized forms with all their operands are met, up to the end of the
    data. *)
Inductive laid_out (self : bhkMoppBvTreeShape) : nat → Prop :=
| laid_out_end i :
    moppDataSize self ≤ i → laid_out self i
| laid_out_form i code next :
    i < moppDataSize self →
    moppData self !! i = Some code →
    successors self i code = Some next →
    (∀ j, j ∈ next → laid_out self j) →
    laid_out self i.

(** A size field that is larger than the data. *)
Definition size_past_data : bhkMoppBvTreeShape :=
  {| shape_data := {| pk_vertices := []; pk_triangles := [] |};
     origin := Vector3.mk 0 0 0; scale := 1;
     moppDataSize := 2; moppData := [0x00] |}.

(** A short branch whose first displacement is not zero: the "then" side
    lies after the "else" side. *)
Definition crossed_branch : bhkMoppBvTreeShape :=
  mopp_of [0x23; 1; 2; 0; 1; 0; 0; 0x30; 0x31].


(** A run that ends in an exception. *)
Definition raises {A} (m : printing A) : Prop := ∃ e, m.2 = Raised e.

(** [stops m]: every header [m] prints tells the byte at its offset, and
    wherever [m] prints the header of an unrecognized opcode, the
    unknown-opcode line and the line announcing the following bytes come
    next, and [m] ends in an exception. *)
Definition stops (self : bhkMoppBvTreeShape) {A} (m : printing A) : Prop :=
  ∀ j d c, PrOpcode j d c ∈ m.1 →
    (j < moppDataSize self ∧ moppData self !! j = Some c) ∧
    (opcode_kind_of c = Unknown →
       raises m ∧
       ∃ pre post, m.1 = pre ++ PrOpcode j d c :: PrUnknown c :: PrFollowing :: post).


(** The calls of [branchentry] that the toaster makes on the branches it
    visits, in visiting order; what each call returns decides only whether
    the toaster goes on below the branch. *)
Definition merge_visit {B : Type} `{EqDecision B} (is_interchangeable : B → B → bool)
    (is_NiProperty has_controller is_BSShaderProperty : B → bool)
    (st : merge_spell) (visited : list B) : merge_spell :=
  foldl (λ st branch,
           (merge_branchentry is_interchangeable is_NiProperty has_controller
              is_BSShaderProperty st branch).1) st visited.


(** ** The degenerate case of the geometry spells *)

Section degenerate.
Context {B Doc : Type} `{EqDecision B}.

(** What a spell that optimizes geometries keeps: the branches it has
    optimized, the rigid body met last (in the collision spell), its flag
    and messages, the calls
    [self.data.replace_global_node(old, new)] it has made, and the document
    it works on. *)
Record geometry_spell : Type := {
  optimized : list B;
  rigidbody : option B;
  geometry_log : spell_log;
  detached : list (B * option B);
  document : Doc;
}.

Definition geometry_msg (msg : string) (st : geometry_spell) : geometry_spell :=
  {| optimized := optimized st; rigidbody := rigidbody st;
     geometry_log := toaster_msg msg (geometry_log st);
     detached := detached st; document := document st |}.

Definition geometry_changed (st : geometry_spell) : geometry_spell :=
  {| optimized := optimized st; rigidbody := rigidbody st;
     geometry_log := set_changed (geometry_log st);
     detached := detached st; document := document st |}.

Definition replace_global_node (old : B) (new : option B) (st : geometry_spell)
  : geometry_spell :=
  {| optimized := optimized st; rigidbody := rigidbody st;
     geometry_log := geometry_log st;
     detached := detached st ++ [(old, new)]; document := document st |}.

Definition optimized_append (branch : B) (st : geometry_spell) : geometry_spell :=
  {| optimized := optimized st ++ [branch]; rigidbody := rigidbody st;
     geometry_log := geometry_log st;
     detached := detached st; document := document st |}.

(** [self.rigidbody = branch] *)
Definition set_rigidbody (branch : B) (st : geometry_spell) : geometry_spell :=
  {| optimized := optimized st; rigidbody := Some branch;
     geometry_log := geometry_log st;
     detached := detached st; document := document st |}.

(** [isinstance(branch, NifFormat.NiTriBasedGeom)], and
    [branch.data.num_vertices] read in the document. *)
Variable is_NiTriBasedGeom : B → bool.
Variable num_vertices : Doc → B → nat.

(** The rest of [SpellOptimizeGeometry.branchentry], from
    [data = branch.data] on: the scan, the copy of the attributes, the
    strips and triangles, the stripifier, skin, morphs and tangent space. *)
Variable optimize_geometry : geometry_spell → B → outcome (geometry_spell * bool).

(** [SpellOptimizeGeometry.branchentry], down to the degenerate case. *)
Definition geometry_branchentry (st : geometry_spell) (branch : B)
  : outcome (geometry_spell * bool) :=
  if negb (is_NiTriBasedGeom branch) then
    (* keep recursing *)
    mret (st, true)
  else if decide (branch ∈ optimized st) then
    (* already optimized *)
    mret (st, false)
  else
    let st := geometry_changed st in
    if num_vertices (document st) branch <? 3 then
      let st := geometry_msg "less than 3 vertices: removing branch" st in
      let st := replace_global_node branch None st in
      mret (st, false)
    else optimize_geometry st branch.

(** The classes [SpellOptimizeCollisionGeometry.branchentry] tells apart: a
    [bhkMoppBvTreeShape] whose shape is a [bhkPackedNiTriStripsShape] with
    [hkPackedNiTriStripsData]; a [bhkRigidBody] whose shape is a
    [bhkNiTriStripsShape]; a [bhkRigidBody] whose shape is a
    [bhkPackedNiTriStripsShape]; any other [bhkRigidBody]; anything else. *)
Inductive collision_kind : Type :=
| MoppPacked
| RigidStrips
| RigidPacked
| RigidOther
| NoCollisionGeometry.

Variable collision_kind_of : Doc → B → collision_kind.

(** [branch.shape.data.num_vertices] of a MOPP shape. *)
Variable shape_num_vertices : Doc → B → nat.

(** [self.optimize_mopp(branch)], and the arm of a rigid body with a packed
    shape, which has no test of the vertex count. *)
Variable optimize_mopp : geometry_spell → B → outcome geometry_spell.
Variable rigid_packed : geometry_spell → B → outcome (geometry_spell * bool).

(** [SpellOptimizeCollisionGeometry.branchentry].  The arm of a rigid body
    with a [bhkNiTriStripsShape] begins with
    [self.get_box_shape(barnch.shape)], where the name [barnch] is not
    bound. *)
Definition collision_branchentry (st : geometry_spell) (branch : B)
  : outcome (geometry_spell * bool) :=
  if decide (branch ∈ optimized st) then
    (* already optimized *)
    mret (st, false)
  else
    match collision_kind_of (document st) branch with
    | MoppPacked =>
        if shape_num_vertices (document st) branch <? 3 then
          let st := geometry_msg "less than 3 vertices: removing branch" st in
          let st := replace_global_node branch None st in
          let st := geometry_changed st in
          mret (st, false)
        else
          st ← optimize_mopp st branch;
          let st := optimized_append branch st in
          let st := geometry_changed st in
          mret (st, false)
    | RigidStrips => Raised (NameError "barnch")
    | RigidPacked => rigid_packed (set_rigidbody branch st) branch
    | RigidOther =>
        (* keep recursing *)
        mret (set_rigidbody branch st, true)
    | NoCollisionGeometry =>
        (* keep recursing *)
        mret (st, true)
    end.

(** The rest of the old [optimizeTriBasedGeom], from [data = block.data]
    on; it returns the lines printed, the document and the block that
    stands for [block] from now on. *)
Variable optimize_block : Doc → B → outcome (list string * Doc * option B).

(** The name of a block, for the first line printed. *)
Variable block_name : Doc → B → string.

(** The old [optimizeTriBasedGeom], down to the degenerate case. *)
Definition optimizeTriBasedGeom (doc : Doc) (block : B)
  : outcome (list string * Doc * option B) :=
  let out := [String.append "optimizing block '"
                (String.append (block_name doc block) "'")] in
  if num_vertices doc block <? 3 then
    mret (out ++ ["  less than 3 vertices: removing block"]%string, doc, None)
  else
    r ← optimize_block doc block;
    mret (out ++ r.1.1, r.1.2, r.2).
End degenerate.


(** ** Particle emitters: what they switch off *)

(** [SpellMergeDuplicates.datainspect]: [has_block_type] is the outcome of
    [self.data.header.has_block_type(NifFormat.NiPSysMeshEmitter)]; a
    [ValueError] is caught ("when in doubt, do the spell"). *)
Definition merge_datainspect (has_block_type : outcome bool) : outcome bool :=
  match has_block_type with
  | Done b => Done (negb b)
  | Raised (ValueError _) => Done true
  | Raised e => Raised e
  | Timeout => Timeout
  end.

Section testRoot_loops.
Context {B D Hh : Type} `{EqDecision B} `{Countable Hh}.

(** Class tests of the block library. *)
Variable is_NiPSysMeshEmitter : B → bool.
Variable is_NiAVObject : B → bool.
Variable is_NiNode : B → bool.
Variable is_tri_shape : B → bool.

(** What the property loop reads of a property, see [merge_properties]. *)
Variable has_controller : B → bool.
Variable class_name : B → string.
Variable excluded : B → bool.
Variable hashvalue : B → Hh.

(** [isequalTriGeomData(shape.data, block.data)] on two data blocks, and
    [block.name]. *)
Variable isequal : D → D → outcome bool.
Variable block_name : B → string.

(** [for x in refs: if not(x is None or x in l): l.append(x)] *)
Fixpoint unique_refs (l : list B) (refs : list (option B)) : list B :=
  match refs with
  | [] => l
  | None :: refs => unique_refs l refs
  | Some x :: refs =>
      if decide (x ∈ l) then unique_refs l refs else unique_refs (l ++ [x]) refs
  end.

(** The loop "joining duplicate properties" of [testRoot] over
    [block_list]; [properties] gives [block.properties] of each block.  It
    runs before [opt_shapes] is computed and does not read it. *)
Fixpoint join_duplicate_properties (block_list : list B)
    (properties : B → list (option B)) (property_map : gmap Hh B)
    (out : list string)
  : (B → list (option B)) * gmap Hh B * list string :=
  match block_list with
  | [] => (properties, property_map, out)
  | block :: block_list =>
      if negb (is_NiAVObject block) then
        join_duplicate_properties block_list properties property_map out
      else
        let proplist := unique_refs [] (properties block) in
        let r := merge_properties has_controller class_name excluded hashvalue
                   proplist property_map in
        join_duplicate_properties block_list
          (<[block := Some <$> r.1.1]> properties) r.1.2 (out ++ r.2)
  end.

(** [opt_shapes = True; for block in block_list: if isinstance(block,
    NifFormat.NiPSysMeshEmitter): opt_shapes = False] *)
Definition opt_shapes (block_list : list B) : bool :=
  foldl (λ opt block, if is_NiPSysMeshEmitter block then false else opt)
    true block_list.

(** The loop "removing duplicate and empty children"; [children] gives
    [block.children] of each block. *)
Fixpoint remove_duplicate_children (opt : bool) (block_list : list B)
    (children : B → list (option B)) : B → list (option B) :=
  match block_list with
  | [] => children
  | block :: block_list =>
      if negb opt then remove_duplicate_children opt block_list children
      else if negb (is_NiNode block) then
        remove_duplicate_children opt block_list children
      else
        let childlist := unique_refs [] (children block) in
        remove_duplicate_children opt block_list
          (<[block := Some <$> childlist]> children)
  end.

(** [for shape in triShapeDataList: if isequalTriGeomData(shape.data,
    block.data): ...; break]: the shape found, if any. *)
Fixpoint find_equal_shape (data : B → D) (block : B) (shapes : list B)
  : outcome (option B) :=
  match shapes with
  | [] => mret None
  | shape :: shapes =>
      eq ← isequal (data shape) (data block);
      if eq : bool then mret (Some shape) else find_equal_shape data block shapes
  end.

(** The loop "merge shape data"; [data] gives [block.data] of each shape. *)
Fixpoint merge_shape_data (opt : bool) (block_list triShapeDataList : list B)
    (data : B → D) (out : list string) : outcome ((B → D) * list string) :=
  match block_list with
  | [] => mret (data, out)
  | block :: block_list =>
      if negb opt then merge_shape_data opt block_list triShapeDataList data out
      else if is_tri_shape block then
        found ← find_equal_shape data block triShapeDataList;
        match found with
        | Some shape =>
            merge_shape_data opt block_list triShapeDataList
              (<[block := data shape]> data)
              (out ++ [String.append "  merging shape data of shape "
                         (String.append (block_name block)
                            (String.append " with shape " (block_name shape)))])
        | None =>
            merge_shape_data opt block_list (triShapeDataList ++ [block]) data out
        end
      else merge_shape_data opt block_list triShapeDataList data out
  end.
End testRoot_loops.


(** ** [SpellOptimizeGeometry.branchentry] on the data of a [NiTriStrips] *)

(** Modelled from the spec: [unique_map] of [pyffi.utils.mathutils], which
    is not among the sources.  "Single linear scan; the first occurrence of
    a key claims the new index; every later occurrence of an equal key maps
    to that same new index": the scan of the old [optimizeTriBasedGeom].
    It returns [v_map] and [v_map_inverse]. *)
Definition unique_map {K} `{Countable K} (hashes : list K)
  : outcome (list nat * list nat) :=
  r ← remove_duplicate_vertices (length hashes) hashes;
  mret (r.1.1, r.1.2).

(** What [self.toaster.logger.warn] is called with. *)
Inductive geometry_warning : Type :=
| BadStripIndex (v : nat)
| InsaneTriangles (num_triangles : nat).

Section optimize_strips.
Context {K A : Type} `{Countable K}.

(** The hash [get_vertex_hash_generator] yields for a vertex, from the
    attributes of the vertex, at the precisions of the spell. *)
Variable vertex_hash : A → K.

(** What the branch [else:] of the test on [data.num_triangles] makes of
    the strips: [set_triangles(get_triangles())], then triangulating or
    stitching. *)
Variable restrip : list (list nat) → outcome (list (list nat)).

(** [for strip in data.points: for i in xrange(len(strip)): ...]: the
    strips in turn; the warnings add up and are kept when a strip raises. *)
Fixpoint remap_strips (v_map : list nat) (points : list (list nat))
  : list nat * outcome (list (list nat)) :=
  match points with
  | [] => ([], Done [])
  | strip :: points =>
      let r := remap_strip v_map strip in
      match r.2 with
      | Done strip' =>
          let rs := remap_strips v_map points in
          (r.1 ++ rs.1, points' ← rs.2; mret (strip' :: points'))
      | Raised e => (r.1, Raised e)
      | Timeout => (r.1, Timeout)
      end
  end.

(** [branchentry] on a [NiTriStrips] with three vertices or more, no skin,
    no morph controller and no tangent space, from [v_map, v_map_inverse =
    self.optimize_vertices(data)] to the return: the warnings, the new
    vertices and the new strips.  [vertices] holds the attributes of each
    vertex (position, normal, UV, colour); the messages sent with
    [toaster.msg] are left out. *)
Definition optimize_strips_data (vertices : list A) (num_triangles : nat)
    (points : list (list nat))
  : list geometry_warning * outcome (list A * list (list nat)) :=
  match unique_map (vertex_hash <$> vertices) with
  | Done (v_map, v_map_inverse) =>
      let new_numvertices := length v_map_inverse in
      match copy_old new_numvertices v_map_inverse vertices with
      | Done new_vertices =>
          let r := remap_strips v_map points in
          match r.2 with
          | Done points' =>
              if 32000 <? num_triangles then
                ((BadStripIndex <$> r.1) ++ [InsaneTriangles num_triangles],
                 Done (new_vertices, points'))
              else
                (BadStripIndex <$> r.1,
                 points'' ← restrip points'; mret (new_vertices, points''))
          | Raised e => (BadStripIndex <$> r.1, Raised e)
          | Timeout => (BadStripIndex <$> r.1, Timeout)
          end
      | Raised e => ([], Raised e)
      | Timeout => ([], Timeout)
      end
  | Raised e => ([], Raised e)
  | Timeout => ([], Timeout)
  end.
End optimize_strips.

(** * Lemmas *)

Example parseMopp_leaf :
  parseMopp {| shape_data := {| pk_vertices := []; pk_triangles := [] |};
               origin := Vector3.mk 0 0 0; scale := 1;
               moppDataSize := 3; moppData := [0x09; 5; 0x31] |} 0 0 0
  = ([PrOpcode 0 0 9; PrOffsetInc [5] 5; PrOpcode 2 0 49; PrTriangle [] 6],
     Done ([0; 1; 2], [6])).
Proof. reflexivity. Qed.

(** ** Reasoning about printing runs *)

Arguments mopp_at : simpl never.
Arguments mopp_range : simpl never.
Arguments unknown_opcode : simpl never.

Lemma pbind_eq {A B} (m : printing A) (f : A → printing B) :
  mbind f m = match m.2 with
              | Done a => (m.1 ++ (f a).1, (f a).2)
              | Raised e => (m.1, Raised e)
              | Timeout => (m.1, Timeout)
              end.
Proof. reflexivity. Qed.

Lemma pbind_done {A B} (m : printing A) (f : A → printing B) l a :
  m = (l, Done a) → mbind f m = (l ++ (f a).1, (f a).2).
Proof. intros ->. reflexivity. Qed.

Lemma pbind_pret {A B} (a : A) (f : A → printing B) : mbind f (pret a) = f a.
Proof. rewrite pbind_eq. simpl. by destruct (f a). Qed.

Lemma pbind_print {B} ev (f : unit → printing B) :
  mbind f (print ev) = (ev :: (f tt).1, (f tt).2).
Proof. reflexivity. Qed.

Lemma terminates_bind {A B} (m : printing A) (f : A → printing B) :
  terminates m → (∀ a, m.2 = Done a → terminates (f a)) → terminates (mbind f m).
Proof.
  unfold terminates. intros Hm Hf. rewrite pbind_eq.
  destruct m as [l [a|e|]]; simpl in *; [by apply Hf|done|done].
Qed.

Lemma terminates_plift {A} (o : outcome A) : o ≠ Timeout → terminates (plift o).
Proof. done. Qed.

Section parseMopp_facts.
Variable self : bhkMoppBvTreeShape.

Lemma mopp_at_Some i b :
  moppData self !! i = Some b → mopp_at self i = pret b.
Proof. unfold mopp_at, getitem. by intros ->. Qed.

Lemma mopp_at_None i :
  moppData self !! i = None → mopp_at self i = praise IndexError.
Proof. unfold mopp_at, getitem. by intros ->. Qed.

Lemma mopp_at_cases i :
  (∃ b, moppData self !! i = Some b ∧ mopp_at self i = pret b)
  ∨ mopp_at self i = praise IndexError.
Proof.
  destruct (moppData self !! i) as [b|] eqn:E.
  - left. exists b. split; [done|by apply mopp_at_Some].
  - right. by apply mopp_at_None.
Qed.

Lemma terminates_mopp_at i : terminates (mopp_at self i).
Proof. destruct (mopp_at_cases i) as [(b & _ & ->)| ->]; done. Qed.

Lemma terminates_mopp_slice lo n : terminates (mopp_slice self lo n).
Proof.
  revert lo. induction n as [|n IH]; intros lo; simpl; [done|].
  apply terminates_bind; [apply terminates_mopp_at|]. intros b _.
  apply terminates_bind; [apply IH|]. done.
Qed.

Lemma terminates_print_after_jumps bjs : terminates (print_after_jumps self bjs).
Proof.
  induction bjs as [|[b j] bjs IH]; simpl; [done|].
  apply terminates_bind; [|by intros].
  case_match; [|done].
  apply terminates_bind; [apply terminates_mopp_at|]. intros ? _.
  apply terminates_bind; [apply terminates_mopp_slice|]. done.
Qed.

Lemma terminates_unknown_opcode i code : terminates (unknown_opcode self i code).
Proof.
  unfold unknown_opcode.
  repeat (apply terminates_bind; [try done|intros ? _]).
  - apply terminates_mopp_slice.
  - apply terminates_print_after_jumps.
  - done.
Qed.

(** Enough budget: one unit per byte between the cursor and the end of the
    data, and one more. *)
Lemma terminates_parseMopp_loop fuel depth i toffset ids tris :
  moppDataSize self - i < fuel →
  terminates (parseMopp_loop self fuel depth i toffset ids tris).
Proof.
  revert depth i toffset ids tris.
  induction fuel as [|fuel IH]; intros depth i toffset ids tris Hfuel; [lia|].
  simpl. destruct (i <? moppDataSize self) eqn:Hi; simpl; [|done].
  apply Nat.ltb_lt in Hi.
  apply terminates_bind; [apply terminates_mopp_at|]. intros code _.
  apply terminates_bind; [done|]. intros _ _.
  destruct (opcode_kind_of code);
    repeat first
      [ apply terminates_unknown_opcode
      | apply IH; lia
      | done
      | apply terminates_bind;
        [first [apply terminates_mopp_at | apply IH; lia | done] | intros ? _] ].
Qed.

Lemma terminates_parseMopp start depth toffset :
  terminates (parseMopp self start depth toffset).
Proof. apply terminates_parseMopp_loop. lia. Qed.
End parseMopp_facts.

Section unknown_opcode_facts.
Variable self : bhkMoppBvTreeShape.
Hypothesis Hsize : moppDataSize self ≤ length (moppData self).

Lemma mopp_slice_ok lo n :
  lo + n ≤ length (moppData self) →
  mopp_slice self lo n = pret (take n (drop lo (moppData self))).
Proof.
  revert lo. induction n as [|n IH]; intros lo Hlen; cbn [mopp_slice].
  - by rewrite take_0.
  - destruct (lookup_lt_is_Some_2 (moppData self) lo) as [b Hb]; [lia|].
    rewrite (mopp_at_Some _ _ _ Hb), pbind_pret, IH by lia.
    rewrite pbind_pret. by rewrite (drop_S _ _ _ Hb).
Qed.

Lemma mopp_range_ok lo hi :
  hi ≤ length (moppData self) →
  mopp_range self lo hi = pret (take (hi - lo) (drop lo (moppData self))).
Proof.
  intros Hhi. unfold mopp_range.
  destruct (decide (hi - lo = 0)) as [->|Hne]; [by rewrite take_0|].
  apply mopp_slice_ok. lia.
Qed.

Lemma print_after_jumps_ok bjs :
  ∃ l, print_after_jumps self bjs = (l, Done tt) ∧ Forall is_after_jump l.
Proof.
  induction bjs as [|[b j] bjs (l & IH & Hl)]; cbn [print_after_jumps].
  - by exists [].
  - destruct (j + b + 1 <? moppDataSize self) eqn:Hj.
    + apply Nat.ltb_lt in Hj.
      destruct (lookup_lt_is_Some_2 (moppData self) (j + b + 1)) as [op Hop]; [lia|].
      rewrite (mopp_at_Some _ _ _ Hop), pbind_pret, mopp_range_ok by lia.
      rewrite pbind_pret, IH. eexists. split; [reflexivity|].
      simpl. by constructor.
    + rewrite pbind_pret, IH. by exists l.
Qed.

(** Under a consistent size field the report is complete and the run ends
    in the [ValueError] that names the opcode. *)
Lemma unknown_opcode_ok i code :
  i < moppDataSize self →
  ∃ l, unknown_opcode self i code
       = (PrUnknown code :: PrFollowing :: PrBytes (following_bytes self i) :: l,
          Raised (ValueError (unknown_message code)))
       ∧ Forall is_after_jump l.
Proof.
  intros Hi. unfold unknown_opcode.
  rewrite !pbind_print, mopp_range_ok by lia. rewrite pbind_pret, pbind_print.
  destruct (print_after_jumps_ok
              (zip (following_bytes self i)
                   (seq (i + 1) (min (moppDataSize self) (i + 10) - (i + 1)))))
    as (l & Hl & Hfa).
  unfold following_bytes in Hl. rewrite Hl. simpl.
  exists l. split; [|done]. by rewrite app_nil_r.
Qed.

Lemma report_ok i depth code :
  i < moppDataSize self →
  ∃ l, report self i depth code
       = PrOpcode i depth code :: PrUnknown code :: PrFollowing
           :: PrBytes (following_bytes self i) :: l
       ∧ Forall is_after_jump l.
Proof.
  intros Hi. destruct (unknown_opcode_ok i code Hi) as (l & Hl & Hfa).
  exists l. unfold report. by rewrite Hl.
Qed.
End unknown_opcode_facts.

Section reports.
Variable self : bhkMoppBvTreeShape.
Hypothesis Hsize : moppDataSize self ≤ length (moppData self).

Lemma reports_quiet {A} (m : printing A) :
  Forall (λ ev, ¬ is_opcode_header ev) m.1 → reports self m.
Proof.
  intros Hq j d c Hin. rewrite Forall_forall in Hq.
  by destruct (Hq _ Hin).
Qed.

Lemma reports_bind {A B} (m : printing A) (f : A → printing B) :
  reports self m → (∀ a, m.2 = Done a → reports self (f a)) → reports self (mbind f m).
Proof.
  intros Hm Hf j d c. rewrite pbind_eq.
  destruct m as [l [a|e|]]; simpl in *.
  - intros [Hin|Hin]%elem_of_app.
    + destruct (Hm j d c Hin) as [Hs Hu]. split; [done|].
      intros Hc. by destruct (Hu Hc).
    + destruct (Hf a eq_refl j d c Hin) as [Hs Hu]. split; [done|].
      intros Hc. destruct (Hu Hc) as (-> & pre & ->). split; [done|].
      exists (l ++ pre). by rewrite app_assoc.
  - intros Hin. destruct (Hm j d c Hin) as [Hs Hu]. split; [done|].
    intros Hc. destruct (Hu Hc) as [[= ->] Hpre]. done.
  - intros Hin. destruct (Hm j d c Hin) as [Hs Hu]. split; [done|].
    intros Hc. by destruct (Hu Hc).
Qed.

Lemma reports_mopp_at i : reports self (mopp_at self i).
Proof. apply reports_quiet. unfold mopp_at, plift. simpl. constructor. Qed.

Lemma reports_print ev : ¬ is_opcode_header ev → reports self (print ev).
Proof. intros Hev. apply reports_quiet. simpl. by repeat constructor. Qed.

Lemma reports_pret {A} (a : A) : reports self (pret a).
Proof. apply reports_quiet. constructor. Qed.

Lemma after_jump_not_header l :
  Forall is_after_jump l → Forall (λ ev, ¬ is_opcode_header ev) l.
Proof. intros Hl. eapply Forall_impl; [exact Hl|].
  intros ev Hev Hh. by destruct ev.
Qed.

(** The arm for an unrecognized opcode, with the header printed before it. *)
Lemma reports_unknown i depth code :
  i < moppDataSize self → moppData self !! i = Some code →
  reports self (print (PrOpcode i depth code);; unknown_opcode self i code).
Proof.
  intros Hi Hcode j d c. rewrite pbind_print.
  destruct (unknown_opcode_ok self Hsize i code Hi) as (l & Hl & Hfa).
  pose proof (after_jump_not_header _ Hfa) as Hnh.
  unfold reports. cbn [fst snd]. rewrite Hl. cbn [fst snd].
  intros Hin. apply elem_of_cons in Hin as [Heq|Hin].
  - injection Heq as -> -> ->. split; [done|]. intros _. split; [done|].
    exists []. unfold report. by rewrite Hl.
  - exfalso. repeat (apply elem_of_cons in Hin as [Heq|Hin]; [done|]).
    rewrite Forall_forall in Hnh. by apply (Hnh _ Hin).
Qed.

(** A recognized opcode: the header is harmless, the arm decides. *)
Lemma reports_header {A} i depth code (arm : printing A) :
  i < moppDataSize self → moppData self !! i = Some code →
  opcode_kind_of code ≠ Unknown →
  reports self arm → reports self (print (PrOpcode i depth code);; arm).
Proof.
  intros Hi Hcode Hk Harm j d c. rewrite pbind_print. cbn [fst snd].
  intros Hin. apply elem_of_cons in Hin as [Heq|Hin].
  - injection Heq as -> -> ->. split; [done|]. by intros ?.
  - destruct (Harm j d c Hin) as [Hs Hu]. split; [done|].
    intros Hc. destruct (Hu Hc) as (-> & pre & ->). split; [done|].
    by exists (PrOpcode i depth code :: pre).
Qed.

Lemma reports_parseMopp_loop fuel depth i toffset ids tris :
  reports self (parseMopp_loop self fuel depth i toffset ids tris).
Proof.
  revert depth i toffset ids tris.
  induction fuel as [|fuel IH]; intros depth i toffset ids tris.
  { apply reports_quiet. constructor. }
  cbn [parseMopp_loop].
  destruct (i <? moppDataSize self) eqn:Hi; cbn [negb]; [|apply reports_pret].
  apply Nat.ltb_lt in Hi.
  destruct (mopp_at_cases self i) as [(code & Hcode & ->)| ->];
    [rewrite pbind_pret|by apply reports_quiet; constructor].
  destruct (opcode_kind_of code) eqn:Hk;
    try (apply reports_header; [done|done|congruence|]);
    [..|by apply reports_unknown];
    repeat first
      [ apply IH
      | apply reports_pret
      | apply reports_bind;
        [first [apply reports_mopp_at | apply IH
               | apply reports_print; simpl; tauto ] | intros ? _] ].
Qed.

Lemma reports_parseMopp start depth toffset :
  reports self (parseMopp self start depth toffset).
Proof. apply reports_parseMopp_loop. Qed.

(** The cursor itself on an unrecognized opcode. *)
Lemma parseMopp_unknown_at_start start depth toffset code :
  start < moppDataSize self → moppData self !! start = Some code →
  opcode_kind_of code = Unknown →
  parseMopp self start depth toffset
  = (report self start depth code, Raised (ValueError (unknown_message code))).
Proof.
  intros Hi Hcode Hk. unfold parseMopp. cbn [parseMopp_loop].
  apply Nat.ltb_lt in Hi as Hi'. rewrite Hi'. cbn [negb].
  rewrite (mopp_at_Some _ _ _ Hcode), pbind_pret, Hk, pbind_print.
  destruct (unknown_opcode_ok self Hsize start code Hi) as (l & Hl & Hfa).
  unfold report. by rewrite Hl.
Qed.
End reports.

Lemma opcode_kind_compact k : k < 32 → opcode_kind_of (0x30 + k) = TriangleCompact.
Proof. intros Hk. do 32 (destruct k as [|k]; [reflexivity|]). lia. Qed.

Lemma opcode_kind_two_args code :
  code ∈ [0x10; 0x11; 0x12; 0x13; 0x14; 0x15; 0x16; 0x17; 0x18; 0x19; 0x1A; 0x1C] →
  opcode_kind_of code = BranchTwoArgs.
Proof.
  intros H. repeat (apply elem_of_cons in H as [->|H]; [reflexivity|]).
  by apply elem_of_nil in H.
Qed.

Lemma opcode_kind_one_arg code :
  code ∈ [0x20; 0x21; 0x22] → opcode_kind_of code = BranchOneArg.
Proof.
  intros H. repeat (apply elem_of_cons in H as [->|H]; [reflexivity|]).
  by apply elem_of_nil in H.
Qed.

Lemma opcode_kind_short code :
  code ∈ [0x23; 0x24; 0x25] → opcode_kind_of code = BranchShort.
Proof.
  intros H. repeat (apply elem_of_cons in H as [->|H]; [reflexivity|]).
  by apply elem_of_nil in H.
Qed.

Lemma opcode_kind_bound code :
  code ∈ [0x26; 0x27; 0x28] → opcode_kind_of code = Bound.
Proof.
  intros H. repeat (apply elem_of_cons in H as [->|H]; [reflexivity|]).
  by apply elem_of_nil in H.
Qed.

Lemma opcode_kind_bound_xyz code :
  code ∈ [0x01; 0x02; 0x03; 0x04] → opcode_kind_of code = BoundXYZ.
Proof.
  intros H. repeat (apply elem_of_cons in H as [->|H]; [reflexivity|]).
  by apply elem_of_nil in H.
Qed.

Lemma family_is_byte code (l : list nat) :
  code ∈ l → Forall is_byte l → is_byte code.
Proof. intros Hin Hl. rewrite Forall_forall in Hl. by apply Hl. Qed.

Ltac bytes_step :=
  first [ assumption
        | apply Forall_nil_2
        | apply Forall_app_2
        | apply Forall_cons_2
        | match goal with
          | H : ?c ∈ _ |- is_byte ?c => apply (family_is_byte _ _ H)
          | |- is_byte (_ mod 256) => by apply Nat.mod_upper_bound
          | |- is_byte _ => unfold is_byte; lia
          end ].

Lemma assemble_form_bytes f : form_ok f → Forall is_byte (assemble_form f).
Proof.
  destruct f as [a|a b|a b c d|skipped|skipped|code a b|code a b c]; simpl;
    intros Hok; repeat (destruct Hok as [? Hok]); repeat bytes_step.
Qed.

Lemma assemble_bytes t : tree_ok t → Forall is_byte (assemble t).
Proof.
  induction t as [k|a|a b|a b c d|code a b t1 IH1 t2 IH2|code a t1 IH1 t2 IH2
                 |code a b t1 IH1 t2 IH2|f t IH]; simpl;
    intros Hok; repeat (destruct Hok as [? Hok]);
    repeat first [ bytes_step | by apply assemble_form_bytes | by auto ].
Qed.

Lemma yields_bind {A B} (m : printing A) (f : A → printing B) a b :
  yields m a → yields (f a) b → yields (mbind f m) b.
Proof.
  intros [l1 ->] [l2 Hf]. exists (l1 ++ l2).
  rewrite pbind_eq. simpl. by rewrite Hf.
Qed.

Lemma yields_pret {A} (a : A) : yields (pret a) a.
Proof. by exists []. Qed.

Lemma yields_print ev : yields (print ev) tt.
Proof. by exists [ev]. Qed.

Lemma yields_mopp_at self i b :
  moppData self !! i = Some b → yields (mopp_at self i) b.
Proof. intros H. rewrite (mopp_at_Some _ _ _ H). apply yields_pret. Qed.

Lemma layout_lookup {A} (pre bs post : list A) k :
  k < length bs → (pre ++ bs ++ post) !! (length pre + k) = bs !! k.
Proof.
  intros Hk. rewrite lookup_app_r by lia.
  replace (length pre + k - length pre) with k by lia.
  by rewrite lookup_app_l.
Qed.

Lemma layout_lookup_0 {A} (pre bs post : list A) :
  0 < length bs → (pre ++ bs ++ post) !! (length pre) = bs !! 0.
Proof.
  intros Hk. rewrite <- (layout_lookup pre bs post 0 Hk). f_equal. lia.
Qed.

Lemma short_displacement n : n / 256 * 256 + n mod 256 = n.
Proof. pose proof (Nat.div_mod_eq n 256). lia. Qed.

Section decode_tree.
Variable self : bhkMoppBvTreeShape.

(** Reads inside the laid-out bytes. *)
Ltac read_layout Hdata :=
  rewrite Hdata;
  first [ rewrite layout_lookup by (simpl; rewrite ?length_app; simpl; lia)
        | rewrite layout_lookup_0 by (simpl; rewrite ?length_app; simpl; lia) ];
  reflexivity.

Ltac run Hdata :=
  repeat first
    [ apply yields_pret
    | eapply yields_bind;
      [ first [ apply yields_print
              | apply yields_mopp_at; read_layout Hdata ] | cbn beta ] ].

Ltac enter fuel Hfuel Hsize :=
  destruct fuel as [|fuel]; [lia|];
  cbn [parseMopp_loop];
  rewrite (proj2 (Nat.ltb_lt _ _)) by (simpl in Hsize; lia);
  cbn [negb].

(** The straight-line forms: the loop goes on after the form, with the
    form's offsets listed and its effect on the triangle offset. *)
Lemma parseMopp_loop_form f pre rest fuel depth toffset ids tris out :
  form_ok f →
  moppData self = pre ++ assemble_form f ++ rest →
  length pre + length (assemble_form f) ≤ moppDataSize self →
  moppDataSize self - length pre < fuel →
  (∀ fuel', moppDataSize self - (length pre + length (assemble_form f)) < fuel' →
     yields (parseMopp_loop self fuel' depth
               (length pre + length (assemble_form f))
               (form_toffset f toffset) (ids ++ form_ids f (length pre)) tris) out) →
  yields (parseMopp_loop self fuel depth (length pre) toffset ids tris) out.
Proof.
  intros Hok Hdata Hsize Hfuel Hnext.
  destruct f as [a|a b|a b c d|skipped|skipped|code a b|code a b c];
    cbn [assemble_form form_toffset form_ids] in *;
    cbn [length app] in Hsize, Hnext.
  - enter fuel Hfuel Hsize. run Hdata. apply Hnext. lia.
  - enter fuel Hfuel Hsize. run Hdata. apply Hnext. lia.
  - enter fuel Hfuel Hsize. run Hdata. apply Hnext. lia.
  - enter fuel Hfuel Hsize. run Hdata.
    replace (length pre + (2 + length skipped))
      with (length pre + S (S (length skipped))) by lia.
    apply Hnext. lia.
  - enter fuel Hfuel Hsize. run Hdata.
    rewrite short_displacement.
    replace (length pre + (3 + length skipped))
      with (length pre + S (S (S (length skipped)))) by lia.
    apply Hnext. lia.
  - destruct Hok as (Hc & _). enter fuel Hfuel Hsize. run Hdata.
    rewrite (opcode_kind_bound _ Hc). run Hdata.
    apply Hnext. lia.
  - destruct Hok as (Hc & _). enter fuel Hfuel Hsize. run Hdata.
    rewrite (opcode_kind_bound_xyz _ Hc). run Hdata.
    apply Hnext. lia.
Qed.

(** A well-formed tree laid out at the cursor decodes to its triangles. *)
Lemma parseMopp_loop_assemble t :
  tree_ok t →
  ∀ pre post fuel depth toffset ids tris,
    moppData self = pre ++ assemble t ++ post →
    length pre + length (assemble t) ≤ moppDataSize self →
    moppDataSize self - length pre < fuel →
    yields (parseMopp_loop self fuel depth (length pre) toffset ids tris)
           (ids ++ tree_ids t (length pre), tris ++ tree_triangles t toffset).
Proof.
  induction t as [k|a|a b|a b c d|code a b t1 IH1 t2 IH2|code a t1 IH1 t2 IH2
                 |code a b t1 IH1 t2 IH2|f t IH];
    intros Hok pre post fuel depth toffset ids tris Hdata Hsize Hfuel;
    cbn [assemble tree_ok tree_ids tree_triangles] in *.
  - enter fuel Hfuel Hsize. run Hdata.
    rewrite (opcode_kind_compact _ Hok). run Hdata.
    replace (48 + k - 48) with k by lia. apply yields_pret.
  - enter fuel Hfuel Hsize. run Hdata.
  - enter fuel Hfuel Hsize. run Hdata.
  - enter fuel Hfuel Hsize. run Hdata.
  - destruct Hok as (Hc & _ & _ & _ & Hok1 & Hok2).
    enter fuel Hfuel Hsize. run Hdata.
    rewrite (opcode_kind_two_args _ Hc). run Hdata.
    cbn [length app] in Hsize. rewrite !length_app in Hsize.
    eapply yields_bind.
    { replace (length pre + 4)
        with (length (pre ++ [code; a; b; length (assemble t1)]))
        by (rewrite length_app; simpl; lia).
      apply (IH1 Hok1 _ (assemble t2 ++ post)).
      - rewrite Hdata. by rewrite <- !app_assoc.
      - rewrite length_app. simpl. lia.
      - rewrite length_app. simpl. lia. }
    cbn beta. run Hdata.
    eapply yields_bind.
    { replace (length pre + 4 + length (assemble t1))
        with (length (pre ++ [code; a; b; length (assemble t1)] ++ assemble t1))
        by (rewrite !length_app; simpl; lia).
      apply (IH2 Hok2 _ post).
      - rewrite Hdata. by rewrite <- !app_assoc.
      - rewrite !length_app. simpl. lia.
      - rewrite !length_app. simpl. lia. }
    cbn beta. cbn [fst snd].
    rewrite !length_app. cbn [length].
    rewrite !app_nil_l, Nat.add_assoc. apply yields_pret.
  - destruct Hok as (Hc & _ & _ & Hok1 & Hok2).
    enter fuel Hfuel Hsize. run Hdata.
    rewrite (opcode_kind_one_arg _ Hc). run Hdata.
    cbn [length app] in Hsize. rewrite !length_app in Hsize.
    eapply yields_bind.
    { replace (length pre + 3)
        with (length (pre ++ [code; a; length (assemble t1)]))
        by (rewrite length_app; simpl; lia).
      apply (IH1 Hok1 _ (assemble t2 ++ post)).
      - rewrite Hdata. by rewrite <- !app_assoc.
      - rewrite length_app. simpl. lia.
      - rewrite length_app. simpl. lia. }
    cbn beta. run Hdata.
    eapply yields_bind.
    { replace (length pre + 3 + length (assemble t1))
        with (length (pre ++ [code; a; length (assemble t1)] ++ assemble t1))
        by (rewrite !length_app; simpl; lia).
      apply (IH2 Hok2 _ post).
      - rewrite Hdata. by rewrite <- !app_assoc.
      - rewrite !length_app. simpl. lia.
      - rewrite !length_app. simpl. lia. }
    cbn beta. cbn [fst snd].
    rewrite !length_app. cbn [length].
    rewrite !app_nil_l, Nat.add_assoc. apply yields_pret.
  - destruct Hok as (Hc & _ & _ & _ & Hok1 & Hok2).
    enter fuel Hfuel Hsize. run Hdata.
    rewrite (opcode_kind_short _ Hc). run Hdata.
    cbn [length app] in Hsize. rewrite !length_app in Hsize.
    rewrite short_displacement.
    change (0 * 256 + 0) with 0. rewrite Nat.add_0_r.
    set (hd := [code; a; b; 0; 0; length (assemble t1) / 256;
                length (assemble t1) mod 256]) in *.
    eapply yields_bind.
    { replace (length pre + 7) with (length (pre ++ hd))
        by (rewrite length_app; simpl; lia).
      apply (IH1 Hok1 _ (assemble t2 ++ post)).
      - rewrite Hdata. by rewrite <- !app_assoc.
      - rewrite length_app. simpl. lia.
      - rewrite length_app. simpl. lia. }
    cbn beta. run Hdata.
    eapply yields_bind.
    { replace (length pre + 7 + length (assemble t1))
        with (length (pre ++ hd ++ assemble t1))
        by (rewrite !length_app; simpl; lia).
      apply (IH2 Hok2 _ post).
      - rewrite Hdata. by rewrite <- !app_assoc.
      - rewrite !length_app. simpl. lia.
      - rewrite !length_app. simpl. lia. }
    cbn beta. cbn [fst snd].
    rewrite !length_app. cbn [length].
    rewrite !app_nil_l, Nat.add_assoc. apply yields_pret.
  - destruct Hok as [Hf Hok].
    rewrite length_app in Hsize.
    eapply (parseMopp_loop_form f pre (assemble t ++ post)); [done| | |done|].
    + rewrite Hdata. by rewrite <- !app_assoc.
    + lia.
    + intros fuel' Hfuel'.
      rewrite (app_assoc ids).
      replace (length pre + length (assemble_form f))
        with (length (pre ++ assemble_form f)) by (by rewrite length_app).
      apply (IH Hok _ post).
      * rewrite Hdata. by rewrite <- !app_assoc.
      * rewrite length_app. lia.
      * rewrite length_app. lia.
Qed.
End decode_tree.

Example updateMopp_three :
  moppData <$> (updateOriginScale (unit_shape 3) ≫= updateMopp)
  = Done [0x28; 0; 255; 0x27; 0; 175; 0x26; 0; 96;
          0x12; 255; 0; 1; 0x30; 0x12; 255; 0; 1; 0x31; 0x32].
Proof. vm_compute. reflexivity. Qed.

Lemma trivial_tree_assemble count maxz i mopp :
  0x30 ≤ i →
  trivial_tree count maxz i mopp = mopp ++ assemble (chain_tree count maxz i).
Proof.
  revert i mopp. induction count as [|count IH]; intros i mopp Hi;
    cbn [trivial_tree chain_tree assemble].
  - do 2 f_equal. lia.
  - cbn [length app]. replace (48 + (i - 48)) with i by lia.
    destruct (i + 1 =? 0x50) eqn:E.
    + rewrite IH by lia. cbn [assemble assemble_form].
      rewrite <- !app_assoc. reflexivity.
    + rewrite IH by lia. rewrite <- !app_assoc. reflexivity.
Qed.

Lemma chain_tree_ok count maxz i :
  0x30 ≤ i < 0x50 → maxz < 256 → tree_ok (chain_tree count maxz i).
Proof.
  revert i. induction count as [|count IH]; intros i Hi Hz; cbn [chain_tree tree_ok].
  - lia.
  - cbn [assemble length]. unfold is_byte.
    split; [unfold TESTZ; by do 2 apply list_elem_of_further; apply list_elem_of_here|].
    repeat split; [lia..|].
    destruct (i + 1 =? 0x50) eqn:E.
    + cbn [tree_ok form_ok]. unfold is_byte. split; [lia|]. apply IH; lia.
    + apply Nat.eqb_neq in E. apply IH; lia.
Qed.

Lemma chain_tree_triangles count maxz i toffset :
  0x30 ≤ i < 0x50 →
  tree_triangles (chain_tree count maxz i) toffset
  = seq (toffset + (i - 0x30)) (S count).
Proof.
  revert i toffset. induction count as [|count IH]; intros i toffset Hi;
    cbn [chain_tree tree_triangles].
  - cbn [seq]. f_equal. lia.
  - cbn [app]. change (seq (toffset + (i - 48)) (S (S count)))
      with ((toffset + (i - 48)) :: seq (S (toffset + (i - 48))) (S count)).
    f_equal; [lia|].
    destruct (i + 1 =? 0x50) eqn:E.
    + apply Nat.eqb_eq in E. cbn [tree_triangles form_toffset].
      rewrite IH by lia. f_equal. lia.
    + apply Nat.eqb_neq in E. rewrite IH by lia. f_equal. lia.
Qed.

Lemma updateMopp_Done self self' :
  updateMopp self = Done self' →
  ∃ maxx maxy maxz,
    maxx < 256 ∧ maxy < 256 ∧ maxz < 256 ∧
    self' = set_mopp self
      (trivial_tree (length (pk_triangles (shape_data self)) - 1) maxz 0x30
         ([BOUNDZ; 0; maxz] ++ [BOUNDY; 0; maxy] ++ [BOUNDX; 0; maxx])).
Proof.
  unfold updateMopp, mbind, outcome_bind.
  destruct (py_div _ _) as [q| |]; cbn [obind]; [|done..].
  destruct (quantized_bound _ _ _) as [maxx| |]; cbn [obind]; [|done..].
  destruct (quantized_bound _ _ _) as [maxy| |]; cbn [obind]; [|done..].
  destruct (quantized_bound _ _ _) as [maxz| |]; cbn [obind]; [|done..].
  destruct (lt_zero maxx || lt_zero maxy || lt_zero maxz) eqn:Hneg; [done|].
  destruct (gt_255 maxx || gt_255 maxy || gt_255 maxz) eqn:Hbig; [done|].
  destruct maxx as [x| |], maxy as [y| |], maxz as [z| |]; try done.
  cbv zeta. unfold mret, outcome_ret. intros [= <-].
  apply orb_false_iff in Hneg as [[Hx Hy]%orb_false_iff Hz].
  apply orb_false_iff in Hbig as [[Hx' Hy']%orb_false_iff Hz'].
  cbn [lt_zero gt_255] in *.
  exists (Z.to_nat x), (Z.to_nat y), (Z.to_nat z).
  repeat split; lia.
Qed.

Lemma trivial_mopp_ok maxx maxy maxz count :
  maxx < 256 → maxy < 256 → maxz < 256 → tree_ok (trivial_mopp maxx maxy maxz count).
Proof.
  intros Hx Hy Hz. unfold trivial_mopp. cbn [tree_ok form_ok].
  unfold BOUNDX, BOUNDY, BOUNDZ, is_byte.
  repeat split; try lia;
    try (by repeat first [apply list_elem_of_here | apply list_elem_of_further]).
  apply chain_tree_ok; lia.
Qed.

Lemma trivial_mopp_triangles maxx maxy maxz count toffset :
  tree_triangles (trivial_mopp maxx maxy maxz count) toffset
  = seq toffset (S count).
Proof.
  unfold trivial_mopp. cbn [tree_triangles form_toffset].
  rewrite chain_tree_triangles by lia. f_equal. lia.
Qed.

(** Decoding a whole buffer that is the layout of a well-formed tree. *)
Lemma parseMopp_assemble self t depth toffset :
  tree_ok t →
  moppData self = assemble t → moppDataSize self = length (moppData self) →
  yields (parseMopp self 0 depth toffset) (tree_ids t 0, tree_triangles t toffset).
Proof.
  intros Hok Hdata Hsize. unfold parseMopp.
  apply (parseMopp_loop_assemble self t Hok [] [] _ depth toffset [] []).
  - by rewrite Hdata, app_nil_r.
  - simpl. rewrite Hsize, Hdata. lia.
  - simpl. lia.
Qed.

Example updateOriginScale_unit_shape n :
  updateOriginScale (unit_shape n) = Done (scaled_unit_shape n).
Proof. reflexivity. Qed.


(** ** The bounds and the two range tests *)

(** [updateMopp] in terms of its three bounds. *)
Lemma updateMopp_bounds self :
  updateMopp self =
    match mopp_bounds self with
    | Done (maxx, maxy, maxz) =>
        if lt_zero maxx || lt_zero maxy || lt_zero maxz then
          Raised (ValueError "cannot update mopp tree with invalid origin")
        else if gt_255 maxx || gt_255 maxy || gt_255 maxz then
          Raised (ValueError "cannot update mopp tree with invalid scale")
        else
          match maxx, maxy, maxz with
          | Integer maxx, Integer maxy, Integer maxz =>
              Done (set_mopp self
                      (trivial_tree (length (pk_triangles (shape_data self)) - 1)
                         (Z.to_nat maxz) 0x30
                         ([BOUNDZ; 0; Z.to_nat maxz] ++ [BOUNDY; 0; Z.to_nat maxy]
                            ++ [BOUNDX; 0; Z.to_nat maxx])))
          | _, _, _ => Raised (ValueError "cannot convert float NaN to integer")
          end
    | Raised e => Raised e
    | Timeout => Timeout
    end.
Proof.
  unfold updateMopp, mopp_bounds, mbind, outcome_bind.
  destruct (py_div _ _) as [q| |]; cbn [obind]; [|done..].
  destruct (quantized_bound _ _ _) as [maxx| |]; cbn [obind]; [|done..].
  destruct (quantized_bound _ _ _) as [maxy| |]; cbn [obind]; [|done..].
  destruct (quantized_bound _ _ _) as [maxz| |]; cbn [obind]; [|done..].
  reflexivity.
Qed.

(** A float that holds an integer in 0..255 passes both tests, and only
    such a float or a nan does. *)
Lemma in_byte_range_tests c :
  in_byte_range c → lt_zero c = false ∧ gt_255 c = false.
Proof. destruct c as [n| |]; cbn; [|done..]. intros [? ?]. split; lia. Qed.

Lemma tests_in_byte_range c :
  lt_zero c = false → gt_255 c = false → c = NaN ∨ in_byte_range c.
Proof.
  destruct c as [n|[]|]; cbn; try done; [|by left]. intros ? ?. right. lia.
Qed.

(** Python's [x / y] on a divisor that is not zero. *)
Lemma py_div_Done (a b : float) : (b =? 0)%float = false → py_div a b = Done (a / b)%float.
Proof. intros Hb. unfold py_div. by rewrite Hb. Qed.


(** ** The decoder reads the byte buffer and its size, nothing else *)

Lemma pbind_ext {A B} (m1 m2 : printing A) (f g : A → printing B) :
  m1 = m2 → (∀ a, f a = g a) → mbind f m1 = mbind g m2.
Proof.
  intros -> Hfg. rewrite !pbind_eq. destruct m2 as [l [a| |]]; simpl; [|done..].
  by rewrite Hfg.
Qed.

Section parseMopp_ext.
Variables self1 self2 : bhkMoppBvTreeShape.
Hypothesis Hdata : moppData self1 = moppData self2.
Hypothesis Hsize : moppDataSize self1 = moppDataSize self2.

Lemma mopp_at_ext i : mopp_at self1 i = mopp_at self2 i.
Proof. unfold mopp_at. by rewrite Hdata. Qed.

Lemma mopp_slice_ext lo n : mopp_slice self1 lo n = mopp_slice self2 lo n.
Proof.
  revert lo. induction n as [|n IH]; intros lo; cbn [mopp_slice]; [done|].
  apply pbind_ext; [apply mopp_at_ext|]. intros b.
  apply pbind_ext; [apply IH|done].
Qed.

Lemma print_after_jumps_ext bjs :
  print_after_jumps self1 bjs = print_after_jumps self2 bjs.
Proof.
  induction bjs as [|[b j] bjs IH]; cbn [print_after_jumps]; [done|].
  rewrite Hsize. apply pbind_ext; [|done].
  case_match; [|done].
  apply pbind_ext; [apply mopp_at_ext|]. intros op.
  apply pbind_ext; [apply mopp_slice_ext|done].
Qed.

Lemma unknown_opcode_ext i code :
  unknown_opcode self1 i code = unknown_opcode self2 i code.
Proof.
  unfold unknown_opcode, mopp_range. rewrite Hsize.
  do 2 (apply pbind_ext; [done|intros _]).
  apply pbind_ext; [apply mopp_slice_ext|intros extrabytes].
  apply pbind_ext; [done|intros _].
  apply pbind_ext; [apply print_after_jumps_ext|done].
Qed.

Lemma parseMopp_loop_ext fuel depth i toffset ids tris :
  parseMopp_loop self1 fuel depth i toffset ids tris
  = parseMopp_loop self2 fuel depth i toffset ids tris.
Proof.
  revert depth i toffset ids tris.
  induction fuel as [|fuel IH]; intros depth i toffset ids tris; [done|].
  cbn [parseMopp_loop]. rewrite Hsize.
  destruct (negb (i <? moppDataSize self2)); [done|].
  apply pbind_ext; [apply mopp_at_ext|]. intros code.
  apply pbind_ext; [done|]. intros _.
  destruct (opcode_kind_of code);
    repeat first
      [ apply unknown_opcode_ext
      | apply IH
      | reflexivity
      | apply pbind_ext;
        [first [apply mopp_at_ext | apply IH | reflexivity] | intros ?] ].
Qed.

Lemma parseMopp_ext start depth toffset :
  parseMopp self1 start depth toffset = parseMopp self2 start depth toffset.
Proof. unfold parseMopp. rewrite Hsize. apply parseMopp_loop_ext. Qed.
End parseMopp_ext.


(** ** The index maps of the scan *)

Section unique_index_facts.
Context {K : Type} `{Countable K}.
Implicit Types (hashes seen : list K) (st : scan (K:=K)).

Lemma is_first_occurrence_lt hashes i :
  is_first_occurrence hashes i → i < length hashes.
Proof. intros (h & Hh & _). by eapply lookup_lt_Some. Qed.

Lemma is_first_occurrence_app_l seen h i :
  i < length seen →
  is_first_occurrence (seen ++ [h]) i ↔ is_first_occurrence seen i.
Proof.
  intros Hi. unfold is_first_occurrence.
  rewrite lookup_app_l by done. rewrite take_app_le by lia. done.
Qed.

Lemma is_first_occurrence_app_r seen h :
  is_first_occurrence (seen ++ [h]) (length seen) ↔ h ∉ seen.
Proof.
  unfold is_first_occurrence.
  rewrite take_app_length. rewrite list_lookup_middle by done.
  split; [by intros (h' & [= <-] & Hn)|]. intros Hn. by exists h.
Qed.

Lemma elem_of_first_occurrences hashes i :
  i ∈ first_occurrences hashes ↔ is_first_occurrence hashes i.
Proof.
  unfold first_occurrences. rewrite list_elem_of_filter, elem_of_seq.
  split; [by intros [? _]|]. intros Hf. split; [done|].
  apply is_first_occurrence_lt in Hf. lia.
Qed.

Lemma filter_ext_in {A} (P1 P2 : A → Prop) `{∀ x, Decision (P1 x)}
    `{∀ x, Decision (P2 x)} (l : list A) :
  (∀ x, x ∈ l → (P1 x ↔ P2 x)) → filter P1 l = filter P2 l.
Proof.
  induction l as [|x l IH]; intros Hl; [done|].
  rewrite !filter_cons.
  assert (P1 x ↔ P2 x) as Hx by (apply Hl, list_elem_of_here).
  rewrite IH by (intros y Hy; by apply Hl, list_elem_of_further).
  destruct (decide (P1 x)), (decide (P2 x)); tauto || done.
Qed.

Lemma first_occurrences_snoc seen h :
  first_occurrences (seen ++ [h])
  = first_occurrences seen ++ (if decide (h ∈ seen) then [] else [length seen]).
Proof.
  unfold first_occurrences. rewrite length_app. cbn [length].
  rewrite Nat.add_1_r, seq_S, filter_app. cbn [plus]. f_equal.
  - apply filter_ext_in. intros i Hi%elem_of_seq.
    apply is_first_occurrence_app_l. lia.
  - rewrite filter_cons, filter_nil.
    destruct (decide (h ∈ seen)) as [Hin|Hout];
      destruct (decide (is_first_occurrence (seen ++ [h]) (length seen))) as [Hf|Hf];
      try done; rewrite is_first_occurrence_app_r in Hf; done.
Qed.

Lemma first_occurrences_app seen rest :
  ∃ later, first_occurrences (seen ++ rest) = first_occurrences seen ++ later.
Proof.
  induction rest as [|h rest IH] using rev_ind.
  - exists []. by rewrite !app_nil_r.
  - destruct IH as [later IH]. rewrite app_assoc, first_occurrences_snoc, IH.
    eexists. by rewrite <- app_assoc.
Qed.

Lemma NoDup_first_occurrences hashes : NoDup (first_occurrences hashes).
Proof. apply NoDup_filter, NoDup_seq. Qed.

(** A hash has one first position. *)
Lemma is_first_occurrence_inj hashes r r' h :
  is_first_occurrence hashes r → is_first_occurrence hashes r' →
  hashes !! r = Some h → hashes !! r' = Some h → r = r'.
Proof.
  intros (h1 & Hr & Hn) (h2 & Hr' & Hn') Hh Hh'.
  rewrite Hh in Hr. rewrite Hh' in Hr'. injection Hr as <-. injection Hr' as <-.
  destruct (Nat.lt_trichotomy r r') as [Hlt|[->|Hlt]]; [|done|].
  - destruct Hn'. apply list_elem_of_lookup. exists r.
    by rewrite lookup_take_lt.
  - destruct Hn. apply list_elem_of_lookup. exists r'.
    by rewrite lookup_take_lt.
Qed.
End unique_index_facts.


Section unique_index_scan.
Context {K : Type} `{Countable K}.
Implicit Types (hashes seen : list K) (st : scan (K:=K)).

Lemma setitem_Done {A} (l : list A) i v :
  i < length l → setitem l i v = Done (<[i:=v]> l).
Proof. intros Hi. unfold setitem. by rewrite decide_True. Qed.

Lemma scan_inv_representative n seen st j r :
  scan_inv n seen st → v_map_inverse st !! j = Some r → r < length seen.
Proof.
  intros (_ & _ & Hinv & _) Hj. apply is_first_occurrence_lt.
  apply elem_of_first_occurrences. rewrite <- Hinv.
  apply list_elem_of_lookup. by exists j.
Qed.

(** One iteration keeps the invariant. *)
Lemma scan_step_inv n seen st h :
  scan_inv n seen st → length seen < n →
  ∃ st', scan_step st (length seen) h = Done st' ∧ scan_inv n (seen ++ [h]) st'.
Proof.
  intros Hst Hlt. pose proof Hst as (Hlen & Hidx & Hinv & Hk & Hv).
  unfold scan_step. destruct (k_map st !! h) as [k|] eqn:Ek.
  - (* the hash is known *)
    apply Hk in Ek as Ek'. destruct Ek' as (r & Hr & Hrh).
    assert (h ∈ seen) as Hin by (apply list_elem_of_lookup; by exists r).
    rewrite setitem_Done by lia. eexists. split; [reflexivity|].
    unfold scan_inv. cbn [v_map v_map_inverse k_map index].
    split; [by rewrite length_insert|]. split; [done|]. split.
    { rewrite first_occurrences_snoc, decide_True by done. by rewrite app_nil_r. }
    split.
    + intros h' j. rewrite Hk. split; intros (r' & Hr' & Hh').
      * exists r'. split; [done|]. by apply lookup_app_l_Some.
      * exists r'. split; [done|].
        pose proof (scan_inv_representative _ _ _ _ _ Hst Hr').
        by rewrite lookup_app_l in Hh'.
    + intros i h' Hi. apply lookup_app_Some in Hi as [Hi|[Hge Hi]].
      * destruct (Hv i h' Hi) as (j & Hj & Hkj). exists j. split; [|done].
        rewrite list_lookup_insert_ne; [done|]. apply lookup_lt_Some in Hi. lia.
      * apply list_lookup_singleton_Some in Hi as [Hi ->].
        replace i with (length seen) by lia. exists k. split; [|done].
        apply list_lookup_insert_eq. lia.
  - (* the hash is new *)
    assert (h ∉ seen) as Hout.
    { intros (i & Hi)%list_elem_of_lookup. destruct (Hv i h Hi) as (j & _ & Hj).
      congruence. }
    rewrite setitem_Done by lia. eexists. split; [reflexivity|].
    unfold scan_inv. cbn [v_map v_map_inverse k_map index].
    split; [by rewrite length_insert|].
    split; [rewrite length_app; simpl; lia|]. split.
    { rewrite first_occurrences_snoc, decide_False by done. by rewrite Hinv. }
    split.
    + intros h' j. destruct (decide (h = h')) as [<-|Hne].
      * rewrite lookup_insert_eq. split.
        -- intros [= <-]. exists (length seen). rewrite Hidx. split.
           ++ by rewrite list_lookup_middle.
           ++ by rewrite list_lookup_middle.
        -- intros (r & Hr & Hh). apply lookup_app_Some in Hr as [Hr|[Hge Hr]].
           ++ pose proof (scan_inv_representative _ _ _ _ _ Hst Hr).
              rewrite lookup_app_l in Hh by done.
              destruct Hout. apply list_elem_of_lookup. by exists r.
           ++ apply list_lookup_singleton_Some in Hr as [Hr _]. f_equal. lia.
      * rewrite lookup_insert_ne by done. rewrite Hk.
        split; intros (r & Hr & Hh).
        -- exists r. split; by apply lookup_app_l_Some.
        -- apply lookup_app_Some in Hr as [Hr|[Hge Hr]].
           ++ exists r. split; [done|].
              pose proof (scan_inv_representative _ _ _ _ _ Hst Hr).
              by rewrite lookup_app_l in Hh.
           ++ apply list_lookup_singleton_Some in Hr as [_ <-].
              rewrite list_lookup_middle in Hh by done. congruence.
    + intros i h' Hi. apply lookup_app_Some in Hi as [Hi|[Hge Hi]].
      * destruct (Hv i h' Hi) as (j & Hj & Hkj). exists j.
        assert (h ≠ h') as Hne.
        { intros <-. destruct Hout. apply list_elem_of_lookup. by exists i. }
        split; [|by rewrite lookup_insert_ne].
        rewrite list_lookup_insert_ne; [done|]. apply lookup_lt_Some in Hi. lia.
      * apply list_lookup_singleton_Some in Hi as [Hi ->].
        replace i with (length seen) by lia. exists (index st).
        split; [|by rewrite lookup_insert_eq].
        apply list_lookup_insert_eq. lia.
Qed.

Lemma scan_loop_inv n seen st hashes :
  scan_inv n seen st → length seen + length hashes ≤ n →
  ∃ st', scan_loop st (length seen) hashes = Done st'
         ∧ scan_inv n (seen ++ hashes) st'.
Proof.
  revert seen st. induction hashes as [|h hashes IH]; intros seen st Hst Hlen.
  - exists st. by rewrite app_nil_r.
  - cbn [scan_loop length] in *.
    destruct (scan_step_inv n seen st h Hst) as (st1 & -> & Hst1); [lia|].
    unfold mbind, outcome_bind. cbn [obind].
    destruct (IH (seen ++ [h]) st1 Hst1) as (st' & Hloop & Hst').
    { rewrite length_app. simpl. lia. }
    rewrite length_app, Nat.add_1_r in Hloop.
    exists st'. by rewrite <- app_assoc in Hst'.
Qed.

Lemma scan_inv_init n :
  scan_inv n [] {| v_map := replicate n 0; v_map_inverse := [];
                   k_map := (∅ : gmap K nat); index := 0 |}.
Proof.
  unfold scan_inv. cbn [v_map v_map_inverse k_map index].
  split; [by rewrite length_replicate|]. split; [done|]. split; [done|].
  split.
  - intros h j. rewrite lookup_empty. split; [done|]. by intros (r & ? & ?).
  - intros i h Hi. done.
Qed.

(** The scan finishes, in the state the invariant describes. *)
Lemma remove_duplicate_vertices_inv hashes :
  ∃ st, scan_inv (length hashes) hashes st ∧
        remove_duplicate_vertices (length hashes) hashes
        = Done (v_map st, v_map_inverse st, length (v_map_inverse st)).
Proof.
  destruct (scan_loop_inv (length hashes) [] _ hashes (scan_inv_init _))
    as (st & Hloop & Hst); [simpl; lia|].
  exists st. split; [done|].
  unfold remove_duplicate_vertices. cbn [length] in Hloop. rewrite Hloop.
  unfold mbind, outcome_bind. cbn [obind]. unfold mret, outcome_ret.
  destruct Hst as (_ & -> & _). done.
Qed.

(** The new index of a first occurrence is the number of distinct hashes
    before it. *)
Lemma first_occurrences_lookup hashes i :
  is_first_occurrence hashes i →
  first_occurrences hashes !! length (first_occurrences (take i hashes)) = Some i.
Proof.
  intros (h & Hh & Hout).
  destruct (first_occurrences_app (take (S i) hashes) (drop (S i) hashes))
    as [later Hlater].
  rewrite take_drop in Hlater. rewrite Hlater.
  rewrite (take_S_r _ _ _ Hh), first_occurrences_snoc, decide_False by done.
  rewrite length_take_le by (apply lookup_lt_Some in Hh; lia).
  rewrite <- app_assoc. cbn [app]. by rewrite list_lookup_middle.
Qed.
End unique_index_scan.


Example remove_duplicate_vertices_run :
  remove_duplicate_vertices 5 [7; 3; 7; 9; 3] = Done ([0; 1; 0; 2; 1], [0; 1; 3], 3).
Proof. vm_compute. reflexivity. Qed.

Example remove_duplicate_vertices_short_map :
  remove_duplicate_vertices 2 [7; 3; 9] = Raised IndexError.
Proof. vm_compute. reflexivity. Qed.


(** ** Operands past the end of the data, and the offsets listed *)

Lemma ensures_bind {A B} (m : printing A) (f : A → printing B) P Q :
  ensures m P → (∀ a, P a → ensures (f a) Q) → ensures (mbind f m) Q.
Proof.
  unfold ensures. intros Hm Hf b. rewrite pbind_eq.
  destruct m as [l [a| |]]; simpl in *; [|done..].
  intros Hb. apply (Hf a); [by apply Hm|done].
Qed.

Lemma ensures_pret {A} (a : A) (Q : A → Prop) : Q a → ensures (pret a) Q.
Proof. intros Ha b [= <-]. done. Qed.

Lemma ensures_trivial {A} (m : printing A) : ensures m (λ _, True).
Proof. done. Qed.

Lemma ensures_print ev : ensures (print ev) (λ _, True).
Proof. done. Qed.

Lemma ensures_raised {A} (m : printing A) (Q : A → Prop) e :
  m.2 = Raised e → ensures m Q.
Proof. intros Hm a Ha. congruence. Qed.

Section parseMopp_bounds.
Variable self : bhkMoppBvTreeShape.

Lemma ensures_mopp_at i :
  ensures (mopp_at self i) (λ _, i < length (moppData self)).
Proof.
  destruct (mopp_at_cases self i) as [(b & Hb & ->)| ->].
  - apply ensures_pret. by eapply lookup_lt_Some.
  - by eapply ensures_raised.
Qed.

Lemma ensures_unknown_opcode i code Q : ensures (unknown_opcode self i code) Q.
Proof.
  unfold unknown_opcode.
  repeat (eapply ensures_bind; [apply ensures_trivial|intros ? _]).
  by eapply ensures_raised.
Qed.

Lemma Forall_within_weaken lo lo' (l : list nat) :
  lo ≤ lo' →
  Forall (λ i, lo' ≤ i < length (moppData self)) l →
  Forall (λ i, lo ≤ i < length (moppData self)) l.
Proof.
  intros Hlo Hl. eapply Forall_impl; [exact Hl|]. intros i. cbn beta. lia.
Qed.

Lemma parseMopp_loop_ids_within fuel depth i toffset ids tris lo :
  lo ≤ i → Forall (λ j, lo ≤ j < length (moppData self)) ids →
  ensures (parseMopp_loop self fuel depth i toffset ids tris) (ids_within self lo).
Proof.
  revert depth i toffset ids tris lo.
  induction fuel as [|fuel IH]; intros depth i toffset ids tris lo Hlo Hids.
  { intros a Ha. done. }
  cbn [parseMopp_loop].
  destruct (i <? moppDataSize self) eqn:Hi; cbn [negb];
    [|by apply ensures_pret].
  eapply ensures_bind; [apply ensures_mopp_at|]. cbn beta. intros code Hcode.
  eapply ensures_bind; [apply ensures_print|]. intros _ _.
  destruct (opcode_kind_of code);
    try apply ensures_unknown_opcode;
    repeat (eapply ensures_bind;
              [first [apply ensures_mopp_at | apply ensures_print]|];
            cbn beta; intros ? ?).
  all: try (apply IH; [lia|];
            apply Forall_app_2; [done|]; repeat constructor; lia).
  all: try (apply ensures_pret; unfold ids_within; cbn [fst];
            apply Forall_app_2; [done|]; repeat constructor; lia).
  all: eapply ensures_bind; [apply (IH _ _ _ _ _ lo); [lia|constructor]|];
    intros sub1 Hsub1; cbn beta;
    eapply ensures_bind; [apply ensures_print|]; intros _ _;
    eapply ensures_bind; [apply (IH _ _ _ _ _ lo); [lia|constructor]|];
    intros sub2 Hsub2; cbn beta;
    apply ensures_pret; unfold ids_within in *; cbn [fst];
    apply Forall_app_2; [done|];
    repeat (apply Forall_cons_2; [lia|]);
    apply Forall_app_2; done.
Qed.

(** A recognized opcode whose last operand lies past the end of the data. *)
Lemma parseMopp_truncated start depth toffset code n :
  start < moppDataSize self → moppData self !! start = Some code →
  operand_count (opcode_kind_of code) = Some n →
  length (moppData self) ≤ start + n →
  (parseMopp self start depth toffset).2 = Raised IndexError.
Proof.
  intros Hi Hcode Hn Hlen. unfold parseMopp. cbn [parseMopp_loop].
  apply Nat.ltb_lt in Hi as Hi'. rewrite Hi'. cbn [negb].
  rewrite (mopp_at_Some _ _ _ Hcode), pbind_pret, pbind_print. cbn [snd].
  apply lookup_lt_Some in Hcode.
  destruct (opcode_kind_of code); cbn [operand_count] in Hn;
    try discriminate Hn; injection Hn as <-; try lia;
    repeat match goal with
    | |- context [mopp_at self ?j] =>
        destruct (mopp_at_cases self j) as [(? & ? & ->)| ->];
        [rewrite pbind_pret|reflexivity]
    end.
  all: exfalso;
    repeat match goal with
    | H : moppData self !! _ = Some _ |- _ => apply lookup_lt_Some in H
    end; lia.
Qed.
End parseMopp_bounds.


(** ** What [updateMopp] writes, and the grid after [updateOriginScale] *)

Lemma length_trivial_tree count maxz i mopp :
  0x30 ≤ i < 0x50 →
  length (trivial_tree count maxz i mopp)
  = length mopp + 5 * count + 2 * ((count + (i - 0x30)) / 32) + 1.
Proof.
  revert i mopp. induction count as [|count IH]; intros i mopp Hi;
    cbn [trivial_tree].
  - rewrite length_app. cbn [length]. rewrite Nat.div_small by lia. lia.
  - destruct (i + 1 =? 0x50) eqn:E.
    + apply Nat.eqb_eq in E. rewrite IH by lia. rewrite !length_app. cbn [length].
      replace (S count + (i - 48)) with (count + 1 * 32) by lia.
      rewrite Nat.div_add by lia. rewrite Nat.sub_diag, Nat.add_0_r. lia.
    + apply Nat.eqb_neq in E. rewrite IH by lia. rewrite !length_app. cbn [length].
      replace (count + (i + 1 - 48)) with (S count + (i - 48)) by lia. lia.
Qed.

Lemma trivial_tree_bytes count maxx maxy maxz :
  maxx < 256 → maxy < 256 → maxz < 256 →
  Forall is_byte
    (trivial_tree count maxz 0x30
       ([BOUNDZ; 0; maxz] ++ [BOUNDY; 0; maxy] ++ [BOUNDX; 0; maxx])).
Proof.
  intros Hx Hy Hz. rewrite trivial_tree_assemble by lia.
  apply (assemble_bytes (trivial_mopp maxx maxy maxz count)).
  by apply trivial_mopp_ok.
Qed.

(** ** More on the scan: short maps, distinct hashes, a second scan *)

Section unique_index_more.
Context {K : Type} `{Countable K}.
Implicit Types (hashes seen : list K) (st : scan (K:=K)).

Lemma scan_loop_app st i hashes1 hashes2 :
  scan_loop st i (hashes1 ++ hashes2)
  = scan_loop st i hashes1 ≫= λ st', scan_loop st' (i + length hashes1) hashes2.
Proof.
  revert st i. induction hashes1 as [|h hashes1 IH]; intros st i; cbn [scan_loop app length].
  - unfold mbind, outcome_bind. cbn [mret outcome_ret obind]. by rewrite Nat.add_0_r.
  - unfold mbind, outcome_bind. destruct (scan_step st i h) as [st1| |]; cbn [obind]; [|done..].
    rewrite IH. unfold mbind, outcome_bind. by rewrite Nat.add_succ_r.
Qed.

Lemma setitem_Raised {A} (l : list A) i v :
  length l ≤ i → setitem l i v = Raised IndexError.
Proof. intros Hi. unfold setitem. rewrite decide_False; [done|lia]. Qed.

(** The map is too short for the hashes: the scan stops at the first index
    past it. *)
Lemma remove_duplicate_vertices_short n hashes :
  n < length hashes → remove_duplicate_vertices n hashes = Raised IndexError.
Proof.
  intros Hn. unfold remove_duplicate_vertices.
  rewrite <- (take_drop n hashes), scan_loop_app.
  destruct (scan_loop_inv n [] _ (take n hashes) (scan_inv_init _))
    as (st & Hloop & Hst).
  { rewrite length_take. simpl. lia. }
  cbn [length] in Hloop. rewrite Hloop.
  unfold mbind at 2. unfold outcome_bind. cbn [obind].
  destruct (drop n hashes) as [|h rest] eqn:Ed.
  { apply (f_equal length) in Ed. rewrite length_drop in Ed. simpl in Ed. lia. }
  cbn [scan_loop]. destruct Hst as (Hlen & _).
  assert (scan_step st (0 + length (take n hashes)) h = Raised IndexError) as ->.
  { unfold scan_step. rewrite length_take_le by lia.
    destruct (k_map st !! h); by rewrite setitem_Raised by (simpl; lia). }
  reflexivity.
Qed.

Lemma remove_duplicate_vertices_long n hashes :
  length hashes ≤ n →
  ∃ st, scan_inv n hashes st ∧
        remove_duplicate_vertices n hashes
        = Done (v_map st, v_map_inverse st, length (v_map_inverse st)).
Proof.
  intros Hn.
  destruct (scan_loop_inv n [] _ hashes (scan_inv_init _))
    as (st & Hloop & Hst); [simpl; lia|].
  exists st. split; [done|].
  unfold remove_duplicate_vertices. cbn [length] in Hloop. rewrite Hloop.
  unfold mbind, outcome_bind. cbn [obind]. unfold mret, outcome_ret.
  destruct Hst as (_ & -> & _). done.
Qed.

Lemma scan_inv_inverse n hashes st j r :
  scan_inv n hashes st → v_map_inverse st !! j = Some r → v_map st !! r = Some j.
Proof.
  intros Hst Hj. pose proof Hst as (Hlen & Hidx & Hinv & Hk & Hv).
  assert (is_first_occurrence hashes r) as Hr.
  { apply elem_of_first_occurrences. rewrite <- Hinv.
    apply list_elem_of_lookup. by exists j. }
  pose proof Hr as (h & Hh & _).
  destruct (Hv r h Hh) as (j' & Hj' & Hkj').
  apply Hk in Hkj' as (r' & Hr' & Hh').
  assert (is_first_occurrence hashes r') as Hfr'.
  { apply elem_of_first_occurrences. rewrite <- Hinv.
    apply list_elem_of_lookup. by exists j'. }
  assert (r = r') as <- by (by eapply is_first_occurrence_inj).
  assert (j = j') as <-; [|done].
  eapply NoDup_lookup; [|exact Hj|exact Hr'].
  rewrite Hinv. apply NoDup_first_occurrences.
Qed.

Lemma filter_all {A} (P : A → Prop) `{∀ x, Decision (P x)} (l : list A) :
  Forall P l → filter P l = l.
Proof.
  induction 1 as [|x l Hx Hl IH]; [done|].
  rewrite filter_cons, decide_True by done. by rewrite IH.
Qed.

Lemma first_occurrences_NoDup hashes :
  NoDup hashes → first_occurrences hashes = seq 0 (length hashes).
Proof.
  intros Hnd. unfold first_occurrences. apply filter_all.
  apply Forall_forall. intros i Hi%elem_of_seq.
  destruct (lookup_lt_is_Some_2 hashes i) as [h Hh]; [lia|].
  exists h. split; [done|].
  intros (j & Hj)%list_elem_of_lookup.
  apply lookup_take_Some in Hj as [Hj Hlt].
  pose proof (NoDup_lookup _ _ _ _ Hnd Hj Hh). lia.
Qed.

(** On hashes without duplicates both maps are the identity. *)
Lemma remove_duplicate_vertices_NoDup hashes :
  NoDup hashes →
  remove_duplicate_vertices (length hashes) hashes
  = Done (seq 0 (length hashes), seq 0 (length hashes), length hashes).
Proof.
  intros Hnd.
  destruct (remove_duplicate_vertices_inv hashes) as (st & Hst & ->).
  pose proof Hst as (Hlen & Hidx & Hinv & Hk & Hv).
  rewrite (first_occurrences_NoDup _ Hnd) in Hinv.
  rewrite Hinv, length_seq. do 3 f_equal.
  apply list_eq. intros i. destruct (decide (i < length hashes)) as [Hi|Hi].
  - rewrite lookup_seq_lt by done. cbn [plus].
    apply (scan_inv_inverse _ _ _ _ _ Hst). rewrite Hinv. by rewrite lookup_seq_lt.
  - rewrite lookup_seq_ge by lia. apply lookup_ge_None. lia.
Qed.

(** The new vertex count is the number of distinct hashes. *)
Lemma length_first_occurrences hashes :
  length (first_occurrences hashes) = size (list_to_set hashes : gset K).
Proof.
  induction hashes as [|h seen IH] using rev_ind; [done|].
  rewrite first_occurrences_snoc, length_app, IH, list_to_set_app_L.
  cbn [list_to_set]. destruct (decide (h ∈ seen)) as [Hin|Hout]; cbn [length].
  - rewrite Nat.add_0_r. f_equal.
    assert (h ∈ (list_to_set seen : gset K)) by (by apply elem_of_list_to_set).
    set_solver.
  - rewrite size_union, size_union, size_singleton, size_empty.
    + lia.
    + set_solver.
    + assert (h ∉ (list_to_set seen : gset K)) by (by rewrite elem_of_list_to_set).
      set_solver.
Qed.

Lemma length_first_occurrences_le hashes :
  length (first_occurrences hashes) ≤ length hashes.
Proof.
  unfold first_occurrences.
  etrans; [apply length_filter|]. by rewrite length_seq.
Qed.

(** The hashes found at the representatives are pairwise distinct. *)
Lemma representatives_NoDup hashes hashes' :
  length hashes' = length (first_occurrences hashes) →
  (∀ j r, first_occurrences hashes !! j = Some r → hashes' !! j = hashes !! r) →
  NoDup hashes'.
Proof.
  intros Hlen Hcopy. apply NoDup_alt. intros a b h Ha Hb.
  destruct (lookup_lt_is_Some_2 (first_occurrences hashes) a) as [ra Hra].
  { rewrite <- Hlen. by eapply lookup_lt_Some. }
  destruct (lookup_lt_is_Some_2 (first_occurrences hashes) b) as [rb Hrb].
  { rewrite <- Hlen. by eapply lookup_lt_Some. }
  rewrite (Hcopy _ _ Hra) in Ha. rewrite (Hcopy _ _ Hrb) in Hb.
  assert (ra = rb) as <-.
  { eapply is_first_occurrence_inj; [| |exact Ha|exact Hb];
      apply elem_of_first_occurrences, list_elem_of_lookup; eauto. }
  eapply NoDup_lookup; [apply (NoDup_first_occurrences hashes)|exact Hra|exact Hrb].
Qed.
End unique_index_more.


(** ** Cleaning a reference list *)

Section cleanreflist_facts.
Context {B : Type} `{EqDecision B}.
Implicit Types (reflist : list (option B)) (cleanlist : list B) (st : spell_log).

Lemma cleanreflist_loop_spec st cleanlist reflist category :
  NoDup cleanlist →
  let r := cleanreflist_loop st cleanlist reflist category in
  NoDup r.2 ∧
  (∀ b, b ∈ r.2 ↔ b ∈ cleanlist ∨ Some b ∈ reflist) ∧
  (∃ added, r.2 = cleanlist ++ added) ∧
  length r.2 ≤ length cleanlist + length reflist ∧
  length (messages r.1)
  = length (messages st) + (length cleanlist + length reflist - length r.2) ∧
  changed r.1
  = changed st || bool_decide (length r.2 < length cleanlist + length reflist).
Proof.
  revert st cleanlist. induction reflist as [|ref reflist IH];
    intros st cleanlist Hnd; cbn [cleanreflist_loop].
  - cbv zeta. cbn [fst snd length]. split; [done|]. split.
    { intros b. rewrite elem_of_nil. tauto. }
    split; [exists []; by rewrite app_nil_r|]. split; [lia|].
    split; [lia|]. rewrite bool_decide_eq_false_2 by lia. by rewrite orb_false_r.
  - destruct ref as [b|].
    + destruct (decide (b ∈ cleanlist)) as [Hin|Hout].
      * specialize (IH (set_changed (toaster_msg
                  ("removing duplicate " +:+ category +:+ " reference") st))
                  cleanlist Hnd).
        cbv zeta in *. destruct IH as (H1 & H2 & H3 & H4 & H5 & H6).
        split; [done|]. split.
        { intros b'. rewrite H2, elem_of_cons. split; [tauto|].
          intros [?|[ [= ->] |?]]; tauto. }
        split; [done|]. cbn [length]. split; [lia|].
        cbn [set_changed toaster_msg messages changed] in H5, H6.
        rewrite length_app in H5. cbn [length] in H5.
        split; [lia|]. rewrite H6. cbn [orb].
        rewrite bool_decide_eq_true_2 by lia. by rewrite orb_true_r.
      * specialize (IH st (cleanlist ++ [b])).
        cbv zeta in *. destruct IH as (H1 & H2 & H3 & H4 & H5 & H6).
        { apply NoDup_app. split; [done|]. split.
          - intros x Hx ->%list_elem_of_singleton. done.
          - apply NoDup_singleton. }
        split; [done|]. split.
        { intros b'. rewrite H2, elem_of_app, list_elem_of_singleton, elem_of_cons.
          split; [intros [[?| ->]|?]; auto|].
          intros [?|[ [= ->] |?]]; auto. }
        split.
        { destruct H3 as [added ->]. exists ([b] ++ added). by rewrite app_assoc. }
        rewrite length_app in H4, H5, H6. cbn [length] in *.
        split; [lia|]. split; [lia|]. rewrite H6. f_equal.
        apply bool_decide_ext. lia.
    + specialize (IH (set_changed (toaster_msg
                  ("removing empty " +:+ category +:+ " reference") st))
                  cleanlist Hnd).
      cbv zeta in *. destruct IH as (H1 & H2 & H3 & H4 & H5 & H6).
      split; [done|]. split.
      { intros b'. rewrite H2, elem_of_cons. split; [tauto|].
        intros [?|[ [=] |?]]; tauto. }
      split; [done|]. cbn [length]. split; [lia|].
      cbn [set_changed toaster_msg messages changed] in H5, H6.
      rewrite length_app in H5. cbn [length] in H5.
      split; [lia|]. rewrite H6. cbn [orb].
      rewrite bool_decide_eq_true_2 by lia. by rewrite orb_true_r.
Qed.

(** Nothing to remove: the list comes back as it is and the spell is left
    alone. *)
Lemma cleanreflist_loop_clean st cleanlist (blocks : list B) category :
  NoDup (cleanlist ++ blocks) →
  cleanreflist_loop st cleanlist (Some <$> blocks) category
  = (st, cleanlist ++ blocks).
Proof.
  revert cleanlist. induction blocks as [|b blocks IH]; intros cleanlist Hnd;
    cbn [fmap list_fmap cleanreflist_loop].
  - by rewrite app_nil_r.
  - rewrite decide_False.
    + fold (fmap (M:=list) (@Some B) blocks).
      rewrite IH by (by rewrite <- app_assoc). by rewrite <- app_assoc.
    + apply NoDup_app in Hnd as (_ & Hd & _). intros Hin.
      apply (Hd b Hin). apply list_elem_of_here.
Qed.
End cleanreflist_facts.


Example cleanreflist_run :
  cleanreflist {| changed := false; messages := [] |}
    [Some 4; None; Some 7; Some 4; Some 2] "child"
  = ({| changed := true;
        messages := ["removing empty child reference";
                     "removing duplicate child reference"] |},
     [4; 7; 2]).
Proof. reflexivity. Qed.


(** ** Merging duplicate branches *)

Section merge_duplicates_facts.
Context {B : Type} `{EqDecision B}.
Variable is_interchangeable : B → B → bool.
Variable is_NiProperty : B → bool.
Variable has_controller : B → bool.
Variable is_BSShaderProperty : B → bool.

Local Abbreviation loop :=
  (merge_loop is_interchangeable is_NiProperty has_controller is_BSShaderProperty).

Lemma merge_loop_excluded st branch others :
  merge_excluded is_NiProperty has_controller is_BSShaderProperty branch = true →
  loop st branch others = None.
Proof.
  unfold merge_excluded. intros Hex.
  induction others as [|o others IH]; cbn [merge_loop]; [done|].
  destruct (bool_decide (branch ≠ o) && is_interchangeable branch o); [|done].
  destruct (is_NiProperty branch && has_controller branch); [done|].
  cbn [orb] in Hex. by rewrite Hex.
Qed.

Lemma merge_loop_candidates st branch others :
  merge_excluded is_NiProperty has_controller is_BSShaderProperty branch = false →
  loop st branch others
  = match filter (λ o, branch ≠ o ∧ is_interchangeable branch o = true) others with
    | [] => None
    | o :: _ =>
        Some ({| branches := branches st;
                 merge_log := set_changed
                                (toaster_msg "removing duplicate branch" (merge_log st));
                 replaced := replaced st ++ [(branch, Some o)] |}, false)
    end.
Proof.
  unfold merge_excluded. intros Hex.
  apply orb_false_iff in Hex as [Hc Hs].
  induction others as [|o others IH]; cbn [merge_loop]; [done|].
  rewrite filter_cons.
  destruct (decide (branch ≠ o ∧ is_interchangeable branch o = true)) as [[Hne Hi]|Hn].
  - rewrite bool_decide_eq_true_2, Hi, Hc, Hs by done. done.
  - rewrite IH.
    destruct (bool_decide (branch ≠ o)) eqn:E1; [|done].
    destruct (is_interchangeable branch o) eqn:E2; [|done].
    apply bool_decide_eq_true in E1. tauto.
Qed.
End merge_duplicates_facts.


(** ** Re-pointing a strip *)

Lemma bad_indices_cons_good v_map v l k :
  v_map !! v = Some k → bad_indices v_map (v :: l) = bad_indices v_map l.
Proof.
  intros Hv. unfold bad_indices. rewrite filter_cons, decide_False; [done|].
  by rewrite Hv.
Qed.

Lemma bad_indices_cons_bad v_map v l :
  v_map !! v = None → bad_indices v_map (v :: l) = v :: bad_indices v_map l.
Proof. intros Hv. unfold bad_indices. by rewrite filter_cons, decide_True. Qed.

Lemma take_eq_le {A} n m (l k : list A) :
  m ≤ n → take n l = take n k → take m l = take m k.
Proof.
  intros Hm H. rewrite <- (Nat.min_l m n) by lia.
  rewrite <- !take_take. by rewrite H.
Qed.

(** From the second element on, the loop cannot raise. *)
Lemma remap_strip_loop_pos v_map count i strip warns :
  1 ≤ i → i + count = length strip →
  ∃ res,
    remap_strip_loop v_map count i strip warns
    = (warns ++ bad_indices v_map (drop i strip), Done res) ∧
    length res = length strip ∧
    take i res = take i strip ∧
    ∀ j cur, i ≤ j → strip !! j = Some cur →
      match v_map !! cur with
      | Some k => res !! j = Some k
      | None => res !! j = res !! (j - 1)
      end.
Proof.
  revert i strip warns. induction count as [|count IH]; intros i strip warns Hi Hlen;
    cbn [remap_strip_loop].
  - exists strip. rewrite drop_ge by lia. rewrite app_nil_r.
    split; [done|]. split; [done|]. split; [done|].
    intros j cur Hj Hcur. apply lookup_lt_Some in Hcur. lia.
  - destruct (lookup_lt_is_Some_2 strip i) as [cur Hcur]; [lia|]. rewrite Hcur.
    rewrite (drop_S _ _ _ Hcur).
    destruct (v_map !! cur) as [k|] eqn:Ek.
    + destruct (IH (S i) (<[i:=k]> strip) warns) as (res & -> & Hl & Ht & Hres);
        [lia|rewrite length_insert; lia|].
      exists res. rewrite drop_insert_lt by lia.
      rewrite (bad_indices_cons_good _ _ _ _ Ek). split; [done|].
      rewrite length_insert in Hl. split; [done|].
      assert (res !! i = Some k) as Hri.
      { rewrite <- (lookup_take_lt res (S i)) by lia. rewrite Ht.
        rewrite lookup_take_lt by lia. apply list_lookup_insert_eq. lia. }
      split.
      { rewrite <- (take_insert_ge strip i i k) by lia.
        apply (take_eq_le (S i)); [lia|done]. }
      intros j c Hj Hc. destruct (decide (j = i)) as [->|Hne].
      * rewrite Hcur in Hc. injection Hc as <-. by rewrite Ek.
      * apply (Hres j c); [lia|]. by rewrite list_lookup_insert_ne.
    + rewrite (proj2 (Nat.ltb_lt 0 i)) by lia.
      destruct (lookup_lt_is_Some_2 strip (i - 1)) as [p Hp]; [lia|]. rewrite Hp.
      destruct (IH (S i) (<[i:=p]> strip) (warns ++ [cur]))
        as (res & -> & Hl & Ht & Hres); [lia|rewrite length_insert; lia|].
      exists res. rewrite drop_insert_lt by lia.
      rewrite (bad_indices_cons_bad _ _ _ Ek). rewrite <- app_assoc.
      split; [done|].
      rewrite length_insert in Hl. split; [done|].
      assert (res !! i = Some p) as Hri.
      { rewrite <- (lookup_take_lt res (S i)) by lia. rewrite Ht.
        rewrite lookup_take_lt by lia. apply list_lookup_insert_eq. lia. }
      assert (res !! (i - 1) = Some p) as Hri'.
      { rewrite <- (lookup_take_lt res (S i)) by lia. rewrite Ht.
        rewrite lookup_take_lt by lia. rewrite list_lookup_insert_ne by lia. done. }
      split.
      { rewrite <- (take_insert_ge strip i i p) by lia.
        apply (take_eq_le (S i)); [lia|done]. }
      intros j c Hj Hc. destruct (decide (j = i)) as [->|Hne].
      * rewrite Hcur in Hc. injection Hc as <-. rewrite Ek. congruence.
      * apply (Hres j c); [lia|]. by rewrite list_lookup_insert_ne.
Qed.


Lemma remap_strip_spec v_map strip :
  length strip ≠ 1 ∨ (∃ c k, strip !! 0 = Some c ∧ v_map !! c = Some k) →
  ∃ res,
    remap_strip v_map strip = (bad_indices v_map strip, Done res) ∧
    length res = length strip ∧
    ∀ j cur, strip !! j = Some cur →
      match v_map !! cur with
      | Some k => res !! j = Some k
      | None => res !! j = if decide (j = 0) then strip !! 1 else res !! (j - 1)
      end.
Proof.
  intros Hfirst. destruct strip as [|c rest].
  { exists []. split; [done|]. split; [done|]. intros j cur Hj. by destruct j. }
  unfold remap_strip. cbn [length remap_strip_loop]. cbn [lookup list_lookup].
  destruct (v_map !! c) as [k|] eqn:Ek.
  - cbn [insert list_insert].
    destruct (remap_strip_loop_pos v_map (length rest) 1 (k :: rest) [])
      as (res & -> & Hl & Ht & Hres); [lia|cbn [length]; lia|].
    exists res. rewrite (bad_indices_cons_good _ _ _ _ Ek). split; [done|].
    split; [done|]. intros j cur Hj. destruct j as [|j].
    + injection Hj as <-. rewrite Ek.
      rewrite <- (lookup_take_lt res 1) by lia. by rewrite Ht.
    + specialize (Hres (S j) cur). cbn [lookup list_lookup] in Hres, Hj.
      specialize (Hres ltac:(lia) Hj). destruct (v_map !! cur); [done|].
      by rewrite decide_False by lia.
  - destruct rest as [|nx rest].
    { destruct Hfirst as [Hlen|(c' & k & [= <-] & Hk)]; [done|congruence]. }
    cbn [Nat.ltb Nat.leb Nat.add lookup list_lookup insert list_insert].
    destruct (remap_strip_loop_pos v_map (length (nx :: rest)) 1 (nx :: nx :: rest) ([] ++ [c]))
      as (res & -> & Hl & Ht & Hres); [lia|cbn [length]; lia|].
    exists res. rewrite (bad_indices_cons_bad _ _ _ Ek). split; [done|].
    split; [done|]. intros j cur Hj. destruct j as [|j].
    + injection Hj as <-. rewrite Ek. rewrite decide_True by done.
      rewrite <- (lookup_take_lt res 1) by lia. by rewrite Ht.
    + specialize (Hres (S j) cur). cbn [lookup list_lookup] in Hres, Hj.
      specialize (Hres ltac:(lia) Hj). destruct (v_map !! cur); [done|].
      by rewrite decide_False by lia.
Qed.

Lemma remap_triangles_Done v_map tris :
  Forall (λ tri : nat * nat * nat,
            tri.1.1 < length v_map ∧ tri.1.2 < length v_map ∧ tri.2 < length v_map) tris →
  ∃ tris', remap_triangles v_map tris = Done tris' ∧
    Forall2 (λ tri tri' : nat * nat * nat,
               v_map !! tri.1.1 = Some tri'.1.1 ∧
               v_map !! tri.1.2 = Some tri'.1.2 ∧
               v_map !! tri.2 = Some tri'.2) tris tris'.
Proof.
  induction 1 as [|[[a b] c] tris (Ha & Hb & Hc) Htris (tris' & IH & Hall)];
    cbn [remap_triangles].
  { exists []. split; [done|constructor]. }
  cbn [fst snd] in Ha, Hb, Hc.
  destruct (lookup_lt_is_Some_2 v_map a Ha) as [a' Ea].
  destruct (lookup_lt_is_Some_2 v_map b Hb) as [b' Eb].
  destruct (lookup_lt_is_Some_2 v_map c Hc) as [c' Ec].
  exists ((a', b', c') :: tris'). split.
  - rewrite IH. unfold remap_triangle, getitem. cbn [fst snd].
    by rewrite Ea, Eb, Ec.
  - constructor; [done|exact Hall].
Qed.

Lemma remap_triangles_Raised v_map tris :
  Exists (λ tri : nat * nat * nat,
            length v_map ≤ tri.1.1 ∨ length v_map ≤ tri.1.2 ∨ length v_map ≤ tri.2) tris →
  remap_triangles v_map tris = Raised IndexError.
Proof.
  induction tris as [|[[a b] c] tris IH]; intros Hex; [by apply Exists_nil in Hex|].
  cbn [remap_triangles].
  assert (∀ i, length v_map ≤ i → getitem v_map i = Raised IndexError) as Hget.
  { intros i Hi. unfold getitem. by rewrite lookup_ge_None_2. }
  assert (∀ i, getitem v_map i = Raised IndexError ∨ ∃ k, getitem v_map i = Done k) as Hcases.
  { intros i. unfold getitem. destruct (v_map !! i); eauto. }
  unfold remap_triangle. cbn [fst snd].
  destruct (Hcases a) as [Ea|[a' Ea]]; rewrite Ea; [done|].
  destruct (Hcases b) as [Eb|[b' Eb]]; rewrite Eb; [done|].
  destruct (Hcases c) as [Ec|[c' Ec]]; rewrite Ec; [done|].
  apply Exists_cons in Hex as [Hbad|Hex].
  - cbn [fst snd] in Hbad. destruct Hbad as [Hbad|[Hbad|Hbad]];
      apply Hget in Hbad; congruence.
  - cbn. rewrite (IH Hex). done.
Qed.


(** ** Copying the attributes and re-pointing the triangles *)

Lemma copy_old_loop_Done {A} (v_map_inverse : list nat) (old : list A) i count :
  i + count ≤ length v_map_inverse →
  Forall (λ r, r < length old) v_map_inverse →
  ∃ new, copy_old_loop v_map_inverse old i count = Done new ∧
    length new = count ∧
    ∀ j r, j < count → v_map_inverse !! (i + j) = Some r → new !! j = old !! r.
Proof.
  intros Hlen Hin. revert i Hlen. induction count as [|count IH]; intros i Hlen;
    cbn [copy_old_loop].
  { exists []. split; [done|]. split; [done|]. intros; lia. }
  destruct (lookup_lt_is_Some_2 v_map_inverse i) as [r Hr]; [lia|].
  assert (r < length old) as Hrlt by exact (Forall_lookup_1 _ _ _ _ Hin Hr).
  destruct (lookup_lt_is_Some_2 old r Hrlt) as [v Hv].
  destruct (IH (S i)) as (rest & Hrest & Hl & Hall); [lia|].
  exists (v :: rest). split; [|split].
  - unfold getitem. rewrite Hr. cbn. rewrite Hv. cbn. rewrite Hrest. done.
  - cbn [length]. lia.
  - intros j r' Hj Hj'. destruct j as [|j].
    + rewrite Nat.add_0_r in Hj'. cbn. congruence.
    + cbn [lookup list_lookup]. apply Hall; [lia|].
      by replace (S i + j) with (i + S j) by lia.
Qed.


Lemma scan_inv_corner_kept {K A} `{Countable K} (hashes : list K) (old new : list A)
    (st : scan (K:=K)) t t' :
  scan_inv (length hashes) hashes st →
  length old = length hashes →
  copy_old (length (v_map_inverse st)) (v_map_inverse st) old = Done new →
  v_map st !! t = Some t' →
  corner_kept hashes old new t t'.
Proof.
  intros Hst Hold Hnew Ht. pose proof Hst as (Hlen & Hidx & Hinv & Hk & Hv).
  destruct (lookup_lt_is_Some_2 hashes t) as [h Hh].
  { apply lookup_lt_Some in Ht. lia. }
  destruct (Hv t h Hh) as (j & Hj & Hkj).
  assert (j = t') as -> by congruence.
  apply Hk in Hkj as (r & Hr & Hrh).
  exists r. split; [|split; [congruence|split]].
  - apply elem_of_first_occurrences. rewrite <- Hinv.
    apply list_elem_of_lookup. by exists t'.
  - apply lookup_lt_is_Some_2. apply lookup_lt_Some in Hrh. lia.
  - destruct (copy_old_loop_Done (v_map_inverse st) old 0 (length (v_map_inverse st)))
      as (new' & Hnew' & _ & Hall); [lia| |].
    { apply Forall_lookup. intros j r' Hj'. rewrite Hold.
      by eapply scan_inv_representative. }
    unfold copy_old in Hnew. rewrite Hnew in Hnew'. injection Hnew' as <-.
    apply Hall; [by eapply lookup_lt_Some|done].
Qed.


(** ** Thinning the keys of an animation *)

Lemma lookup_app_add {A} (l1 l2 : list A) k : (l1 ++ l2) !! (length l1 + k) = l2 !! k.
Proof. rewrite lookup_app_r by lia. f_equal. lia. Qed.

Section optimize_keys_facts.
Context {Key Qv : Type} `{EqDecision Qv}.
Variable quant : Key → Qv.

Local Abbreviation thin' := (thin quant).

Lemma thin_cons2 qp k next rest :
  thin' qp (k :: next :: rest)
  = if decide (qp = quant k ∧ quant next = quant k)
    then thin' (quant k) (next :: rest)
    else k :: thin' (quant k) (next :: rest).
Proof. done. Qed.

Lemma squash_cons2 (a b : Qv) l :
  squash (a :: b :: l) = if decide (a = b) then squash (b :: l) else a :: squash (b :: l).
Proof. done. Qed.

Lemma thin_head qp k rest :
  ∃ k' o, thin' qp (k :: rest) = k' :: o ∧ quant k' = quant k.
Proof.
  revert qp k. induction rest as [|next rest IH]; intros qp k.
  { by exists k, []. }
  rewrite thin_cons2. destruct (decide _) as [[_ Heq]|_].
  - destruct (IH (quant k) next) as (k' & o & -> & Hk'). exists k', o.
    split; [done|congruence].
  - by eexists _, _.
Qed.

Lemma thin_sublist qp l : thin' qp l `sublist_of` l.
Proof.
  revert qp. induction l as [|k [|next rest] IH]; intros qp; [done..|].
  rewrite thin_cons2. destruct (decide _).
  - apply sublist_cons. apply IH.
  - apply sublist_skip. apply IH.
Qed.

Lemma thin_last qp l : last (thin' qp l) = last l.
Proof.
  revert qp. induction l as [|k [|next rest] IH]; intros qp; [done..|].
  rewrite thin_cons2. destruct (decide _).
  - rewrite IH. done.
  - destruct (thin_head (quant k) next rest) as (k' & o & Ho & _).
    specialize (IH (quant k)). rewrite Ho in *.
    rewrite last_cons_cons. rewrite IH. done.
Qed.

Lemma thin_squash qp l :
  squash (qp :: (quant <$> thin' qp l)) = squash (qp :: (quant <$> l)).
Proof.
  revert qp. induction l as [|k [|next rest] IH]; intros qp; [done..|].
  rewrite thin_cons2. destruct (decide _) as [[-> Heq]|Hne].
  - rewrite IH. rewrite (fmap_cons quant k), (squash_cons2 (quant k) (quant k)).
    by rewrite decide_True.
  - rewrite !(fmap_cons quant k), !(squash_cons2 qp (quant k)). by rewrite IH.
Qed.

Lemma thin_no_triple qp l : no_triple quant qp (thin' qp l).
Proof.
  revert qp. induction l as [|k [|next rest] IH]; intros qp; [done..|].
  rewrite thin_cons2. destruct (decide _) as [[-> Heq]|Hne]; [apply IH|].
  destruct (thin_head (quant k) next rest) as (k' & o & Ho & Hk').
  specialize (IH (quant k)). rewrite Ho in *.
  cbn [no_triple]. split; [|exact IH]. rewrite Hk'. exact Hne.
Qed.

Lemma no_triple_thin qp l : no_triple quant qp l → thin' qp l = l.
Proof.
  revert qp. induction l as [|k [|next rest] IH]; intros qp; [done..|].
  intros [Hne Hrest]. rewrite thin_cons2, decide_False by done.
  f_equal. by apply IH.
Qed.

Lemma no_triple_lookup p l i a b c :
  no_triple quant (quant p) l →
  (p :: l) !! i = Some a → (p :: l) !! S i = Some b → (p :: l) !! S (S i) = Some c →
  ¬ (quant a = quant b ∧ quant c = quant b).
Proof.
  revert p l. induction i as [|i IH]; intros p l Hl Ha Hb Hc.
  - destruct l as [|k [|next rest]]; [done..|].
    cbn in Ha, Hb, Hc. simplify_eq. by destruct Hl.
  - destruct l as [|k [|next rest]]; [done| |].
    { cbn in Hc. by destruct i. }
    apply (IH k (next :: rest)); [by destruct Hl|done..].
Qed.

(** From the second key on, the loop over numbers or strings thins. *)
Lemma optimize_scalar_loop_thin pre p rest new_keys :
  optimize_scalar_loop quant (pre ++ p :: rest) (S (length pre)) rest new_keys
  = Done (new_keys ++ thin' (quant p) rest).
Proof.
  revert pre p new_keys. induction rest as [|k rest IH]; intros pre p new_keys.
  { cbn. by rewrite app_nil_r. }
  cbn [optimize_scalar_loop Nat.eqb].
  assert ((pre ++ p :: k :: rest) !! (S (length pre) - 1) = Some p) as Hprev.
  { replace (S (length pre) - 1) with (length pre + 0) by lia.
    by rewrite lookup_app_add. }
  assert ((pre ++ p :: k :: rest) !! (S (length pre) + 1) = head rest) as Hnext.
  { replace (S (length pre) + 1) with (length pre + 2) by lia.
    rewrite lookup_app_add. by destruct rest. }
  assert (pre ++ p :: k :: rest = (pre ++ [p]) ++ k :: rest) as Hkeys
    by by rewrite <- app_assoc.
  assert (S (S (length pre)) = S (length (pre ++ [p]))) as Hidx
    by (rewrite length_app; cbn; lia).
  unfold scalar_key_kept, getitem. rewrite Hprev, Hnext.
  destruct rest as [|next rest].
  - cbn. by destruct (decide (quant p ≠ quant k)).
  - rewrite thin_cons2. cbn [head]. unfold mbind, outcome_bind, mret, outcome_ret.
    cbn [obind].
    destruct (decide (quant p ≠ quant k)) as [Hpk|Hpk].
    + rewrite Hkeys, Hidx, IH, decide_False by tauto. by rewrite <- app_assoc.
    + destruct (decide (quant next ≠ quant k)) as [Hnk|Hnk].
      * rewrite bool_decide_eq_true_2 by done.
        rewrite Hkeys, Hidx, IH, decide_False by tauto. by rewrite <- app_assoc.
      * rewrite bool_decide_eq_false_2 by done.
        rewrite Hkeys, Hidx, IH, decide_True; [done|].
        split; [by destruct (decide (quant p = quant k))
               |by destruct (decide (quant next = quant k))].
Qed.

(** From the fourth key on, the loop over vectors thins as well. *)
Lemma optimize_vector_loop_thin pre p rest tempkey new_keys :
  1 ≤ length pre →
  (∀ k rest', rest = k :: rest' →
     tempkey.1.2 = Some (quant p) ∧ tempkey.2 = Some (quant k)) →
  optimize_vector_loop quant (pre ++ p :: rest) (S (length pre)) rest tempkey new_keys
  = Done (new_keys ++ thin' (quant p) rest).
Proof.
  revert pre p tempkey new_keys.
  induction rest as [|k rest IH]; intros pre p tempkey new_keys Hpre Htemp.
  { cbn. by rewrite app_nil_r. }
  cbn [optimize_vector_loop Nat.eqb].
  destruct (Htemp k rest eq_refl) as (-> & ->).
  assert ((pre ++ p :: k :: rest) !! (S (length pre) + 1) = head rest) as Hnext.
  { replace (S (length pre) + 1) with (length pre + 2) by lia.
    rewrite lookup_app_add. by destruct rest. }
  assert (pre ++ p :: k :: rest = (pre ++ [p]) ++ k :: rest) as Hkeys
    by by rewrite <- app_assoc.
  assert (S (S (length pre)) = S (length (pre ++ [p]))) as Hidx
    by (rewrite length_app; cbn; lia).
  unfold getitem. rewrite Hnext.
  destruct rest as [|next rest]; cbn [head].
  - done.
  - rewrite thin_cons2. cbv zeta.
    assert (1 ≤ length (pre ++ [p])) as Hpre' by (rewrite length_app; cbn; lia).
    assert (∀ (a : option Qv) k' rest', next :: rest = k' :: rest' →
              snd (fst (a, Some (quant k), Some (quant next))) = Some (quant k) ∧
              snd (a, Some (quant k), Some (quant next)) = Some (quant k')) as Htemp'
      by (by intros ??? [= <- <-]).
    destruct (decide (Some (quant k) ≠ Some (quant p))) as [Hpk|Hpk].
    + rewrite Hkeys, Hidx, (IH _ _ _ _ Hpre' (Htemp' _)).
      rewrite decide_False, <- app_assoc; [done|].
      intros [Heq _]. apply Hpk. by rewrite Heq.
    + destruct (decide (Some (quant k) ≠ Some (quant next))) as [Hnk|Hnk].
      * rewrite Hkeys, Hidx, (IH _ _ _ _ Hpre' (Htemp' _)).
        rewrite decide_False, <- app_assoc; [done|].
        intros [_ Heq]. apply Hnk. by rewrite Heq.
      * rewrite Hkeys, Hidx, (IH _ _ _ _ Hpre' (Htemp' _)).
        rewrite decide_True; [done|]. split.
        -- destruct (decide (quant p = quant k)) as [|Hx]; [done|].
           exfalso. apply Hpk. congruence.
        -- destruct (decide (quant next = quant k)) as [|Hx]; [done|].
           exfalso. apply Hnk. congruence.
Qed.

Lemma optimize_keys_scalar_thin kind keys :
  kind = KScalar ∨ kind = KWord →
  optimize_keys quant kind keys
  = Done (match keys with [] => [] | k :: rest => k :: thin' (quant k) rest end).
Proof.
  intros Hkind. unfold optimize_keys.
  destruct (length keys <? 3) eqn:Hlen.
  - apply Nat.ltb_lt in Hlen. destruct keys as [|k0 [|k1 [|k2 rest]]]; [done..|].
    cbn in Hlen. lia.
  - destruct keys as [|k rest]; [done|].
    assert (optimize_scalar_loop quant (k :: rest) 0 (k :: rest) []
            = Done (k :: thin' (quant k) rest)) as Hloop.
    { cbn [optimize_scalar_loop Nat.eqb app].
      apply (optimize_scalar_loop_thin [] k rest [k]). }
    by destruct Hkind as [-> | ->].
Qed.
Lemma optimize_keys_vector_thin kind k0 k1 k2 rest :
  kind = KVector4 ∨ kind = KVector3 →
  optimize_keys quant kind (k0 :: k1 :: k2 :: rest)
  = Done (k0 :: (if decide (quant k1 = quant k2) then [] else [k1]) ++
                match rest with
                | [] => [k2]
                | k3 :: _ =>
                    (if decide (quant k2 = quant k3) then [] else [k2]) ++
                    thin' (quant k2) rest
                end).
Proof.
  intros Hkind.
  assert (optimize_vector_loop quant (k0 :: k1 :: k2 :: rest) 0 (k0 :: k1 :: k2 :: rest)
            (Some (quant k0), Some (quant k1), Some (quant k2)) []
          = Done (k0 :: (if decide (quant k1 = quant k2) then [] else [k1]) ++
                        match rest with
                        | [] => [k2]
                        | k3 :: _ =>
                            (if decide (quant k2 = quant k3) then [] else [k2]) ++
                            thin' (quant k2) rest
                        end)) as Hloop.
  { assert (∀ tempkey0 acc,
              optimize_vector_loop quant (k0 :: k1 :: k2 :: rest) 2 (k2 :: rest)
                (tempkey0, Some (quant k2), Some (quant k2)) acc
              = Done (acc ++ match rest with
                             | [] => [k2]
                             | k3 :: _ =>
                                 (if decide (quant k2 = quant k3) then [] else [k2]) ++
                                 thin' (quant k2) rest
                             end)) as Hsecond.
    { intros tempkey0 acc. cbn [optimize_vector_loop Nat.eqb fst snd].
      destruct rest as [|k3 rest]; [done|].
      change (getitem (k0 :: k1 :: k2 :: k3 :: rest) (2 + 1)) with (Done (A:=Key) k3).
      cbv zeta.
      destruct (decide (Some (quant k2) ≠ Some (quant k2))) as [Hn|_]; [done|].
      pose proof (optimize_vector_loop_thin [k0; k1] k2 (k3 :: rest)) as Hthin.
      cbn [length app] in Hthin.
      destruct (decide (Some (quant k2) ≠ Some (quant k3))) as [Hn|Hn];
        destruct (decide (quant k2 = quant k3)) as [Heq|Hne].
      - exfalso. apply Hn. by rewrite Heq.
      - rewrite Hthin; [by rewrite <- app_assoc|lia|by intros ?? [= <- <-]].
      - rewrite Hthin; [done|lia|by intros ?? [= <- <-]].
      - exfalso. apply Hn. congruence. }
    assert (∀ tail,
              optimize_vector_loop quant (k0 :: k1 :: k2 :: rest) 0 (k0 :: k1 :: tail)
                (Some (quant k0), Some (quant k1), Some (quant k2)) []
              = optimize_vector_loop quant (k0 :: k1 :: k2 :: rest) 2 tail
                  (Some (quant k1), Some (quant k2), Some (quant k2))
                  (k0 :: if decide (quant k1 = quant k2) then [] else [k1])) as Hfirst.
    { intros tail. cbn [optimize_vector_loop Nat.eqb app fst snd].
      change (getitem (k0 :: k1 :: k2 :: rest) (1 + 1)) with (Done (A:=Key) k2).
      cbv zeta.
      destruct (decide (Some (quant k2) ≠ Some (quant k1))) as [Hn|Hn];
        destruct (decide (quant k1 = quant k2)) as [Heq|Hne].
      - exfalso. apply Hn. by rewrite Heq.
      - done.
      - by destruct (decide (Some (quant k2) ≠ Some (quant k2))).
      - exfalso. apply Hn. congruence. }
    rewrite Hfirst, Hsecond. done. }
  unfold optimize_keys. cbn [length Nat.ltb Nat.leb].
  by destruct Hkind as [-> | ->].
Qed.

Lemma squash_head (a : Qv) l : ∃ s, squash (a :: l) = a :: s.
Proof.
  revert a. induction l as [|b l IH]; intros a; [by exists []|].
  rewrite squash_cons2. destruct (decide (a = b)) as [->|_]; [apply IH|by eexists].
Qed.

Lemma squash_cons_ext (a : Qv) l1 l2 :
  squash l1 = squash l2 → squash (a :: l1) = squash (a :: l2).
Proof.
  intros Heq. destruct l1 as [|b1 l1], l2 as [|b2 l2]; [done| | |].
  - destruct (squash_head b2 l2) as [s Hs]. by rewrite Hs in Heq.
  - destruct (squash_head b1 l1) as [s Hs]. by rewrite Hs in Heq.
  - destruct (squash_head b1 l1) as [s1 Hs1], (squash_head b2 l2) as [s2 Hs2].
    assert (b1 = b2) as <- by congruence.
    rewrite !squash_cons2. by rewrite Heq.
Qed.

Lemma squash_dup (a : Qv) l : squash (a :: a :: l) = squash (a :: l).
Proof. rewrite squash_cons2. by rewrite decide_True. Qed.

Lemma thin_sublist_cons k rest :
  k :: thin' (quant k) rest `sublist_of` k :: rest.
Proof. apply sublist_skip, thin_sublist. Qed.

Lemma last_cons_thin k rest : last (k :: thin' (quant k) rest) = last (k :: rest).
Proof. rewrite !(last_cons k), thin_last. done. Qed.

(** The keys kept from the third key on by the loops over vectors. *)
Lemma vector_tail_facts k2 rest :
  let tail := match rest with
              | [] => [k2]
              | k3 :: _ =>
                  (if decide (quant k2 = quant k3) then [] else [k2]) ++
                  thin' (quant k2) rest
              end in
  tail `sublist_of` k2 :: rest ∧
  last tail = last (k2 :: rest) ∧
  is_Some (last tail) ∧
  squash (quant <$> tail) = squash (quant k2 :: (quant <$> rest)).
Proof.
  destruct rest as [|k3 rest]; cbv zeta.
  { split; [done|]. split; [done|]. split; [by eexists|done]. }
  destruct (thin_head (quant k2) k3 rest) as (k' & o & Ho & Hk').
  pose proof (thin_sublist (quant k2) (k3 :: rest)) as Hsub.
  pose proof (thin_last (quant k2) (k3 :: rest)) as Hlast.
  pose proof (thin_squash (quant k2) (k3 :: rest)) as Hsq.
  rewrite last_cons_cons.
  destruct (decide (quant k2 = quant k3)) as [Heq|Hne]; cbn [app].
  - split; [by apply sublist_cons|]. split; [done|]. split.
    { rewrite Hlast, last_cons. destruct (last rest); by eexists. }
    rewrite <- Hsq. rewrite Ho. rewrite !fmap_cons, Hk', <- Heq.
    by rewrite squash_dup.
  - split; [by apply sublist_skip|]. rewrite Ho in *.
    rewrite last_cons_cons, Hlast. split; [done|]. split; [|done].
    rewrite last_cons. destruct (last rest); by eexists.
Qed.

End optimize_keys_facts.


(** ** The subshape counts after the vertices of a collision shape are merged *)

Lemma count_below_spec fuel l b new_i num :
  new_i ≤ length l → length l < fuel + new_i →
  ∃ k,
    count_below fuel l b new_i num = Done (new_i + k, num + k) ∧
    new_i + k ≤ length l ∧
    (∀ j v, new_i ≤ j < new_i + k → l !! j = Some v → (Z.of_nat v < b)%Z) ∧
    (∀ v, l !! (new_i + k) = Some v → ¬ (Z.of_nat v < b)%Z).
Proof.
  revert new_i num. induction fuel as [|fuel IH]; intros new_i num Hlen Hfuel; [lia|].
  cbn [count_below]. unfold getitem. destruct (l !! new_i) as [v|] eqn:Ev.
  - destruct (Z.ltb_spec (Z.of_nat v) b) as [Hlt|Hge].
    + apply lookup_lt_Some in Ev as Hv.
      destruct (IH (new_i + 1) (num + 1)) as (k & -> & Hk & Hbelow & Hstop); [lia..|].
      exists (S k). split; [f_equal; f_equal; lia|].
      split; [lia|]. split.
      * intros j w Hj Hw. destruct (decide (j = new_i)) as [->|Hne].
        -- congruence.
        -- apply (Hbelow j w); [lia|done].
      * intros w Hw. apply Hstop. by replace (new_i + 1 + k) with (new_i + S k) by lia.
    + exists 0. rewrite !Nat.add_0_r. split; [done|]. split; [done|]. split.
      * intros; lia.
      * intros w Hw. assert (w = v) as -> by congruence. lia.
  - exists 0. rewrite !Nat.add_0_r. split; [done|]. split; [done|]. split.
    + intros; lia.
    + intros w Hw. congruence.
Qed.

Lemma fix_counts_loop_spec l sub_shapes b new_i :
  new_i ≤ length l →
  (∀ j v, j < new_i → l !! j = Some v → (Z.of_nat v < b)%Z) →
  ∃ counts,
    fix_counts_loop l sub_shapes b new_i = Done counts ∧
    length counts = length sub_shapes ∧
    ∀ s, s < length sub_shapes →
      let k := new_i + sum_list (take (S s) counts) in
      let b' := (b + Z.of_nat (sum_list (take (S s) sub_shapes)))%Z in
      k ≤ length l ∧
      (∀ j v, j < k → l !! j = Some v → (Z.of_nat v < b')%Z) ∧
      (∀ v, l !! k = Some v → ¬ (Z.of_nat v < b')%Z).
Proof.
  revert b new_i. induction sub_shapes as [|num sub_shapes IH]; intros b new_i Hlen Hpre.
  { exists []. split; [done|]. split; [done|]. cbn. intros; lia. }
  cbn [fix_counts_loop].
  destruct (count_below_spec (S (length l)) l (b + Z.of_nat num) new_i 0)
    as (k & Hrun & Hk & Hbelow & Hstop); [lia..|].
  rewrite Hrun. cbn [fst snd Nat.add].
  assert (∀ j v, j < new_i + k → l !! j = Some v → (Z.of_nat v < b + Z.of_nat num)%Z)
    as Hpre'.
  { intros j v Hj Hv. destruct (decide (j < new_i)) as [Hlt|Hge].
    - specialize (Hpre j v Hlt Hv). lia.
    - apply (Hbelow j v); [lia|done]. }
  destruct (IH (b + Z.of_nat num)%Z (new_i + k)) as (counts & Hcounts & Hl & Hall);
    [exact Hk|exact Hpre'|].
  exists (k :: counts). split.
  { unfold mbind, outcome_bind, mret, outcome_ret. cbn [obind fst snd].
    rewrite Hcounts. done. }
  split; [cbn [length]; lia|].
  intros s Hs. destruct s as [|s].
  - cbn [take sum_list sum_list_with]. rewrite !Nat.add_0_r.
    split; [exact Hk|]. split; [exact Hpre'|exact Hstop].
  - cbn [length] in Hs. specialize (Hall s ltac:(lia)). cbv zeta in Hall.
    change (take (S (S s)) (k :: counts)) with (k :: take (S s) counts).
    change (take (S (S s)) (num :: sub_shapes)) with (num :: take (S s) sub_shapes).
    change (sum_list (k :: take (S s) counts)) with (k + sum_list (take (S s) counts)).
    change (sum_list (num :: take (S s) sub_shapes))
      with (num + sum_list (take (S s) sub_shapes)).
    rewrite Nat.add_assoc, Nat2Z.inj_add, Z.add_assoc.
    exact Hall.
Qed.


Lemma StronglySorted_lookup_lt (l : list nat) i j a b :
  StronglySorted lt l → i < j → l !! i = Some a → l !! j = Some b → a < b.
Proof.
  intros Hsorted Hij Ha Hb. rewrite <- (take_drop j l) in Hsorted.
  eapply (StronglySorted_app_1_elem_of lt); [exact Hsorted| |].
  - apply list_elem_of_lookup. exists i. by rewrite lookup_take_lt.
  - apply list_elem_of_lookup. exists 0. by rewrite lookup_drop, Nat.add_0_r.
Qed.

Lemma fix_counts_loop_total l sub_shapes :
  sub_shapes ≠ [] →
  StronglySorted lt l →
  Forall (λ v, v < sum_list sub_shapes) l →
  ∃ counts,
    fix_counts_loop l sub_shapes (-1) 0 = Done counts ∧
    length counts = length sub_shapes ∧
    ((∀ v, v ∈ l → v + 1 ≠ sum_list sub_shapes) → sum_list counts = length l) ∧
    ((∃ v, v ∈ l ∧ v + 1 = sum_list sub_shapes) → sum_list counts + 1 = length l).
Proof.
  intros Hne Hsorted Hbound.
  destruct (fix_counts_loop_spec l sub_shapes (-1) 0) as (counts & Hrun & Hlen & Hall);
    [lia|intros; lia|].
  exists counts. split; [done|]. split; [done|].
  assert (0 < length sub_shapes) as Hpos by (destruct sub_shapes; [done|cbn; lia]).
  specialize (Hall (length sub_shapes - 1) ltac:(lia)). cbv zeta in Hall.
  replace (S (length sub_shapes - 1)) with (length sub_shapes) in Hall by lia.
  rewrite (take_ge counts), (take_ge sub_shapes) in Hall by lia.
  cbn [Nat.add] in Hall. destruct Hall as (Hk & Hbelow & Hstop).
  set (k := sum_list counts) in *. set (n := sum_list sub_shapes) in *.
  split.
  - intros Hnone. destruct (decide (k < length l)) as [Hlt|]; [|lia].
    destruct (lookup_lt_is_Some_2 l k Hlt) as [v Hv].
    pose proof (Forall_lookup_1 _ _ _ _ Hbound Hv) as Hvn. cbn in Hvn.
    specialize (Hstop v Hv). exfalso. apply (Hnone v); [|lia].
    apply list_elem_of_lookup. by exists k.
  - intros (v & Hin & Hv). apply list_elem_of_lookup in Hin as [p Hp].
    assert (k ≤ p) as Hkp.
    { destruct (decide (k ≤ p)) as [|Hn]; [done|].
      specialize (Hbelow p v ltac:(lia) Hp). lia. }
    assert (p = k) as ->.
    { destruct (decide (p = k)) as [|Hn]; [done|].
      destruct (lookup_lt_is_Some_2 l k) as [w Hw].
      { apply lookup_lt_Some in Hp. lia. }
      pose proof (StronglySorted_lookup_lt l k p w v Hsorted ltac:(lia) Hw Hp).
      specialize (Hstop w Hw). lia. }
    destruct (decide (S k < length l)) as [Hlt|].
    + destruct (lookup_lt_is_Some_2 l (S k) Hlt) as [w Hw].
      pose proof (StronglySorted_lookup_lt l k (S k) v w Hsorted ltac:(lia) Hp Hw).
      pose proof (Forall_lookup_1 _ _ _ _ Hbound Hw) as Hwn. cbn in Hwn. lia.
    + apply lookup_lt_Some in Hp. lia.
Qed.


(** ** Comparing two geometries *)

Section isequalTriGeomData_facts.
Context {C A K : Type} `{EqDecision A} `{EqDecision K}.

Lemma attributes_equal_sym names (s1 s2 : TriGeomData (C:=C) (A:=A) (K:=K)) :
  attributes_equal names s1 s2 = attributes_equal names s2 s1.
Proof.
  induction names as [|a names IH]; [done|]. cbn [attributes_equal].
  rewrite IH. repeat case_decide; congruence.
Qed.

Lemma attributes_equal_true names (s1 s2 : TriGeomData (C:=C) (A:=A) (K:=K)) :
  attributes_equal names s1 s2 = true ↔
  ∀ a, a ∈ names → tg_getattr s1 a = tg_getattr s2 a.
Proof.
  induction names as [|a names IH]; cbn [attributes_equal].
  { split; [|done]. intros _ a Ha. by apply elem_of_nil in Ha. }
  case_decide as Hne.
  - split; [done|]. intros Hall. exfalso. apply Hne, Hall, list_elem_of_here.
  - rewrite IH. split.
    + intros Hall b Hb. apply elem_of_cons in Hb as [->|Hb]; [|by apply Hall].
      by destruct (decide (tg_getattr s1 a = tg_getattr s2 a)).
    + intros Hall b Hb. apply Hall. by apply list_elem_of_further.
Qed.

Lemma all_in_true {X} `{EqDecision X} (l1 l2 : list X) :
  all_in l1 l2 = true ↔ ∀ x, x ∈ l1 → x ∈ l2.
Proof.
  induction l1 as [|x l1 IH]; cbn [all_in].
  { split; [|done]. intros _ x Hx. by apply elem_of_nil in Hx. }
  case_decide as Hin.
  - rewrite IH. split.
    + intros Hall y Hy. apply elem_of_cons in Hy as [->|Hy]; [done|by apply Hall].
    + intros Hall y Hy. apply Hall. by apply list_elem_of_further.
  - split; [done|]. intros Hall. exfalso. apply Hin, Hall, list_elem_of_here.
Qed.

Lemma hashed_triangles_cases (verthashes : list K) triangles :
  hashed_triangles verthashes triangles = Raised IndexError ∨
  ∃ l, hashed_triangles verthashes triangles = Done l.
Proof.
  induction triangles as [|[[a b] c] triangles IH]; [right; by eexists|].
  cbn [hashed_triangles fst snd]. unfold getitem.
  destruct (verthashes !! a); [|by left].
  destruct (verthashes !! b); [|by left].
  destruct (verthashes !! c); [|by left].
  destruct IH as [-> | [l ->]]; [by left|right; by eexists].
Qed.

Lemma hashed_triangles_Done (verthashes : list K) triangles :
  Forall (λ tri : nat * nat * nat,
            tri.1.1 < length verthashes ∧ tri.1.2 < length verthashes ∧
            tri.2 < length verthashes) triangles →
  ∃ l, hashed_triangles verthashes triangles = Done l ∧
       ∀ h : K * K * K, h ∈ l ↔
         ∃ tri, tri ∈ triangles ∧ verthashes !! tri.1.1 = Some h.1.1 ∧
                verthashes !! tri.1.2 = Some h.1.2 ∧ verthashes !! tri.2 = Some h.2.
Proof.
  induction 1 as [|[[a b] c] triangles (Ha & Hb & Hc) Htris (l & IH & Hl)].
  { exists []. split; [done|]. intros h. split.
    - intros Hh. by apply elem_of_nil in Hh.
    - intros (tri & Htri & _). by apply elem_of_nil in Htri. }
  cbn [fst snd] in Ha, Hb, Hc.
  destruct (lookup_lt_is_Some_2 verthashes a Ha) as [ha Ea].
  destruct (lookup_lt_is_Some_2 verthashes b Hb) as [hb Eb].
  destruct (lookup_lt_is_Some_2 verthashes c Hc) as [hc Ec].
  exists ((ha, hb, hc) :: l). split.
  { cbn [hashed_triangles fst snd]. unfold getitem. rewrite Ea, Eb, Ec. cbn.
    rewrite IH. done. }
  intros h. rewrite elem_of_cons, Hl. split.
  - intros [->|(tri & Htri & Hh)].
    + exists (a, b, c). split; [apply list_elem_of_here|done].
    + exists tri. split; [by apply list_elem_of_further|done].
  - intros (tri & Htri & H1 & H2 & H3). apply elem_of_cons in Htri as [->|Htri].
    + left. cbn [fst snd] in *. destruct h as [[h1 h2] h3]. cbn [fst snd] in *.
      congruence.
    + right. by exists tri.
Qed.
End isequalTriGeomData_facts.


(** ** Escaping the line ends of a texture path *)

Lemma append_String a s1 s2 :
  String.append (String a s1) s2 = String a (String.append s1 s2).
Proof. done. Qed.

Lemma contains_char_append c s1 s2 :
  contains_char c (String.append s1 s2) = contains_char c s1 || contains_char c s2.
Proof.
  induction s1 as [|a s1 IH]; [done|]. rewrite append_String. cbn [contains_char].
  by rewrite IH, orb_assoc.
Qed.

Lemma contains_char_replace_same old new s :
  contains_char old new = false → contains_char old (replace_char old new s) = false.
Proof.
  intros Hnew. induction s as [|c s IH]; [done|]. cbn [replace_char].
  destruct (Ascii.eqb c old) eqn:E.
  - by rewrite contains_char_append, Hnew, IH.
  - cbn. by rewrite E, IH.
Qed.

Lemma contains_char_replace_other c old new s :
  Ascii.eqb old c = false → contains_char c new = false →
  contains_char c (replace_char old new s) = contains_char c s.
Proof.
  intros Hc Hnew. induction s as [|a s IH]; [done|]. cbn [replace_char].
  destruct (Ascii.eqb a old) eqn:E.
  - apply Ascii.eqb_eq in E as ->. rewrite contains_char_append, Hnew, IH. cbn.
    by rewrite Hc.
  - cbn. by rewrite IH.
Qed.

Lemma replace_char_absent old new s :
  contains_char old s = false → replace_char old new s = s.
Proof.
  induction s as [|c s IH]; [done|]. cbn. intros [Hc Hs]%orb_false_iff.
  by rewrite Hc, IH.
Qed.

Lemma length_string_append s1 s2 :
  String.length (String.append s1 s2) = String.length s1 + String.length s2.
Proof.
  induction s1 as [|a s1 IH]; [done|]. rewrite append_String. cbn [String.length].
  by rewrite IH.
Qed.

Lemma length_replace_char old new s :
  String.length (replace_char old new s) + count_char old s
  = String.length s + count_char old s * String.length new.
Proof.
  induction s as [|c s IH]; [done|]. cbn [replace_char count_char String.length].
  destruct (Ascii.eqb c old).
  - rewrite length_string_append. lia.
  - cbn [String.length]. lia.
Qed.

Lemma count_char_replace_other c old new s :
  Ascii.eqb old c = false → contains_char c new = false →
  count_char c (replace_char old new s) = count_char c s.
Proof.
  intros Hc Hnew.
  assert (∀ t, count_char c (String.append new t) = count_char c t) as Happ.
  { intros t. clear -Hnew. induction new as [|a new IH]; [done|].
    rewrite append_String. cbn [count_char contains_char] in *.
    apply orb_false_iff in Hnew as [-> Hnew]. by rewrite IH. }
  induction s as [|a s IH]; [done|]. cbn [replace_char count_char].
  destruct (Ascii.eqb a old) eqn:E.
  - apply Ascii.eqb_eq in E as ->. by rewrite Happ, IH, Hc.
  - cbn [count_char]. by rewrite IH.
Qed.

Lemma count_char_0 c s : contains_char c s = false → count_char c s = 0.
Proof.
  induction s as [|a s IH]; [done|]. cbn. intros [-> Hs]%orb_false_iff.
  by rewrite IH.
Qed.

Lemma count_char_pos c s : contains_char c s = true → 0 < count_char c s.
Proof.
  induction s as [|a s IH]; [done|]. cbn. destruct (Ascii.eqb a c); [lia|]. exact IH.
Qed.


(** ** Merging the properties of a block *)

Section merge_properties_facts.
Context {P H : Type} `{EqDecision P} `{Countable H}.
Variable has_controller : P → bool.
Variable class_name : P → string.
Variable excluded : P → bool.
Variable hashvalue : P → H.

Local Abbreviation mloop := (merge_properties_loop has_controller class_name excluded hashvalue).

Lemma merge_properties_loop_spec count i properties property_map out :
  i + count = length properties →
  let r := mloop count i properties property_map out in
  length r.1.1 = length properties ∧
  take i r.1.1 = take i properties ∧
  property_map ⊆ r.1.2 ∧
  (∀ j prop, i ≤ j → properties !! j = Some prop →
     if has_controller prop || excluded prop
     then r.1.1 !! j = Some prop
     else is_Some (r.1.1 !! j) ∧ r.1.1 !! j = r.1.2 !! hashvalue prop) ∧
  (∀ h v, r.1.2 !! h = Some v →
     property_map !! h = Some v ∨
     ∃ j, i ≤ j ∧ properties !! j = Some v ∧ hashvalue v = h ∧
          has_controller v || excluded v = false).
Proof.
  revert i properties property_map out.
  induction count as [|count IH]; intros i properties property_map out Hlen; cbv zeta.
  { cbn [merge_properties_loop fst snd]. split; [done|]. split; [done|].
    split; [done|]. split; [|by left].
    intros j prop Hj Hprop. apply lookup_lt_Some in Hprop. lia. }
  cbn [merge_properties_loop].
  destruct (lookup_lt_is_Some_2 properties i) as [prop Hprop]; [lia|].
  rewrite Hprop.
  assert (∀ properties' property_map' out',
            length properties' = length properties →
            (∀ j, i < j → properties' !! j = properties !! j) →
            property_map ⊆ property_map' →
            (if has_controller prop || excluded prop
             then properties' !! i = Some prop
             else properties' !! i = property_map' !! hashvalue prop ∧
                  is_Some (properties' !! i)) →
            (∀ h v, property_map' !! h = Some v →
               property_map !! h = Some v ∨
               (v = prop ∧ hashvalue v = h ∧ has_controller v || excluded v = false)) →
            let r := mloop count (S i) properties' property_map' out' in
            length r.1.1 = length properties ∧
            take i r.1.1 = take i properties' ∧
            property_map ⊆ r.1.2 ∧
            (∀ j prop, i ≤ j → properties !! j = Some prop →
               if has_controller prop || excluded prop
               then r.1.1 !! j = Some prop
               else is_Some (r.1.1 !! j) ∧ r.1.1 !! j = r.1.2 !! hashvalue prop) ∧
            (∀ h v, r.1.2 !! h = Some v →
               property_map !! h = Some v ∨
               ∃ j, i ≤ j ∧ properties !! j = Some v ∧ hashvalue v = h ∧
                    has_controller v || excluded v = false)) as Hstep.
  { intros properties' property_map' out' Hlen' Hsame Hsub Hi Hnew. cbv zeta.
    destruct (IH (S i) properties' property_map' out') as (H1 & H2 & H3 & H4 & H5);
      [lia|]. cbv zeta in *.
    set (r := mloop count (S i) properties' property_map' out') in *.
    assert (r.1.1 !! i = properties' !! i) as Hri.
    { rewrite <- (lookup_take_lt r.1.1 (S i)) by lia. rewrite H2.
      by rewrite lookup_take_lt by lia. }
    split; [lia|]. split; [by apply (take_eq_le (S i)); [lia|]|].
    split; [by etrans|]. split.
    - intros j p Hj Hp. destruct (decide (j = i)) as [->|Hne].
      + assert (p = prop) as -> by congruence. rewrite Hri.
        destruct (has_controller prop || excluded prop); [done|].
        destruct Hi as [Heq [x Hx]]. split; [by exists x|].
        rewrite Hx. symmetry. rewrite Heq in Hx.
        by apply (lookup_weaken _ _ _ _ Hx H3).
      + apply (H4 j p); [lia|]. rewrite Hsame by lia. done.
    - intros h v Hv. destruct (H5 h v Hv) as [Hm|(j & Hj & Hjv & Hh & Hskip)].
      + destruct (Hnew h v Hm) as [?|(-> & Hh & Hskip)]; [by left|].
        right. exists i. done.
      + right. exists j. split; [lia|]. rewrite <- Hsame by lia. done. }
  destruct (has_controller prop) eqn:Ec.
  { destruct (Hstep properties property_map out) as (H1 & H2 & H3 & H4 & H5);
      [done|done|done|by rewrite ?Ec|by left|]. done. }
  destruct (excluded prop) eqn:Ee.
  { destruct (Hstep properties property_map out) as (H1 & H2 & H3 & H4 & H5);
      [done|done|done|by rewrite ?Ec, ?Ee|by left|]. done. }
  destruct (property_map !! hashvalue prop) as [new_prop|] eqn:Em.
  - destruct (decide (new_prop ≠ prop)) as [Hne|Heq].
    + rewrite (insert_id property_map _ _ Em).
      destruct (Hstep (<[i:=new_prop]> properties) property_map
                  (out ++ [String.append "  removing duplicate "
                             (String.append (class_name prop) " block")]))
        as (H1 & H2 & H3 & H4 & H5).
      * by rewrite length_insert.
      * intros j Hj. by rewrite list_lookup_insert_ne by lia.
      * done.
      * rewrite ?Ec, ?Ee. cbn [orb]. rewrite list_lookup_insert_eq by lia.
        split; [done|by eexists].
      * by left.
      * split; [done|]. split; [|done].
        rewrite H2. by rewrite take_insert_ge by lia.
    + assert (new_prop = prop) as -> by (by destruct (decide (new_prop = prop))).
      destruct (Hstep properties property_map out) as (H1 & H2 & H3 & H4 & H5);
        [done|done|done| |by left|done].
      rewrite ?Ec, ?Ee. cbn [orb]. rewrite Hprop. split; [done|by eexists].
  - destruct (Hstep properties (<[hashvalue prop:=prop]> property_map) out)
      as (H1 & H2 & H3 & H4 & H5); [done|done| | | |done].
    + by apply insert_subseteq.
    + rewrite ?Ec, ?Ee. cbn [orb]. rewrite lookup_insert_eq, Hprop.
      split; [done|by eexists].
    + intros h v Hv. destruct (decide (h = hashvalue prop)) as [->|Hne].
      * rewrite lookup_insert_eq in Hv. injection Hv as <-. right.
        by rewrite ?Ec, ?Ee.
      * rewrite lookup_insert_ne in Hv by done. by left.
Qed.
Lemma merge_properties_loop_fixed count i properties property_map out :
  (∀ j prop, properties !! j = Some prop →
     has_controller prop || excluded prop = true ∨
     property_map !! hashvalue prop = Some prop) →
  mloop count i properties property_map out = (properties, property_map, out).
Proof.
  intros Hfix. revert i. induction count as [|count IH]; intros i; [done|].
  cbn [merge_properties_loop].
  destruct (properties !! i) as [prop|] eqn:Hprop; [|done].
  destruct (Hfix i prop Hprop) as [Hskip|Hmap].
  - destruct (has_controller prop); [apply IH|].
    destruct (excluded prop); [apply IH|done].
  - destruct (has_controller prop); [apply IH|].
    destruct (excluded prop); [apply IH|].
    rewrite Hmap. rewrite decide_False by (by intros Hne; apply Hne). apply IH.
Qed.

End merge_properties_facts.


(** ** Which buffers decode *)

Lemma returns_pret {A} (a : A) : returns (pret a).
Proof. exists a, []. reflexivity. Qed.

Lemma returns_bind {A B} (m : printing A) (f : A → printing B) :
  returns (mbind f m) ↔ ∃ a, yields m a ∧ returns (f a).
Proof.
  rewrite pbind_eq. destruct m as [l [a|e|]]; cbn [fst snd]; split.
  - intros (b & log & H). exists a. split; [by exists l|].
    exists b, (f a).1. destruct (f a) as [l' o]. cbn [fst snd] in *. congruence.
  - intros (a' & (log & Ha) & b & log' & Hb).
    injection Ha as <- <-. rewrite Hb. by exists b, (l ++ log').
  - by intros (b & log & H).
  - by intros (a' & (log & Ha) & _).
  - by intros (b & log & H).
  - by intros (a' & (log & Ha) & _).
Qed.

Lemma returns_bind_intro {A B} (m : printing A) (f : A → printing B) :
  returns m → (∀ a, returns (f a)) → returns (mbind f m).
Proof. intros (a & Ha) Hf. apply returns_bind. by exists a. Qed.

Lemma returns_print_bind {B} ev (f : unit → printing B) :
  returns (mbind f (print ev)) ↔ returns (f tt).
Proof.
  rewrite returns_bind. split.
  - by intros ([] & _ & H).
  - intros H. exists tt. split; [by exists [ev]|done].
Qed.

Lemma not_returns_praise {A} e : ¬ returns (praise e : printing A).
Proof. by intros (a & log & H). Qed.

Lemma raises_terminates_bind {A B} (m : printing A) (f : A → printing B) :
  terminates m → (∀ a, raises (f a)) → raises (mbind f m).
Proof.
  unfold terminates, raises. intros Hm Hf. rewrite pbind_eq.
  destruct m as [l [a|e|]]; cbn [fst snd] in *; [apply Hf|by exists e|done].
Qed.

Section laid_out_facts.
Variable self : bhkMoppBvTreeShape.

Lemma returns_mopp_at_bind {B} i (f : nat → printing B) :
  returns (mbind f (mopp_at self i))
  ↔ ∃ b, moppData self !! i = Some b ∧ returns (f b).
Proof.
  rewrite returns_bind. split.
  - intros (b & (log & Hb) & Hf). exists b. split; [|done].
    destruct (mopp_at_cases self i) as [(b' & Hb' & E)|E]; rewrite E in Hb; [|done].
    injection Hb as _ ->. done.
  - intros (b & Hb & Hf). exists b. split; [|done].
    exists []. by apply mopp_at_Some.
Qed.

(** The arm of an unrecognized opcode ends in an exception, whatever the
    size field is. *)
Lemma raises_unknown_opcode i code :
  raises (unknown_opcode self i code)
  ∧ ∃ post, (unknown_opcode self i code).1 = PrUnknown code :: PrFollowing :: post.
Proof.
  unfold unknown_opcode. rewrite !pbind_print. cbn [fst snd]. split; [|by eexists].
  apply raises_terminates_bind; [apply terminates_mopp_slice|]. intros bs.
  rewrite pbind_print. cbn [snd].
  apply raises_terminates_bind; [apply terminates_print_after_jumps|]. intros _.
  by eexists.
Qed.

Lemma not_returns_unknown_opcode i code : ¬ returns (unknown_opcode self i code).
Proof.
  intros (a & log & H). destruct (raises_unknown_opcode i code) as [[e He] _].
  rewrite H in He. done.
Qed.

(** Every successor lies after the form. *)
Lemma successors_gt i code next j :
  successors self i code = Some next → j ∈ next → i < j.
Proof.
  unfold successors. intros Hs Hj.
  destruct (opcode_kind_of code); [..|done];
    repeat (apply bind_Some in Hs as (? & ? & Hs));
    injection Hs as <-;
    repeat (apply elem_of_cons in Hj as [->|Hj]; [lia|]);
    by apply elem_of_nil in Hj.
Qed.

Ltac decode_step Hn :=
  first
    [ apply returns_pret
    | apply Hn; repeat first [apply list_elem_of_here | apply list_elem_of_further]
    | apply returns_print_bind
    | apply returns_mopp_at_bind; eexists; split; [eassumption|]
    | apply returns_bind_intro; [|intros ?] ].

(** One turn of the loop on a recognized form whose successors decode. *)
Lemma parseMopp_loop_returns fuel depth i toffset ids tris code next :
  i < moppDataSize self →
  moppData self !! i = Some code →
  successors self i code = Some next →
  (∀ j, j ∈ next → ∀ depth toffset ids tris,
     returns (parseMopp_loop self fuel depth j toffset ids tris)) →
  returns (parseMopp_loop self (S fuel) depth i toffset ids tris).
Proof.
  intros Hi Hcode Hs Hn. cbn [parseMopp_loop].
  apply Nat.ltb_lt in Hi as Hi'. rewrite Hi'. cbn [negb].
  apply returns_mopp_at_bind. exists code. split; [done|].
  apply returns_print_bind.
  unfold successors in Hs.
  destruct (opcode_kind_of code); [..|done];
    repeat (apply bind_Some in Hs as (? & ? & Hs));
    injection Hs as <-; cbv zeta;
    repeat decode_step Hn.
Qed.

Ltac decode_inv H :=
  first
    [ apply returns_print_bind in H
    | apply returns_mopp_at_bind in H as (? & ? & H)
    | apply returns_bind in H as (? & ? & H) ].

(** One turn of the loop that returns: the form is recognized, its operands
    are in the data and its successors decode. *)
Lemma returns_parseMopp_loop_inv fuel depth i toffset ids tris :
  i < moppDataSize self →
  returns (parseMopp_loop self (S fuel) depth i toffset ids tris) →
  ∃ code next,
    moppData self !! i = Some code ∧ successors self i code = Some next ∧
    ∀ j, j ∈ next → ∃ depth toffset ids tris,
      returns (parseMopp_loop self fuel depth j toffset ids tris).
Proof.
  intros Hi H. cbn [parseMopp_loop] in H.
  apply Nat.ltb_lt in Hi as Hi'. rewrite Hi' in H. cbn [negb] in H.
  apply returns_mopp_at_bind in H as (code & Hcode & H).
  apply returns_print_bind in H.
  exists code. unfold successors.
  destruct (opcode_kind_of code); cbv zeta in H;
    [..|by destruct (not_returns_unknown_opcode _ _ H)];
    repeat decode_inv H;
    repeat match goal with E : moppData self !! _ = Some _ |- _ => rewrite E; clear E end;
    (eexists; split; [done|split; [reflexivity|]]);
    intros j Hj;
    repeat (apply elem_of_cons in Hj as [->|Hj];
            [by do 4 eexists; first [eassumption | eexists; eassumption]|]);
    by apply elem_of_nil in Hj.
Qed.

Lemma laid_out_returns i :
  laid_out self i →
  ∀ fuel depth toffset ids tris,
    moppDataSize self - i < fuel →
    returns (parseMopp_loop self fuel depth i toffset ids tris).
Proof.
  induction 1 as [i Hi|i code next Hi Hcode Hs Hn IH];
    intros fuel depth toffset ids tris Hfuel;
    (destruct fuel as [|fuel]; [lia|]).
  - cbn [parseMopp_loop].
    replace (i <? moppDataSize self) with false
      by (symmetry; apply Nat.ltb_ge; lia).
    apply returns_pret.
  - eapply parseMopp_loop_returns; [done..|].
    intros j Hj depth' toffset' ids' tris'. apply IH; [done|].
    pose proof (successors_gt _ _ _ _ Hs Hj). lia.
Qed.

Lemma returns_laid_out fuel depth i toffset ids tris :
  returns (parseMopp_loop self fuel depth i toffset ids tris) → laid_out self i.
Proof.
  revert depth i toffset ids tris.
  induction fuel as [|fuel IH]; intros depth i toffset ids tris H.
  { by destruct H as (a & log & H). }
  destruct (decide (i < moppDataSize self)) as [Hi|Hi];
    [|apply laid_out_end; lia].
  destruct (returns_parseMopp_loop_inv _ _ _ _ _ _ Hi H)
    as (code & next & Hcode & Hs & Hn).
  apply (laid_out_form self i code next); [done..|].
  intros j Hj. destruct (Hn j Hj) as (d & t & ids' & tris' & Hr).
  by eapply IH.
Qed.

(** [parseMopp] returns a result exactly on the buffers laid out from its
    start offset. *)
Lemma laid_out_parseMopp start depth toffset :
  laid_out self start ↔ returns (parseMopp self start depth toffset).
Proof.
  split.
  - intros H. apply laid_out_returns; [done|lia].
  - apply returns_laid_out.
Qed.
End laid_out_facts.

(** ** An unrecognized opcode ends every run *)

Section stops.
Variable self : bhkMoppBvTreeShape.

Lemma stops_quiet {A} (m : printing A) :
  Forall (λ ev, ¬ is_opcode_header ev) m.1 → stops self m.
Proof.
  intros Hq j d c Hin. rewrite Forall_forall in Hq.
  by destruct (Hq _ Hin).
Qed.

Lemma stops_bind {A B} (m : printing A) (f : A → printing B) :
  stops self m → (∀ a, m.2 = Done a → stops self (f a)) → stops self (mbind f m).
Proof.
  intros Hm Hf j d c. rewrite pbind_eq.
  destruct m as [l [a|e|]]; cbn [fst snd] in *.
  - intros [Hin|Hin]%elem_of_app.
    + destruct (Hm j d c Hin) as [Hs Hu]. split; [done|].
      intros Hc. by destruct (Hu Hc) as [[e He] _].
    + destruct (Hf a eq_refl j d c Hin) as [Hs Hu]. split; [done|].
      intros Hc. destruct (Hu Hc) as [Hr (pre & post & Hlog)].
      split; [done|]. exists (l ++ pre), post. by rewrite Hlog, app_assoc.
  - intros Hin. destruct (Hm j d c Hin) as [Hs Hu]. split; [done|].
    intros Hc. destruct (Hu Hc) as [_ Hlog]. split; [by exists e|exact Hlog].
  - intros Hin. destruct (Hm j d c Hin) as [Hs Hu]. split; [done|].
    intros Hc. by destruct (Hu Hc) as [[e He] _].
Qed.

Lemma quiet_bind {A B} (m : printing A) (f : A → printing B) :
  Forall (λ ev, ¬ is_opcode_header ev) m.1 →
  (∀ a, Forall (λ ev, ¬ is_opcode_header ev) (f a).1) →
  Forall (λ ev, ¬ is_opcode_header ev) (mbind f m).1.
Proof.
  intros Hm Hf. rewrite pbind_eq.
  destruct m as [l [a|e|]]; cbn [fst snd] in *; [|done..].
  apply Forall_app. split; [done|apply Hf].
Qed.

Lemma quiet_mopp_slice lo n :
  Forall (λ ev, ¬ is_opcode_header ev) (mopp_slice self lo n).1.
Proof.
  revert lo. induction n as [|n IH]; intros lo; cbn [mopp_slice]; [constructor|].
  apply quiet_bind; [constructor|]. intros b.
  apply quiet_bind; [apply IH|]. intros bs. constructor.
Qed.

Lemma quiet_print ev :
  ¬ is_opcode_header ev → Forall (λ ev, ¬ is_opcode_header ev) (print ev).1.
Proof. intros Hev. by apply Forall_singleton. Qed.

Lemma quiet_print_after_jumps bjs :
  Forall (λ ev, ¬ is_opcode_header ev) (print_after_jumps self bjs).1.
Proof.
  induction bjs as [|[b j] bjs IH]; cbn [print_after_jumps]; [constructor|].
  apply quiet_bind; [|by intros].
  case_match; [|constructor].
  apply quiet_bind; [constructor|]. intros op.
  apply quiet_bind; [apply quiet_mopp_slice|]. intros bs.
  apply quiet_print. simpl. tauto.
Qed.

Lemma quiet_unknown_opcode i code :
  Forall (λ ev, ¬ is_opcode_header ev) (unknown_opcode self i code).1.
Proof.
  unfold unknown_opcode.
  apply quiet_bind; [apply quiet_print; simpl; tauto|]. intros _.
  apply quiet_bind; [apply quiet_print; simpl; tauto|]. intros _.
  apply quiet_bind; [apply quiet_mopp_slice|]. intros bs.
  apply quiet_bind; [apply quiet_print; simpl; tauto|]. intros _.
  apply quiet_bind; [apply quiet_print_after_jumps|]. intros _.
  constructor.
Qed.

Lemma stops_unknown i depth code :
  i < moppDataSize self → moppData self !! i = Some code →
  stops self (print (PrOpcode i depth code);; unknown_opcode self i code).
Proof.
  intros Hi Hcode j d c. rewrite pbind_print. cbn [fst snd].
  destruct (raises_unknown_opcode self i code) as [Hr [post Hpost]].
  intros Hin. apply elem_of_cons in Hin as [Heq|Hin].
  - injection Heq as -> -> ->. split; [done|]. intros _. split; [done|].
    exists [], post. by rewrite Hpost.
  - pose proof (quiet_unknown_opcode i code) as Hq.
    rewrite Forall_forall in Hq. by destruct (Hq _ Hin).
Qed.

(** A recognized opcode: the header is harmless, the arm decides. *)
Lemma stops_header {A} i depth code (arm : printing A) :
  i < moppDataSize self → moppData self !! i = Some code →
  opcode_kind_of code ≠ Unknown →
  stops self arm → stops self (print (PrOpcode i depth code);; arm).
Proof.
  intros Hi Hcode Hk Harm j d c. rewrite pbind_print. cbn [fst snd].
  intros Hin. apply elem_of_cons in Hin as [Heq|Hin].
  - injection Heq as -> -> ->. done.
  - destruct (Harm j d c Hin) as [Hs Hu]. split; [done|].
    intros Hc. destruct (Hu Hc) as [Hr (pre & post & Hlog)]. split; [done|].
    exists (PrOpcode i depth code :: pre), post. by rewrite Hlog.
Qed.

Lemma stops_mopp_at i : stops self (mopp_at self i).
Proof. apply stops_quiet. unfold mopp_at, plift. cbn [fst]. constructor. Qed.

Lemma stops_print ev : ¬ is_opcode_header ev → stops self (print ev).
Proof. intros Hev. by apply stops_quiet, quiet_print. Qed.

Lemma stops_pret {A} (a : A) : stops self (pret a).
Proof. apply stops_quiet. constructor. Qed.

Lemma stops_parseMopp_loop fuel depth i toffset ids tris :
  stops self (parseMopp_loop self fuel depth i toffset ids tris).
Proof.
  revert depth i toffset ids tris.
  induction fuel as [|fuel IH]; intros depth i toffset ids tris.
  { apply stops_quiet. constructor. }
  cbn [parseMopp_loop].
  destruct (i <? moppDataSize self) eqn:Hi; cbn [negb]; [|apply stops_pret].
  apply Nat.ltb_lt in Hi.
  destruct (mopp_at_cases self i) as [(code & Hcode & ->)| ->];
    [rewrite pbind_pret|by apply stops_quiet; constructor].
  destruct (opcode_kind_of code) eqn:Hk;
    try (apply stops_header; [done|done|congruence|]);
    [..|by apply stops_unknown];
    repeat first
      [ apply IH
      | apply stops_pret
      | apply stops_bind;
        [first [ apply stops_mopp_at | apply IH
               | apply stops_print; simpl; tauto ] | intros ? _] ].
Qed.

Lemma stops_parseMopp start depth toffset :
  stops self (parseMopp self start depth toffset).
Proof. apply stops_parseMopp_loop. Qed.
End stops.

Lemma list_ascii_of_string_append s1 s2 :
  list_ascii_of_string (String.append s1 s2)
  = list_ascii_of_string s1 ++ list_ascii_of_string s2.
Proof.
  induction s1 as [|c s1 IH]; [done|].
  rewrite append_String. cbn [list_ascii_of_string]. by rewrite IH.
Qed.

(** [replace], character by character. *)
Lemma list_ascii_of_replace_char old new s :
  list_ascii_of_string (replace_char old new s)
  = flat_map (λ c, if Ascii.eqb c old then list_ascii_of_string new else [c])
      (list_ascii_of_string s).
Proof.
  induction s as [|c s IH]; [done|].
  cbn [replace_char list_ascii_of_string flat_map].
  destruct (Ascii.eqb c old).
  - by rewrite list_ascii_of_string_append, IH.
  - cbn [list_ascii_of_string app]. by rewrite IH.
Qed.

Lemma flat_map_flat_map {A B C} (f : A → list B) (g : B → list C) l :
  flat_map g (flat_map f l) = flat_map (λ a, flat_map g (f a)) l.
Proof.
  induction l as [|a l IH]; [done|].
  cbn [flat_map]. by rewrite flat_map_app, IH.
Qed.

(** Both replacements of [fixTexturePath] are made whether or not the test
    of the [if] holds: where it fails they change nothing. *)
Lemma fixTexturePath_replaced fileName :
  (fixTexturePath fileName).2
  = replace_char CR "\r" (replace_char LF "\n" fileName).
Proof.
  unfold fixTexturePath.
  destruct (contains_char LF fileName) eqn:Elf;
    [|destruct (contains_char CR fileName) eqn:Ecr]; cbn [orb snd]; [done..|].
  by rewrite (replace_char_absent LF), (replace_char_absent CR).
Qed.


(** ** The calls the merge spell makes over a whole visit *)

Section merge_visit_facts.
Context {B : Type} `{EqDecision B}.
Variable is_interchangeable : B → B → bool.
Variable is_NiProperty : B → bool.
Variable has_controller : B → bool.
Variable is_BSShaderProperty : B → bool.

Local Abbreviation entry :=
  (merge_branchentry is_interchangeable is_NiProperty has_controller
     is_BSShaderProperty).
Local Abbreviation visit :=
  (merge_visit is_interchangeable is_NiProperty has_controller is_BSShaderProperty).

(** One call either adds the branch to the visited ones or replaces it by a
    branch visited before. *)
Lemma merge_branchentry_cases st branch :
  (entry st branch).1
  = {| branches := branches st ++ [branch]; merge_log := merge_log st;
       replaced := replaced st |}
  ∨ ∃ other,
      other ∈ branches st ∧ branch ≠ other ∧
      is_interchangeable branch other = true ∧
      merge_excluded is_NiProperty has_controller is_BSShaderProperty branch = false ∧
      (entry st branch).1
      = {| branches := branches st;
           merge_log := set_changed
                          (toaster_msg "removing duplicate branch" (merge_log st));
           replaced := replaced st ++ [(branch, Some other)] |}.
Proof.
  unfold merge_branchentry.
  destruct (merge_excluded is_NiProperty has_controller is_BSShaderProperty branch)
    eqn:Hex.
  - rewrite merge_loop_excluded by done. by left.
  - rewrite merge_loop_candidates by done.
    destruct (filter _ (branches st)) as [|other rest] eqn:Hf; [by left|].
    right. exists other.
    assert (other ∈ filter (λ o, branch ≠ o ∧ is_interchangeable branch o = true)
                      (branches st)) as Hin.
    { rewrite Hf. apply list_elem_of_here. }
    apply list_elem_of_filter in Hin as [[Hne Hi] Hin]. done.
Qed.

Lemma merge_visit_replaced visited : ∀ st,
  ∃ new kept,
    replaced (visit st visited) = replaced st ++ new ∧
    branches (visit st visited) = branches st ++ kept ∧
    ∀ b o, (b, o) ∈ new →
      b ∈ visited ∧
      merge_excluded is_NiProperty has_controller is_BSShaderProperty b = false ∧
      ∃ other, o = Some other ∧ b ≠ other ∧
               is_interchangeable b other = true ∧
               other ∈ branches (visit st visited).
Proof.
  induction visited as [|branch visited IH]; intros st.
  { exists [], []. cbn [merge_visit foldl]. rewrite !app_nil_r.
    split; [done|]. split; [done|]. intros b o Hin. by apply elem_of_nil in Hin. }
  change (visit st (branch :: visited)) with (visit (entry st branch).1 visited).
  destruct (IH (entry st branch).1) as (new & kept & Hnew & Hkept & Hall).
  destruct (merge_branchentry_cases st branch)
    as [Hadd|(other & Hin & Hne & Hi & Hex & Hrep)].
  - assert (replaced (entry st branch).1 = replaced st) as Hr by (by rewrite Hadd).
    assert (branches (entry st branch).1 = branches st ++ [branch]) as Hb
      by (by rewrite Hadd).
    rewrite Hr in Hnew. rewrite Hb in Hkept.
    exists new, (branch :: kept). split; [done|].
    split; [by rewrite Hkept, <- app_assoc|].
    intros b o Hbo. destruct (Hall b o Hbo) as (Hvis & Hexb & Hother).
    split; [by apply list_elem_of_further|done].
  - assert (replaced (entry st branch).1 = replaced st ++ [(branch, Some other)])
      as Hr by (by rewrite Hrep).
    assert (branches (entry st branch).1 = branches st) as Hb by (by rewrite Hrep).
    rewrite Hr in Hnew. rewrite Hb in Hkept.
    exists ((branch, Some other) :: new), kept.
    split; [by rewrite Hnew, <- app_assoc|]. split; [done|].
    intros b o [[= -> ->]|Hbo]%elem_of_cons.
    + split; [apply list_elem_of_here|]. split; [done|].
      exists other. split; [done|]. split; [done|]. split; [done|].
      rewrite Hkept. apply elem_of_app. by left.
    + destruct (Hall b o Hbo) as (Hvis & Hexb & Hother).
      split; [by apply list_elem_of_further|done].
Qed.
End merge_visit_facts.


(** ** The loops that [opt_shapes] guards *)

Section testRoot_loops_facts.
Context {B D : Type} `{EqDecision B}.
Variable is_NiPSysMeshEmitter : B → bool.
Variable is_NiNode : B → bool.
Variable is_tri_shape : B → bool.
Variable isequal : D → D → outcome bool.
Variable block_name : B → string.

Lemma opt_shapes_foldl (block_list : list B) (opt : bool) :
  foldl (λ opt block, if is_NiPSysMeshEmitter block then false else opt)
    opt block_list
  = opt && forallb (λ block, negb (is_NiPSysMeshEmitter block)) block_list.
Proof.
  revert opt. induction block_list as [|block block_list IH]; intros opt;
    cbn [foldl forallb].
  - by rewrite andb_true_r.
  - rewrite IH. destruct (is_NiPSysMeshEmitter block), opt; done.
Qed.

Lemma opt_shapes_false (block_list : list B) :
  opt_shapes is_NiPSysMeshEmitter block_list = false
  ↔ ∃ block, block ∈ block_list ∧ is_NiPSysMeshEmitter block = true.
Proof.
  unfold opt_shapes. rewrite opt_shapes_foldl. cbn [andb].
  induction block_list as [|block block_list IH]; cbn [forallb].
  - split; [done|]. intros (block & Hin & _). by apply elem_of_nil in Hin.
  - destruct (is_NiPSysMeshEmitter block) eqn:E; cbn [negb andb].
    + split; [|done]. intros _. exists block. split; [apply list_elem_of_here|done].
    + rewrite IH. split.
      * intros (b & Hin & Hb). exists b. split; [by apply list_elem_of_further|done].
      * intros (b & [->|Hin]%elem_of_cons & Hb); [congruence|]. by exists b.
Qed.

Lemma remove_duplicate_children_off block_list (children : B → list (option B)) :
  remove_duplicate_children is_NiNode false block_list children = children.
Proof. induction block_list as [|block block_list IH]; [done|]. exact IH. Qed.

Lemma merge_shape_data_off block_list shapes (data : B → D) out :
  merge_shape_data is_tri_shape isequal block_name false block_list shapes data out
  = Done (data, out).
Proof. induction block_list as [|block block_list IH]; [done|]. exact IH. Qed.
End testRoot_loops_facts.


(** ** A strip whose first index is bad and whose tail is left alone *)

Lemma bad_indices_fixed v_map tail :
  Forall (λ v, v_map !! v = Some v) tail → bad_indices v_map tail = [].
Proof.
  intros Htail. unfold bad_indices.
  induction Htail as [|v tail Hv Htail IH]; [done|].
  rewrite filter_cons, decide_False; [exact IH|]. by rewrite Hv.
Qed.

Lemma remap_strip_bad_first_fixed_tail v_map c nx k tail :
  v_map !! c = None → v_map !! nx = Some k →
  Forall (λ v, v_map !! v = Some v) tail →
  remap_strip v_map (c :: nx :: tail) = ([c], Done (nx :: k :: tail)).
Proof.
  intros Hc Hnx Htail.
  destruct (remap_strip_spec v_map (c :: nx :: tail)) as (res & Hrun & Hlen & Hres).
  { left. cbn [length]. lia. }
  rewrite Hrun. f_equal.
  - unfold bad_indices. rewrite filter_cons, decide_True by done.
    rewrite filter_cons, decide_False by (by rewrite Hnx).
    fold (bad_indices v_map tail). by rewrite bad_indices_fixed.
  - f_equal. apply list_eq. intros j.
    destruct j as [|[|j]].
    + specialize (Hres 0 c eq_refl). rewrite Hc in Hres. exact Hres.
    + specialize (Hres 1 nx eq_refl). rewrite Hnx in Hres. exact Hres.
    + cbn [lookup list_lookup]. destruct (tail !! j) as [v|] eqn:Ev.
      * specialize (Hres (S (S j)) v Ev).
        rewrite (Forall_lookup_1 _ _ _ _ Htail Ev) in Hres. exact Hres.
      * apply lookup_ge_None. apply lookup_ge_None in Ev.
        rewrite Hlen. cbn [length]. lia.
Qed.

(** * Theorems *)

(** C1 — MOPP round trip.  For a shape with [n >= 1] triangles on which
    [updateMopp] succeeds, decoding the bytes it wrote from offset 0 with
    triangle offset 0 finishes with the triangle list [0, 1, ..., n-1]:
    no duplicate and nothing outside the range. *)
Theorem mopp_round_trip (self self' : bhkMoppBvTreeShape) :
  1 ≤ length (pk_triangles (shape_data self)) →
  updateMopp self = Done self' →
  ∃ log ids tris,
    parseMopp self' 0 0 0 = (log, Done (ids, tris)) ∧
    tris = seq 0 (length (pk_triangles (shape_data self))) ∧
    NoDup tris ∧
    ∀ t, t ∈ tris ↔ t < length (pk_triangles (shape_data self)).
Proof.
  intros Hn Hup.
  destruct (updateMopp_Done _ _ Hup) as (maxx & maxy & maxz & Hx & Hy & Hz & ->).
  set (n := length (pk_triangles (shape_data self))) in *.
  rewrite trivial_tree_assemble by lia.
  destruct (parseMopp_assemble
              (set_mopp self (assemble (trivial_mopp maxx maxy maxz (n - 1))))
              (trivial_mopp maxx maxy maxz (n - 1)) 0 0)
    as [log Hlog]; [by apply trivial_mopp_ok|done|done|].
  exists log, (tree_ids (trivial_mopp maxx maxy maxz (n - 1)) 0), (seq 0 n).
  split; [|split; [done|split]].
  - rewrite trivial_mopp_triangles in Hlog.
    replace (S (n - 1)) with n in Hlog by lia. exact Hlog.
  - apply NoDup_seq.
  - intros t. rewrite elem_of_seq. lia.
Qed.

Lemma mopp_round_trip_witness :
  ∃ log ids tris,
    parseMopp (set_mopp (scaled_unit_shape 3)
                 [0x28; 0; 255; 0x27; 0; 175; 0x26; 0; 96;
                  0x12; 255; 0; 1; 0x30; 0x12; 255; 0; 1; 0x31; 0x32]) 0 0 0
    = (log, Done (ids, tris)) ∧
    tris = [0; 1; 2] ∧ NoDup tris ∧ ∀ t, t ∈ tris ↔ t < 3.
Proof.
  apply (mopp_round_trip (scaled_unit_shape 3)).
  - simpl. lia.
  - vm_compute. reflexivity.
Defined.

(** C5 (as amended) — unknown-opcode decode failure.  The offsets the
    decoder reaches are the headers it prints; each tells the byte at its
    offset.  (1) On every buffer, an unrecognized byte that is reached ends
    decoding in an exception, the offset header, the unknown-opcode line and
    the line announcing the following bytes printed.  (2) When the size
    field does not exceed the data, that exception is the [ValueError] that
    names the opcode, raised at the start cursor and at every offset reached
    later, and the report is the offset header, the unknown-opcode line and
    the up to nine following bytes, then only after-jump lines.  (3) No run
    exhausts its budget.  (4) Decoding returns a result, so does not raise,
    exactly on the buffers on which every offset reached from the start,
    each displacement followed as written, lies at or past the size field
    or holds a recognized opcode with all its operands in the data.  (5) The
    layout of a well-formed tree of recognized forms, branches nested to any
    depth, decodes to the tree's byte indices and triangles. *)
Theorem parseMopp_unknown_opcode (self : bhkMoppBvTreeShape) :
  (∀ start depth toffset j d c,
     PrOpcode j d c ∈ (parseMopp self start depth toffset).1 →
     (j < moppDataSize self ∧ moppData self !! j = Some c) ∧
     (opcode_kind_of c = Unknown →
        raises (parseMopp self start depth toffset) ∧
        ∃ pre post,
          (parseMopp self start depth toffset).1
          = pre ++ PrOpcode j d c :: PrUnknown c :: PrFollowing :: post)) ∧
  (moppDataSize self ≤ length (moppData self) →
     (∀ start depth toffset code,
        start < moppDataSize self → moppData self !! start = Some code →
        opcode_kind_of code = Unknown →
        parseMopp self start depth toffset
        = (report self start depth code,
           Raised (ValueError (unknown_message code)))) ∧
     (∀ start depth toffset j d c,
        PrOpcode j d c ∈ (parseMopp self start depth toffset).1 →
        opcode_kind_of c = Unknown →
        (parseMopp self start depth toffset).2
          = Raised (ValueError (unknown_message c)) ∧
        ∃ pre, (parseMopp self start depth toffset).1 = pre ++ report self j d c) ∧
     (∀ i depth code,
        i < moppDataSize self →
        ∃ l, report self i depth code
             = PrOpcode i depth code :: PrUnknown code :: PrFollowing
                 :: PrBytes (following_bytes self i) :: l
             ∧ Forall is_after_jump l)) ∧
  (∀ start depth toffset,
     (parseMopp self start depth toffset).2 ≠ Timeout) ∧
  (∀ start depth toffset,
     laid_out self start ↔ returns (parseMopp self start depth toffset)) ∧
  (moppDataSize self = length (moppData self) →
   ∀ t depth toffset,
     tree_ok t → moppData self = assemble t →
     ∃ log, parseMopp self 0 depth toffset
            = (log, Done (tree_ids t 0, tree_triangles t toffset))).
Proof.
  split; [|split; [|split; [|split]]].
  - intros start depth toffset j d c Hin.
    by apply (stops_parseMopp self start depth toffset j d c).
  - intros Hle. split; [|split].
    + intros start depth toffset code. by apply parseMopp_unknown_at_start.
    + intros start depth toffset j d c Hin Hc.
      destruct (reports_parseMopp self Hle start depth toffset j d c Hin)
        as [_ Hu].
      by apply Hu.
    + intros i depth code. by apply report_ok.
  - intros start depth toffset. apply terminates_parseMopp.
  - intros start depth toffset. apply laid_out_parseMopp.
  - intros Hsize t depth toffset Hok Hdata. by apply parseMopp_assemble.
Qed.

Lemma parseMopp_unknown_opcode_witness :
  (parseMopp (mopp_of [0x28; 0; 7; 0x2A; 1; 2]) 3 0 0
   = ([PrOpcode 3 0 0x2A; PrUnknown 0x2A; PrFollowing; PrBytes [1; 2]],
      Raised (ValueError "unknown mopp opcode 0x2A"))) ∧
  raises (parseMopp size_past_data 0 0 0) ∧
  (3 ≤ branch_depth nested_three ∧
   ∃ log, parseMopp (mopp_of (assemble nested_three)) 0 0 0
          = (log, Done ([0; 1; 2; 3; 4; 5; 6; 7; 8; 9; 10; 11; 12; 13; 14; 15;
                         16; 17; 18; 19; 20; 21; 22; 23; 26; 27; 28; 29],
                        [0; 1; 6; 31]))) ∧
  (laid_out crossed_branch 0 ∧
   (parseMopp crossed_branch 0 0 0).2 = Done ([0; 1; 2; 3; 4; 5; 6; 8; 7], [1; 0])) ∧
  ¬ laid_out jump_into_operand 0.
Proof.
  split; [|split; [|split; [|split]]].
  - destruct (parseMopp_unknown_opcode (mopp_of [0x28; 0; 7; 0x2A; 1; 2]))
      as (_ & H & _).
    destruct H as (H & _); [simpl; lia|].
    apply (H 3 0 0 0x2A); [simpl; lia|reflexivity|reflexivity].
  - destruct (parseMopp_unknown_opcode size_past_data) as (H & _).
    destruct (H 0 0 0 0 0 0) as [_ Hu]; [apply list_elem_of_here|].
    by destruct Hu as [Hr _].
  - split; [simpl; lia|].
    destruct (parseMopp_unknown_opcode (mopp_of (assemble nested_three)))
      as (_ & _ & _ & _ & H).
    apply (H eq_refl nested_three 0 0); [|reflexivity].
    unfold nested_three. cbn [tree_ok form_ok assemble assemble_form length app].
    unfold is_byte.
    repeat split; try lia;
      repeat first [apply list_elem_of_here | apply list_elem_of_further
                   | apply Forall_cons_2 | apply Forall_nil_2 | lia
                   | apply Nat.Div0.div_lt_upper_bound; lia].
  - split; [|reflexivity].
    destruct (parseMopp_unknown_opcode crossed_branch) as (_ & _ & _ & H & _).
    apply (H 0 0 0). eexists. eexists. vm_compute. reflexivity.
  - destruct (parseMopp_unknown_opcode jump_into_operand) as (_ & _ & _ & H & _).
    intros Hl. apply (H 0 0 0) in Hl as (a & log & Hrun).
    vm_compute in Hrun. discriminate Hrun.
Defined.

(** C5 as stated fails twice.  A buffer made only of recognized opcode
    forms, a byte jump followed by an offset increment, on which decoding
    raises, because the jump lands on the operand byte [0x00].  And a buffer
    whose size field exceeds its data, on which the unrecognized byte at the
    start ends decoding in [IndexError], raised while the following bytes
    are collected: they are not printed and the error does not name the
    opcode. *)
Lemma recognized_forms_can_raise :
  (forallb is_form [[0x05; 0x01]; [0x09; 0x00]] = true ∧
   moppData jump_into_operand = concat [[0x05; 0x01]; [0x09; 0x00]] ∧
   moppDataSize jump_into_operand = length (moppData jump_into_operand) ∧
   parseMopp jump_into_operand 0 0 0
   = ([PrOpcode 0 0 0x05; PrJump 3; PrOpcode 3 0 0x00; PrUnknown 0x00;
       PrFollowing; PrBytes []],
      Raised (ValueError "unknown mopp opcode 0x00"))) ∧
  (length (moppData size_past_data) < moppDataSize size_past_data ∧
   opcode_kind_of 0x00 = Unknown ∧
   parseMopp size_past_data 0 0 0
   = ([PrOpcode 0 0 0x00; PrUnknown 0x00; PrFollowing], Raised IndexError)).
Proof. split; [by repeat split|]. split; [simpl; lia|]. by split. Qed.




(** C2 — index-map soundness.  The scan over a sequence of vertex hashes, one
    hash per vertex, finishes with [old_to_new] and [new_to_old] such that:
    [old_to_new] has one entry per vertex and is onto the indices of
    [new_to_old]; [old_to_new[new_to_old[j]] = j]; the first occurrence of a
    hash gets as new index the number of distinct hashes before it, and is
    its representative; and equal hashes map to the same new index. *)
Theorem index_map_sound {K : Type} `{Countable K} (numVertices : nat) (hashes : list K) :
  numVertices = length hashes →
  ∃ old_to_new new_to_old,
    remove_duplicate_vertices numVertices hashes
    = Done (old_to_new, new_to_old, length new_to_old) ∧
    length old_to_new = length hashes ∧
    (∀ i j, old_to_new !! i = Some j → j < length new_to_old) ∧
    (∀ j, j < length new_to_old → ∃ i, old_to_new !! i = Some j) ∧
    (∀ j r, new_to_old !! j = Some r → old_to_new !! r = Some j) ∧
    (∀ i, is_first_occurrence hashes i →
       old_to_new !! i = Some (length (first_occurrences (take i hashes))) ∧
       new_to_old !! length (first_occurrences (take i hashes)) = Some i) ∧
    (∀ i i' h, hashes !! i = Some h → hashes !! i' = Some h →
       old_to_new !! i = old_to_new !! i').
Proof.
  intros ->.
  destruct (remove_duplicate_vertices_inv hashes) as (st & Hst & Hrun).
  pose proof Hst as (Hlen & Hidx & Hinv & Hk & Hv).
  exists (v_map st), (v_map_inverse st). split; [done|]. split; [done|].
  assert (∀ j r, v_map_inverse st !! j = Some r → v_map st !! r = Some j) as Hback.
  { intros j r Hj.
    assert (is_first_occurrence hashes r) as Hr.
    { apply elem_of_first_occurrences. rewrite <- Hinv.
      apply list_elem_of_lookup. by exists j. }
    pose proof Hr as (h & Hh & _).
    destruct (Hv r h Hh) as (j' & Hj' & Hkj').
    apply Hk in Hkj' as (r' & Hr' & Hh').
    assert (is_first_occurrence hashes r') as Hfr'.
    { apply elem_of_first_occurrences. rewrite <- Hinv.
      apply list_elem_of_lookup. by exists j'. }
    assert (r = r') as <- by (by eapply is_first_occurrence_inj).
    assert (j = j') as <-; [|done].
    eapply NoDup_lookup; [|exact Hj|exact Hr'].
    rewrite Hinv. apply NoDup_first_occurrences. }
  split; [|split; [|split; [done|split]]].
  - intros i j Hi.
    destruct (lookup_lt_is_Some_2 hashes i) as [h Hh].
    { apply lookup_lt_Some in Hi. lia. }
    destruct (Hv i h Hh) as (j' & Hj' & Hkj').
    assert (j = j') as <- by congruence.
    apply Hk in Hkj' as (r & Hr & _). by eapply lookup_lt_Some.
  - intros j Hj. destruct (lookup_lt_is_Some_2 _ _ Hj) as [r Hr].
    exists r. by apply Hback.
  - intros i Hi. pose proof (first_occurrences_lookup hashes i Hi) as Hpos.
    rewrite <- Hinv in Hpos. split; [by apply Hback|done].
  - intros i i' h Hi Hi'.
    destruct (Hv i h Hi) as (j & -> & Hj).
    destruct (Hv i' h Hi') as (j' & -> & Hj'). congruence.
Qed.

Lemma index_map_sound_witness :
  ∃ old_to_new new_to_old,
    remove_duplicate_vertices 5 [7; 3; 7; 9; 3]
    = Done (old_to_new, new_to_old, length new_to_old) ∧
    length old_to_new = 5 ∧
    (∀ i j, old_to_new !! i = Some j → j < length new_to_old) ∧
    (∀ j, j < length new_to_old → ∃ i, old_to_new !! i = Some j) ∧
    (∀ j r, new_to_old !! j = Some r → old_to_new !! r = Some j) ∧
    (∀ i, is_first_occurrence [7; 3; 7; 9; 3] i →
       old_to_new !! i = Some (length (first_occurrences (take i [7; 3; 7; 9; 3]))) ∧
       new_to_old !! length (first_occurrences (take i [7; 3; 7; 9; 3])) = Some i) ∧
    (∀ i i' h, [7; 3; 7; 9; 3] !! i = Some h → [7; 3; 7; 9; 3] !! i' = Some h →
       old_to_new !! i = old_to_new !! i').
Proof. apply (index_map_sound 5 [7; 3; 7; 9; 3]). reflexivity. Defined.

(** X1 — a truncated instruction.  When the byte under the cursor is a
    recognized opcode and the data ends before its last operand, [parseMopp]
    raises [IndexError]. *)
Theorem parseMopp_truncated_operand (self : bhkMoppBvTreeShape)
    (start depth toffset code n : nat) :
  start < moppDataSize self → moppData self !! start = Some code →
  operand_count (opcode_kind_of code) = Some n →
  length (moppData self) ≤ start + n →
  (parseMopp self start depth toffset).2 = Raised IndexError.
Proof. apply parseMopp_truncated. Qed.

Lemma parseMopp_truncated_operand_witness :
  (parseMopp truncated_offset_short 3 0 0).2 = Raised IndexError.
Proof.
  apply (parseMopp_truncated_operand truncated_offset_short 3 0 0 0x0A 2).
  - simpl. lia.
  - reflexivity.
  - reflexivity.
  - simpl. lia.
Defined.

(** X2 — the offsets [parseMopp] lists.  When decoding finishes, every byte
    offset in the list it returns is an offset of the data, at or after the
    start offset. *)
Theorem parseMopp_ids_in_data (self : bhkMoppBvTreeShape)
    (start depth toffset : nat) log ids tris :
  parseMopp self start depth toffset = (log, Done (ids, tris)) →
  Forall (λ i, start ≤ i < length (moppData self)) ids.
Proof.
  intros Hrun.
  apply (parseMopp_loop_ids_within self (S (moppDataSize self - start)) depth
           start toffset [] [] start (Nat.le_refl _) (Forall_nil_2 _) (ids, tris)).
  unfold parseMopp in Hrun. by rewrite Hrun.
Qed.

Lemma parseMopp_ids_in_data_witness :
  Forall (λ i, 1 ≤ i < 6) [1; 2; 3; 4].
Proof.
  apply (parseMopp_ids_in_data (mopp_of [0x30; 0x09; 1; 0x50; 7; 9]) 1 0 0
           [PrOpcode 1 0 9; PrOffsetInc [1] 1; PrOpcode 3 0 0x50; PrTriangle [7] 8]
           [1; 2; 3; 4] [8]).
  reflexivity.
Defined.

(** X3 — the buffer [updateMopp] writes.  When [updateMopp] succeeds on a
    shape with [n] triangles, the size field equals the length of the data,
    every entry is a byte, the length is [10 + 5(n-1) + 2((n-1) div 32)]
    (nine bytes of bounds, five per test, two per offset increment and the
    last leaf), and the shape data, origin and scale are left as they were. *)
Theorem updateMopp_buffer (self self' : bhkMoppBvTreeShape) :
  updateMopp self = Done self' →
  let n := length (pk_triangles (shape_data self)) in
  moppDataSize self' = length (moppData self') ∧
  Forall is_byte (moppData self') ∧
  length (moppData self') = 10 + 5 * (n - 1) + 2 * ((n - 1) / 32) ∧
  shape_data self' = shape_data self ∧
  origin self' = origin self ∧ scale self' = scale self.
Proof.
  intros Hup n.
  destruct (updateMopp_Done _ _ Hup) as (maxx & maxy & maxz & Hx & Hy & Hz & ->).
  cbn [set_mopp moppDataSize moppData shape_data origin scale].
  split; [done|]. split; [by apply trivial_tree_bytes|].
  split; [|done].
  rewrite length_trivial_tree by lia. fold n. cbn [length app].
  rewrite Nat.sub_diag, Nat.add_0_r. lia.
Qed.

Lemma updateMopp_buffer_witness :
  let self' := set_mopp (scaled_unit_shape 3)
                 [0x28; 0; 255; 0x27; 0; 175; 0x26; 0; 96;
                  0x12; 255; 0; 1; 0x30; 0x12; 255; 0; 1; 0x31; 0x32] in
  moppDataSize self' = length (moppData self') ∧
  Forall is_byte (moppData self') ∧
  length (moppData self') = 10 + 5 * (3 - 1) + 2 * ((3 - 1) / 32) ∧
  shape_data self' = shape_data (scaled_unit_shape 3) ∧
  origin self' = origin (scaled_unit_shape 3) ∧
  scale self' = scale (scaled_unit_shape 3).
Proof.
  apply (updateMopp_buffer (scaled_unit_shape 3)). vm_compute. reflexivity.
Defined.

(** X4 — no triangle at all.  On a shape with an empty triangle list the
    loop of [updateMopp] does not run and the closing leaf is still written:
    decoding the buffer gives the one triangle index 0. *)
Theorem updateMopp_no_triangles (self self' : bhkMoppBvTreeShape) :
  pk_triangles (shape_data self) = [] →
  updateMopp self = Done self' →
  length (moppData self') = 10 ∧
  ∃ log ids, parseMopp self' 0 0 0 = (log, Done (ids, [0])).
Proof.
  intros Hn Hup.
  destruct (updateMopp_Done _ _ Hup) as (maxx & maxy & maxz & Hx & Hy & Hz & ->).
  rewrite Hn. cbn [length Nat.sub]. split; [reflexivity|].
  destruct (parseMopp_assemble
              (set_mopp self (assemble (trivial_mopp maxx maxy maxz 0)))
              (trivial_mopp maxx maxy maxz 0) 0 0)
    as [log Hlog]; [by apply trivial_mopp_ok|done|done|].
  exists log, (tree_ids (trivial_mopp maxx maxy maxz 0) 0). exact Hlog.
Qed.

Lemma updateMopp_no_triangles_witness :
  length (moppData (set_mopp (scaled_unit_shape 0)
                      [0x28; 0; 255; 0x27; 0; 175; 0x26; 0; 96; 0x30])) = 10 ∧
  ∃ log ids,
    parseMopp (set_mopp (scaled_unit_shape 0)
                 [0x28; 0; 255; 0x27; 0; 175; 0x26; 0; 96; 0x30]) 0 0 0
    = (log, Done (ids, [0])).
Proof.
  apply (updateMopp_no_triangles (scaled_unit_shape 0)).
  - reflexivity.
  - vm_compute. reflexivity.
Defined.

(** X5 — the errors of [updateMopp] before its range checks.  With a zero
    scale the first division raises [ZeroDivisionError], whatever the
    vertices are; with a non-zero scale and no vertex, [max] of the empty
    list raises [ValueError]. *)
Theorem updateMopp_early_errors (self : bhkMoppBvTreeShape) :
  ((scale self =? 0)%float = true → updateMopp self = Raised ZeroDivisionError) ∧
  ((scale self =? 0)%float = false → pk_vertices (shape_data self) = [] →
   updateMopp self = Raised (ValueError "max() arg is an empty sequence")).
Proof.
  split.
  - intros Hs. unfold updateMopp, py_div. by rewrite Hs.
  - intros Hs Hv. unfold updateMopp. rewrite (py_div_Done _ _ Hs), Hv.
    reflexivity.
Qed.

Lemma updateMopp_early_errors_witness :
  updateMopp zero_scale_shape = Raised ZeroDivisionError ∧
  updateMopp no_vertex_shape
  = Raised (ValueError "max() arg is an empty sequence").
Proof.
  split.
  - apply (updateMopp_early_errors zero_scale_shape). reflexivity.
  - apply (updateMopp_early_errors no_vertex_shape); reflexivity.
Defined.




(** X7 — the length of [v_map].  When there are more hashes than
    [numVertices], the scan raises [IndexError] (at the first index past
    [v_map]); when there are at most [numVertices] hashes it finishes, with
    [v_map] of length [numVertices] and [v_map_inverse] the first positions of
    the distinct hashes. *)
Theorem remove_duplicate_vertices_map_length {K : Type} `{Countable K}
    (numVertices : nat) (hashes : list K) :
  (numVertices < length hashes →
   remove_duplicate_vertices numVertices hashes = Raised IndexError) ∧
  (length hashes ≤ numVertices →
   ∃ old_to_new new_to_old,
     remove_duplicate_vertices numVertices hashes
     = Done (old_to_new, new_to_old, length new_to_old) ∧
     length old_to_new = numVertices ∧
     new_to_old = first_occurrences hashes).
Proof.
  split.
  - apply remove_duplicate_vertices_short.
  - intros Hn. destruct (remove_duplicate_vertices_long numVertices hashes Hn)
      as (st & (Hlen & _ & Hinv & _) & Hrun).
    by exists (v_map st), (v_map_inverse st).
Qed.

Lemma remove_duplicate_vertices_map_length_witness :
  remove_duplicate_vertices 2 [7; 3; 9] = Raised IndexError ∧
  ∃ old_to_new new_to_old,
    remove_duplicate_vertices 4 [7; 3; 7]
    = Done (old_to_new, new_to_old, length new_to_old) ∧
    length old_to_new = 4 ∧ new_to_old = first_occurrences [7; 3; 7].
Proof.
  split.
  - apply (remove_duplicate_vertices_map_length 2 [7; 3; 9]). simpl. lia.
  - apply (remove_duplicate_vertices_map_length 4 [7; 3; 7]). simpl. lia.
Defined.

(** X8 — nothing to merge.  On a sequence of pairwise distinct hashes the
    scan gives the identity for both maps and keeps the vertex count. *)
Theorem remove_duplicate_vertices_distinct {K : Type} `{Countable K}
    (hashes : list K) :
  NoDup hashes →
  remove_duplicate_vertices (length hashes) hashes
  = Done (seq 0 (length hashes), seq 0 (length hashes), length hashes).
Proof. apply remove_duplicate_vertices_NoDup. Qed.

Lemma remove_duplicate_vertices_distinct_witness :
  remove_duplicate_vertices 3 [7; 3; 9] = Done ([0; 1; 2], [0; 1; 2], 3).
Proof.
  apply (remove_duplicate_vertices_distinct [7; 3; 9]).
  apply (bool_decide_unpack _). by vm_compute.
Defined.

(** X9 — the new vertex count.  When the scan over one hash per vertex
    finishes, the new vertex count is the number of distinct hashes, it is
    not above the old count, and it is the length of [v_map_inverse]. *)
Theorem remove_duplicate_vertices_count {K : Type} `{Countable K}
    (hashes : list K) old_to_new new_to_old new_numvertices :
  remove_duplicate_vertices (length hashes) hashes
  = Done (old_to_new, new_to_old, new_numvertices) →
  new_numvertices = size (list_to_set hashes : gset K) ∧
  new_numvertices ≤ length hashes ∧
  new_numvertices = length new_to_old.
Proof.
  destruct (remove_duplicate_vertices_inv hashes)
    as (st & (_ & _ & Hinv & _) & ->).
  intros [= <- <- <-]. rewrite Hinv.
  split; [apply length_first_occurrences|].
  split; [apply length_first_occurrences_le|done].
Qed.

Lemma remove_duplicate_vertices_count_witness :
  3 = size (list_to_set [7; 3; 7; 9; 3] : gset nat) ∧ 3 ≤ 5 ∧ 3 = length [0; 1; 3].
Proof.
  apply (remove_duplicate_vertices_count [7; 3; 7; 9; 3] [0; 1; 0; 2; 1] [0; 1; 3] 3).
  vm_compute. reflexivity.
Defined.

(** X10 — a second scan finds nothing.  Let the scan finish on [hashes], and
    let [hashes'] be the hashes of the compacted vertices: one per new index,
    equal to the hash at the representative.  The scan over [hashes'] gives
    the identity maps and the same count. *)
Theorem remove_duplicate_vertices_twice {K : Type} `{Countable K}
    (hashes hashes' : list K) old_to_new new_to_old n' :
  remove_duplicate_vertices (length hashes) hashes
  = Done (old_to_new, new_to_old, n') →
  length hashes' = n' →
  (∀ j r, new_to_old !! j = Some r → hashes' !! j = hashes !! r) →
  remove_duplicate_vertices n' hashes' = Done (seq 0 n', seq 0 n', n').
Proof.
  destruct (remove_duplicate_vertices_inv hashes)
    as (st & (_ & _ & Hinv & _) & ->).
  intros [= <- <- <-] Hlen Hcopy. rewrite Hinv in *.
  rewrite <- Hlen. apply remove_duplicate_vertices_NoDup.
  by apply (representatives_NoDup hashes).
Qed.

Lemma remove_duplicate_vertices_twice_witness :
  remove_duplicate_vertices 3 [7; 3; 9] = Done (seq 0 3, seq 0 3, 3).
Proof.
  apply (remove_duplicate_vertices_twice [7; 3; 7; 9; 3] [7; 3; 9]
           [0; 1; 0; 2; 1] [0; 1; 3] 3).
  - vm_compute. reflexivity.
  - reflexivity.
  - intros j r Hj. destruct j as [|[|[|j]]]; simplify_eq/=; done.
Defined.

(** X11 — [cleanreflist].  The cleaned list has no duplicate, holds exactly
    the blocks the input list refers to, one message is sent per entry
    removed, and the [changed] flag is raised exactly when an entry was
    removed (it is never cleared). *)
Theorem cleanreflist_spec {B : Type} `{EqDecision B}
    (st : spell_log) (reflist : list (option B)) (category : string) :
  let r := cleanreflist st reflist category in
  NoDup r.2 ∧
  (∀ b, b ∈ r.2 ↔ Some b ∈ reflist) ∧
  length r.2 ≤ length reflist ∧
  length (messages r.1) = length (messages st) + (length reflist - length r.2) ∧
  changed r.1 = changed st || bool_decide (length r.2 < length reflist).
Proof.
  pose proof (cleanreflist_loop_spec st [] reflist category NoDup_nil_2)
    as (H1 & H2 & _ & H4 & H5 & H6).
  cbv zeta. unfold cleanreflist. cbn [length plus] in *.
  split; [done|]. split; [|done].
  intros b. rewrite H2, elem_of_nil. tauto.
Qed.

(** X12 — cleaning twice.  Cleaning a list that is already clean gives the
    same list, sends no message and leaves the [changed] flag as it is; in
    particular this holds for the result of [cleanreflist]. *)
Theorem cleanreflist_idempotent {B : Type} `{EqDecision B}
    (st st' : spell_log) (reflist : list (option B)) (category category' : string) :
  let cleanlist := (cleanreflist st reflist category).2 in
  cleanreflist st' (Some <$> cleanlist) category' = (st', cleanlist).
Proof.
  cbv zeta. unfold cleanreflist at 1.
  rewrite cleanreflist_loop_clean; [done|]. cbn [app].
  apply (cleanreflist_loop_spec st [] reflist category NoDup_nil_2).
Qed.

(** X13 — blocks the merge spell leaves alone.  For a property that carries
    a controller, and for a shader property, [branchentry] makes no call to
    [replace_global_node], whatever interchangeable branches were visited
    before: the branch is added to the visited branches, the flag and the
    messages stay as they are, and the recursion goes on. *)
Theorem merge_branchentry_excluded {B : Type} `{EqDecision B}
    (is_interchangeable : B → B → bool)
    (is_NiProperty has_controller is_BSShaderProperty : B → bool)
    (st : merge_spell) (branch : B) :
  merge_excluded is_NiProperty has_controller is_BSShaderProperty branch = true →
  merge_branchentry is_interchangeable is_NiProperty has_controller
    is_BSShaderProperty st branch
  = ({| branches := branches st ++ [branch]; merge_log := merge_log st;
        replaced := replaced st |}, true).
Proof.
  intros Hex. unfold merge_branchentry.
  by rewrite merge_loop_excluded.
Qed.

Lemma merge_branchentry_excluded_witness :
  demo_merge_branchentry demo_merge_spell 13
  = ({| branches := [12; 33; 52; 150; 13];
        merge_log := {| changed := false; messages := [] |};
        replaced := [] |}, true).
Proof.
  apply (merge_branchentry_excluded (λ a b, a mod 10 =? b mod 10) (λ b, b <? 100)
           Nat.odd (λ b, 200 <=? b) demo_merge_spell 13).
  reflexivity.
Defined.

(** X14 — the first interchangeable branch wins.  For any other block: when
    some branch visited before is a different block and interchangeable, the
    first such branch in visiting order replaces it, by one call
    [replace_global_node(branch, first)], the flag is raised, one message is
    sent, the visited branches stay as they are and the recursion stops;
    when there is none, the branch is added to the visited branches, nothing
    else changes and the recursion goes on. *)
Theorem merge_branchentry_first_wins {B : Type} `{EqDecision B}
    (is_interchangeable : B → B → bool)
    (is_NiProperty has_controller is_BSShaderProperty : B → bool)
    (st : merge_spell) (branch : B) :
  merge_excluded is_NiProperty has_controller is_BSShaderProperty branch = false →
  merge_branchentry is_interchangeable is_NiProperty has_controller
    is_BSShaderProperty st branch
  = match merge_candidates is_interchangeable st branch with
    | [] =>
        ({| branches := branches st ++ [branch]; merge_log := merge_log st;
            replaced := replaced st |}, true)
    | first :: _ =>
        ({| branches := branches st;
            merge_log := {| changed := true;
                            messages := messages (merge_log st)
                                          ++ ["removing duplicate branch"] |};
            replaced := replaced st ++ [(branch, Some first)] |}, false)
    end.
Proof.
  intros Hex. unfold merge_branchentry, merge_candidates.
  rewrite merge_loop_candidates by done.
  by destruct (filter _ (branches st)).
Qed.

Lemma merge_branchentry_first_wins_witness :
  demo_merge_branchentry demo_merge_spell 152
  = ({| branches := [12; 33; 52; 150];
        merge_log := {| changed := true; messages := ["removing duplicate branch"] |};
        replaced := [(152, Some 12)] |}, false).
Proof.
  unfold demo_merge_branchentry.
  rewrite (merge_branchentry_first_wins (λ a b, a mod 10 =? b mod 10) (λ b, b <? 100)
             Nat.odd (λ b, 200 <=? b) demo_merge_spell 152) by reflexivity.
  vm_compute. reflexivity.
Defined.


(** X15 — re-pointing a strip.  Unless the strip is a single index that
    [v_map] does not cover, the loop over a strip finishes; it warns once for
    each index that [v_map] does not cover, in order; the strip keeps its
    length; an index that [v_map] covers is replaced by its image; an
    uncovered index after the first is replaced by the new value of the entry
    before it; an uncovered first index is replaced by the second entry as it
    stands, not by its image. *)
Theorem remap_strip_repairs (v_map strip : list nat) :
  length strip ≠ 1 ∨ (∃ c k, strip !! 0 = Some c ∧ v_map !! c = Some k) →
  ∃ res,
    remap_strip v_map strip = (bad_indices v_map strip, Done res) ∧
    length res = length strip ∧
    ∀ j cur, strip !! j = Some cur →
      match v_map !! cur with
      | Some k => res !! j = Some k
      | None => res !! j = if decide (j = 0) then strip !! 1 else res !! (j - 1)
      end.
Proof. apply remap_strip_spec. Qed.

Lemma remap_strip_repairs_witness :
  ∃ res,
    remap_strip [0; 1; 0; 2] [7; 3; 9; 1] = (bad_indices [0; 1; 0; 2] [7; 3; 9; 1], Done res) ∧
    length res = 4 ∧
    ∀ j cur, [7; 3; 9; 1] !! j = Some cur →
      match [0; 1; 0; 2] !! cur with
      | Some k => res !! j = Some k
      | None => res !! j = if decide (j = 0) then [7; 3; 9; 1] !! 1 else res !! (j - 1)
      end.
Proof. apply (remap_strip_repairs [0; 1; 0; 2] [7; 3; 9; 1]). left. simpl. lia. Defined.

(** X16 — a strip whose first index is covered.  When [v_map] covers the
    first index of the strip (or the strip is empty) and every entry of
    [v_map] is below [n], the loop finishes and every index of the strip is
    below [n] afterwards, whatever the other indices were. *)
Theorem remap_strip_valid (v_map strip : list nat) (n : nat) :
  (∀ c, strip !! 0 = Some c → is_Some (v_map !! c)) →
  Forall (λ k, k < n) v_map →
  ∃ res, (remap_strip v_map strip).2 = Done res ∧ Forall (λ k, k < n) res.
Proof.
  intros Hfirst Hmap.
  destruct (remap_strip_spec v_map strip) as (res & Hrun & Hlen & Hres).
  { destruct strip as [|c rest]; [left; done|]. right.
    destruct (Hfirst c eq_refl) as [k Hk]. by exists c, k. }
  exists res. rewrite Hrun. split; [done|].
  apply Forall_lookup. intros j. induction j as [j IH] using lt_wf_ind.
  intros x Hx.
  destruct (lookup_lt_is_Some_2 strip j) as [cur Hcur].
  { apply lookup_lt_Some in Hx. lia. }
  specialize (Hres j cur Hcur). destruct (v_map !! cur) as [k|] eqn:Ek.
  - assert (x = k) as -> by congruence. exact (Forall_lookup_1 _ _ _ _ Hmap Ek).
  - destruct (decide (j = 0)) as [->|Hj].
    + destruct (Hfirst cur Hcur) as [k Hk]. congruence.
    + apply (IH (j - 1)); [lia|congruence].
Qed.

Lemma remap_strip_valid_witness :
  ∃ res, (remap_strip [0; 1; 0; 2] [3; 7; 9; 1]).2 = Done res ∧ Forall (λ k, k < 3) res.
Proof.
  apply (remap_strip_valid [0; 1; 0; 2] [3; 7; 9; 1] 3).
  - intros c [= <-]. by exists 2.
  - apply (bool_decide_unpack _). by vm_compute.
Defined.

(** X17 — a strip whose first index is not covered.  When [v_map] does not
    cover the first index [c]: the strip [[c]] makes the handler itself raise
    [IndexError], after the warning; a longer strip is repaired, and its
    first entry is then the old second index [nx], which need not be a new
    index. *)
Theorem remap_strip_bad_first (v_map : list nat) (c : nat) :
  v_map !! c = None →
  remap_strip v_map [c] = ([c], Raised IndexError) ∧
  ∀ nx rest, ∃ res,
    (remap_strip v_map (c :: nx :: rest)).2 = Done (nx :: res) ∧
    length res = S (length rest).
Proof.
  intros Hc. split.
  - unfold remap_strip. cbn [length remap_strip_loop]. cbn [lookup list_lookup].
    rewrite Hc. done.
  - intros nx rest.
    destruct (remap_strip_spec v_map (c :: nx :: rest)) as (res & Hrun & Hlen & Hres).
    { left. cbn [length]. lia. }
    specialize (Hres 0 c eq_refl). rewrite Hc in Hres.
    rewrite decide_True in Hres by done.
    destruct res as [|x res]; [done|]. injection Hres as ->.
    exists res. rewrite Hrun. split; [done|]. cbn [length] in Hlen. lia.
Qed.

Lemma remap_strip_bad_first_witness :
  remap_strip [0; 1; 0; 2] [7] = ([7], Raised IndexError) ∧
  ∀ nx rest, ∃ res,
    (remap_strip [0; 1; 0; 2] (7 :: nx :: rest)).2 = Done (nx :: res) ∧
    length res = S (length rest).
Proof. apply (remap_strip_bad_first [0; 1; 0; 2] 7). reflexivity. Defined.

(** X18 — re-pointing triangles, and strips in the old spell, has no
    handler.  The loop over the triangles finishes exactly when every corner
    is an index of [v_map], and then every corner is replaced by its image;
    a corner past the end of [v_map] raises [IndexError].  The same holds for
    the strip loop of the old [optimizeTriBasedGeom]. *)
Theorem remap_unchecked (v_map : list nat) (tris : list (nat * nat * nat))
    (strip : list nat) :
  (Forall (λ tri : nat * nat * nat,
             tri.1.1 < length v_map ∧ tri.1.2 < length v_map ∧ tri.2 < length v_map) tris →
   ∃ tris', remap_triangles v_map tris = Done tris' ∧
     Forall2 (λ tri tri' : nat * nat * nat,
                v_map !! tri.1.1 = Some tri'.1.1 ∧
                v_map !! tri.1.2 = Some tri'.1.2 ∧
                v_map !! tri.2 = Some tri'.2) tris tris') ∧
  (Exists (λ tri : nat * nat * nat,
             length v_map ≤ tri.1.1 ∨ length v_map ≤ tri.1.2 ∨ length v_map ≤ tri.2) tris →
   remap_triangles v_map tris = Raised IndexError) ∧
  (Forall (λ v, v < length v_map) strip →
   ∃ strip', remap_strip_unchecked v_map strip = Done strip' ∧
     Forall2 (λ v k, v_map !! v = Some k) strip strip') ∧
  (Exists (λ v, length v_map ≤ v) strip →
   remap_strip_unchecked v_map strip = Raised IndexError).
Proof.
  split; [apply remap_triangles_Done|]. split; [apply remap_triangles_Raised|].
  split.
  - induction 1 as [|v strip Hv Hstrip (strip' & IH & Hall)];
      cbn [remap_strip_unchecked].
    { exists []. split; [done|constructor]. }
    destruct (lookup_lt_is_Some_2 v_map v Hv) as [k Ek].
    exists (k :: strip'). split; [|by constructor].
    unfold getitem. rewrite Ek. cbn. rewrite IH. done.
  - induction strip as [|v strip IH]; intros Hex; [by apply Exists_nil in Hex|].
    cbn [remap_strip_unchecked]. unfold getitem.
    destruct (v_map !! v) as [k|] eqn:Ek; [|done].
    apply Exists_cons in Hex as [Hbad|Hex].
    + apply lookup_lt_Some in Ek. lia.
    + cbn. rewrite (IH Hex). done.
Qed.

Lemma remap_unchecked_witness :
  (∃ tris', remap_triangles [0; 1; 0; 2] [(0, 1, 2); (2, 3, 1)] = Done tris' ∧
     Forall2 (λ tri tri' : nat * nat * nat,
                [0; 1; 0; 2] !! tri.1.1 = Some tri'.1.1 ∧
                [0; 1; 0; 2] !! tri.1.2 = Some tri'.1.2 ∧
                [0; 1; 0; 2] !! tri.2 = Some tri'.2) [(0, 1, 2); (2, 3, 1)] tris') ∧
  remap_triangles [0; 1; 0; 2] [(0, 1, 2); (2, 7, 1)] = Raised IndexError ∧
  remap_strip_unchecked [0; 1; 0; 2] [3; 7; 1] = Raised IndexError.
Proof.
  destruct (remap_unchecked [0; 1; 0; 2] [(0, 1, 2); (2, 3, 1)] []) as (Hok & _).
  destruct (remap_unchecked [0; 1; 0; 2] [(0, 1, 2); (2, 7, 1)] [3; 7; 1])
    as (_ & Hbad & _ & Hstrip).
  split; [|split].
  - apply Hok. apply (bool_decide_unpack _). by vm_compute.
  - apply Hbad. apply (bool_decide_unpack _). by vm_compute.
  - apply Hstrip. apply (bool_decide_unpack _). by vm_compute.
Defined.

(** X19 — the optimized mesh stands for the old one.  With one hash and one
    attribute value per vertex and every triangle corner an old vertex index,
    the scan, the copy of the attribute and the rewrite of the triangles all
    finish; there is one new vertex per distinct hash; and every corner of
    every triangle then refers to a new vertex that carries the attribute of
    the first old vertex with the same hash as the vertex the corner
    referred to. *)
Theorem optimize_keeps_corners {K A : Type} `{Countable K} (numVertices : nat)
    (hashes : list K) (old : list A) (tris : list (nat * nat * nat)) :
  length hashes = numVertices →
  length old = numVertices →
  Forall (λ tri : nat * nat * nat,
            tri.1.1 < numVertices ∧ tri.1.2 < numVertices ∧ tri.2 < numVertices) tris →
  ∃ new tris',
    optimize_vertices_and_triangles numVertices hashes old tris = Done (new, tris') ∧
    length new = size (list_to_set hashes : gset K) ∧
    Forall2 (λ tri tri' : nat * nat * nat,
               corner_kept hashes old new tri.1.1 tri'.1.1 ∧
               corner_kept hashes old new tri.1.2 tri'.1.2 ∧
               corner_kept hashes old new tri.2 tri'.2) tris tris'.
Proof.
  intros <- Hold Htris.
  destruct (remove_duplicate_vertices_inv hashes) as (st & Hst & Hrun).
  pose proof Hst as (Hlen & Hidx & Hinv & Hk & Hv).
  destruct (copy_old_loop_Done (v_map_inverse st) old 0 (length (v_map_inverse st)))
    as (new & Hnew & Hnewlen & _); [lia| |].
  { apply Forall_lookup. intros j r Hj. rewrite Hold.
    by eapply scan_inv_representative. }
  destruct (remap_triangles_Done (v_map st) tris) as (tris' & Htris' & Hall).
  { by rewrite Hlen. }
  exists new, tris'. split; [|split].
  - unfold optimize_vertices_and_triangles. rewrite Hrun. cbn.
    unfold copy_old. rewrite Hnew. cbn. rewrite Htris'. done.
  - rewrite Hnewlen, Hinv. apply length_first_occurrences.
  - eapply Forall2_impl; [exact Hall|].
    intros tri tri' (H1 & H2 & H3).
    split; [|split]; by eapply scan_inv_corner_kept.
Qed.

Lemma optimize_keeps_corners_witness :
  ∃ new tris',
    optimize_vertices_and_triangles 5 [7; 3; 7; 9; 3]
      ["a"; "b"; "c"; "d"; "e"]%string [(0, 1, 3); (2, 4, 3)] = Done (new, tris') ∧
    length new = size (list_to_set [7; 3; 7; 9; 3] : gset nat) ∧
    Forall2 (λ tri tri' : nat * nat * nat,
               corner_kept [7; 3; 7; 9; 3] ["a"; "b"; "c"; "d"; "e"]%string new tri.1.1 tri'.1.1 ∧
               corner_kept [7; 3; 7; 9; 3] ["a"; "b"; "c"; "d"; "e"]%string new tri.1.2 tri'.1.2 ∧
               corner_kept [7; 3; 7; 9; 3] ["a"; "b"; "c"; "d"; "e"]%string new tri.2 tri'.2)
      [(0, 1, 3); (2, 4, 3)] tris'.
Proof.
  apply (optimize_keeps_corners 5 [7; 3; 7; 9; 3] ["a"; "b"; "c"; "d"; "e"]%string
           [(0, 1, 3); (2, 4, 3)]).
  - reflexivity.
  - reflexivity.
  - apply (bool_decide_unpack _). by vm_compute.
Defined.


(** X20 — [optimize_keys] keeps the ends and the values.  For every kind of
    value and every list of keys, [optimize_keys] returns; the keys returned
    are a sublist of the keys given, with the same first and the same last
    key; fewer than three keys are returned as they are; and the values met
    along the keys, a value repeated at once counted one time, are the same
    before and after. *)
Theorem optimize_keys_keeps_ends {Key Qv : Type} `{EqDecision Qv}
    (quant : Key → Qv) (kind : key_kind) (keys : list Key) :
  ∃ new_keys,
    optimize_keys quant kind keys = Done new_keys ∧
    new_keys `sublist_of` keys ∧
    head new_keys = head keys ∧
    last new_keys = last keys ∧
    (length keys < 3 → new_keys = keys) ∧
    squash (quant <$> new_keys) = squash (quant <$> keys).
Proof.
  destruct (decide (length keys < 3)) as [Hlt|Hge].
  { exists keys. unfold optimize_keys. rewrite (proj2 (Nat.ltb_lt _ _) Hlt). done. }
  destruct keys as [|k0 [|k1 [|k2 rest]]]; [cbn in Hge; lia..|].
  assert (kind = KOther ∨ (kind = KScalar ∨ kind = KWord) ∨
          (kind = KVector4 ∨ kind = KVector3)) as [->|[Hkind|Hkind]]
    by (destruct kind; tauto).
  - exists (k0 :: k1 :: k2 :: rest). done.
  - exists (k0 :: thin quant (quant k0) (k1 :: k2 :: rest)).
    split; [exact (optimize_keys_scalar_thin quant kind (k0 :: k1 :: k2 :: rest) Hkind)|].
    split; [apply thin_sublist_cons|]. split; [done|].
    split; [apply last_cons_thin|]. split; [intros; cbn in *; lia|].
    apply (thin_squash quant (quant k0) (k1 :: k2 :: rest)).
  - eexists. split; [by apply optimize_keys_vector_thin|].
    destruct (vector_tail_facts quant k2 rest) as (Hsub & Hlast & [x Hx] & Hsq).
    cbv zeta in *. split; [|split; [done|split; [|split]]].
    + apply sublist_skip. apply (sublist_app _ [k1] _ (k2 :: rest)); [|done].
      destruct (decide _); [apply sublist_nil_l|done].
    + rewrite (last_cons k0), last_app, Hx. rewrite !last_cons_cons.
      by rewrite <- Hlast, Hx.
    + intros; cbn in *; lia.
    + rewrite !fmap_cons, fmap_app. apply squash_cons_ext.
      destruct (decide (quant k1 = quant k2)) as [Heq|Hne]; cbn [fmap list_fmap app].
      * rewrite Hsq, Heq. by rewrite squash_dup.
      * apply squash_cons_ext. exact Hsq.
Qed.

(** X21 — the loops over numbers and strings leave nothing to remove.  In
    the keys [optimize_keys] returns for numbers or for strings, no key has
    the value of both the key before it and the key after it, and
    [optimize_keys] on these keys returns them unchanged. *)
Theorem optimize_keys_scalar_twice {Key Qv : Type} `{EqDecision Qv}
    (quant : Key → Qv) (kind : key_kind) (keys new_keys : list Key) :
  kind = KScalar ∨ kind = KWord →
  optimize_keys quant kind keys = Done new_keys →
  optimize_keys quant kind new_keys = Done new_keys ∧
  ∀ i a b c,
    new_keys !! i = Some a → new_keys !! S i = Some b → new_keys !! S (S i) = Some c →
    ¬ (quant a = quant b ∧ quant c = quant b).
Proof.
  intros Hkind. rewrite (optimize_keys_scalar_thin quant kind keys Hkind).
  intros [= <-]. destruct keys as [|k rest].
  { split; [by rewrite (optimize_keys_scalar_thin quant kind [] Hkind)|].
    by intros []. }
  pose proof (thin_no_triple quant (quant k) rest) as Hno. split.
  - rewrite (optimize_keys_scalar_thin quant kind _ Hkind).
    by rewrite (no_triple_thin quant _ _ Hno).
  - intros i a b c. by apply no_triple_lookup.
Qed.

Lemma optimize_keys_scalar_twice_witness :
  optimize_keys (λ n, n / 10) KScalar [10; 12; 15; 19; 31; 32; 47] = Done [10; 19; 31; 32; 47] ∧
  optimize_keys (λ n, n / 10) KScalar [10; 19; 31; 32; 47] = Done [10; 19; 31; 32; 47].
Proof.
  assert (optimize_keys (λ n, n / 10) KScalar [10; 12; 15; 19; 31; 32; 47]
          = Done [10; 19; 31; 32; 47]) as Hrun by (vm_compute; reflexivity).
  split; [exact Hrun|].
  apply (optimize_keys_scalar_twice (λ n, n / 10) KScalar
           [10; 12; 15; 19; 31; 32; 47] [10; 19; 31; 32; 47]); [by left|exact Hrun].
Defined.

(** X22 — the loops over vectors look one key too far at the start.  On at
    least three keys the loops over vectors and the loops over numbers
    return the first key and, from the fourth key on, the same keys; but the
    loops over vectors keep the second key exactly when its value differs
    from the third key's, whatever the first key is, and keep the third key
    exactly when it is the last or its value differs from the fourth key's,
    whatever the second key is. *)
Theorem optimize_keys_vector_start {Key Qv : Type} `{EqDecision Qv}
    (quant : Key → Qv) (k0 k1 k2 : Key) (rest : list Key) :
  ∃ tail,
    optimize_keys quant KVector3 (k0 :: k1 :: k2 :: rest)
    = Done (k0 :: (if decide (quant k1 = quant k2) then [] else [k1]) ++
                  match rest with
                  | [] => [k2]
                  | k3 :: _ => if decide (quant k2 = quant k3) then [] else [k2]
                  end ++ tail) ∧
    optimize_keys quant KVector4 (k0 :: k1 :: k2 :: rest)
    = optimize_keys quant KVector3 (k0 :: k1 :: k2 :: rest) ∧
    optimize_keys quant KScalar (k0 :: k1 :: k2 :: rest)
    = Done (k0 :: (if decide (quant k0 = quant k1 ∧ quant k2 = quant k1)
                   then [] else [k1]) ++
                  match rest with
                  | [] => [k2]
                  | k3 :: _ =>
                      if decide (quant k1 = quant k2 ∧ quant k3 = quant k2)
                      then [] else [k2]
                  end ++ tail).
Proof.
  exists (thin quant (quant k2) rest).
  rewrite (optimize_keys_vector_thin quant KVector3) by tauto.
  rewrite (optimize_keys_vector_thin quant KVector4) by tauto.
  rewrite (optimize_keys_scalar_thin quant KScalar) by tauto.
  split; [|split; [done|]].
  - by destruct rest.
  - rewrite thin_cons2.
    assert (thin quant (quant k1) (k2 :: rest)
            = match rest with
              | [] => [k2]
              | k3 :: _ =>
                  if decide (quant k1 = quant k2 ∧ quant k3 = quant k2)
                  then [] else [k2]
              end ++ thin quant (quant k2) rest) as ->.
    { destruct rest as [|k3 rest]; [done|]. rewrite thin_cons2.
      by destruct (decide _). }
    by destruct (decide (quant k0 = quant k1 ∧ _)).
Qed.

(** X23 — the loops over vectors can remove a key on a second run.  For six
    keys whose second and third values are equal, whose fourth and fifth
    values are equal, and whose third and fourth, and fifth and sixth values
    differ, the first run removes the second key only, and a run on the
    result removes the first key of the pair that the first run kept. *)
Theorem optimize_keys_vector_twice {Key Qv : Type} `{EqDecision Qv}
    (quant : Key → Qv) (k0 k1 k2 k3 k4 k5 : Key) :
  quant k1 = quant k2 → quant k2 ≠ quant k3 →
  quant k3 = quant k4 → quant k4 ≠ quant k5 →
  optimize_keys quant KVector3 [k0; k1; k2; k3; k4; k5] = Done [k0; k2; k3; k4; k5] ∧
  optimize_keys quant KVector3 [k0; k2; k3; k4; k5] = Done [k0; k2; k4; k5].
Proof.
  intros H12 H23 H34 H45.
  rewrite !(optimize_keys_vector_thin quant KVector3) by tauto.
  cbn [thin app].
  split; repeat case_decide; first [done|exfalso; intuition congruence].
Qed.

Lemma optimize_keys_vector_twice_witness :
  optimize_keys (λ n, n / 10) KVector3 [10; 21; 22; 33; 34; 45] = Done [10; 22; 33; 34; 45] ∧
  optimize_keys (λ n, n / 10) KVector3 [10; 22; 33; 34; 45] = Done [10; 22; 34; 45].
Proof.
  apply (optimize_keys_vector_twice (λ n, n / 10) 10 21 22 33 34 45);
    vm_compute; congruence.
Defined.


(** X24 — the slow way of fixing the subshape counts.  For a shape whose
    [num_sub_shapes] is not 1 the loop finishes and gives every subshape a
    count; the counts of the first [s+1] subshapes add up to the length of
    the longest prefix of [v_map_inverse] whose old indices are strictly
    below the last old index of these subshapes (their old counts added up,
    minus one). *)
Theorem fix_subshape_counts_prefix (num_sub_shapes : nat)
    (sub_shapes v_map_inverse : list nat) :
  num_sub_shapes ≠ 1 →
  ∃ counts,
    fix_subshape_counts num_sub_shapes sub_shapes v_map_inverse = Done counts ∧
    length counts = length sub_shapes ∧
    ∀ s, s < length sub_shapes →
      let k := sum_list (take (S s) counts) in
      let n := sum_list (take (S s) sub_shapes) in
      k ≤ length v_map_inverse ∧
      (∀ j v, j < k → v_map_inverse !! j = Some v → v + 1 < n) ∧
      (∀ v, v_map_inverse !! k = Some v → n ≤ v + 1).
Proof.
  intros Hnum. unfold fix_subshape_counts.
  rewrite (proj2 (Nat.eqb_neq _ _) Hnum).
  destruct (fix_counts_loop_spec v_map_inverse sub_shapes (-1) 0)
    as (counts & Hrun & Hlen & Hall); [lia|intros; lia|].
  exists counts. split; [done|]. split; [done|].
  intros s Hs. destruct (Hall s Hs) as (Hk & Hbelow & Hstop). cbn [Nat.add] in *.
  split; [done|]. split.
  - intros j v Hj Hv. specialize (Hbelow j v Hj Hv). lia.
  - intros v Hv. specialize (Hstop v Hv). lia.
Qed.

Lemma fix_subshape_counts_prefix_witness :
  ∃ counts,
    fix_subshape_counts 2 [3; 2] [0; 1; 2; 4] = Done counts ∧
    length counts = 2 ∧
    ∀ s, s < 2 →
      let k := sum_list (take (S s) counts) in
      let n := sum_list (take (S s) [3; 2]) in
      k ≤ 4 ∧
      (∀ j v, j < k → [0; 1; 2; 4] !! j = Some v → v + 1 < n) ∧
      (∀ v, [0; 1; 2; 4] !! k = Some v → n ≤ v + 1).
Proof. apply (fix_subshape_counts_prefix 2 [3; 2] [0; 1; 2; 4]). lia. Defined.

(** X25 — the slow way loses the last vertex.  Let the shape have a number
    of subshapes other than 1, and let [v_map_inverse] be strictly increasing
    with every old index below the old number of vertices (the old counts
    added up).  When the last old vertex is kept, the new counts add up to
    one less than the new number of vertices; when it is not, they add up to
    the new number of vertices.  The quick way, for one subshape, sets the
    count to the new number of vertices. *)
Theorem fix_subshape_counts_total (num_sub_shapes : nat)
    (sub_shapes v_map_inverse : list nat) :
  num_sub_shapes ≠ 1 →
  sub_shapes ≠ [] →
  StronglySorted lt v_map_inverse →
  Forall (λ v, v < sum_list sub_shapes) v_map_inverse →
  (∃ counts,
     fix_subshape_counts num_sub_shapes sub_shapes v_map_inverse = Done counts ∧
     ((∀ v, v ∈ v_map_inverse → v + 1 ≠ sum_list sub_shapes) →
      sum_list counts = length v_map_inverse) ∧
     ((∃ v, v ∈ v_map_inverse ∧ v + 1 = sum_list sub_shapes) →
      sum_list counts + 1 = length v_map_inverse)) ∧
  ∀ num, fix_subshape_counts 1 [num] v_map_inverse = Done [length v_map_inverse].
Proof.
  intros Hnum Hne Hsorted Hbound. split; [|done].
  unfold fix_subshape_counts. rewrite (proj2 (Nat.eqb_neq _ _) Hnum).
  destruct (fix_counts_loop_total v_map_inverse sub_shapes Hne Hsorted Hbound)
    as (counts & Hrun & _ & Hnone & Hsome).
  by exists counts.
Qed.

Lemma fix_subshape_counts_total_witness :
  (∃ counts,
     fix_subshape_counts 2 [3; 2] [0; 1; 2; 4] = Done counts ∧
     ((∀ v, v ∈ [0; 1; 2; 4] → v + 1 ≠ 5) → sum_list counts = 4) ∧
     ((∃ v, v ∈ [0; 1; 2; 4] ∧ v + 1 = 5) → sum_list counts + 1 = 4)) ∧
  ∀ num, fix_subshape_counts 1 [num] [0; 1; 2; 4] = Done [4].
Proof.
  apply (fix_subshape_counts_total 2 [3; 2] [0; 1; 2; 4]).
  - lia.
  - done.
  - apply (bool_decide_unpack _). by vm_compute.
  - apply (bool_decide_unpack _). by vm_compute.
Defined.


(** X26 — [isequalTriGeomData] is symmetric: comparing [shape1] with
    [shape2] and [shape2] with [shape1] gives the same answer, or the same
    error. *)
Theorem isequalTriGeomData_sym {C A K : Type} `{EqDecision A} `{EqDecision K}
    (isinstance : C → C → bool) (blocks : nat → TriGeomData (C:=C) (A:=A) (K:=K))
    (shape1 shape2 : nat) :
  isequalTriGeomData isinstance blocks shape1 shape2
  = isequalTriGeomData isinstance blocks shape2 shape1.
Proof.
  unfold isequalTriGeomData.
  destruct (decide (shape1 = shape2)) as [->|Hne]; [by rewrite decide_True|].
  rewrite (decide_False (P := shape2 = shape1)) by congruence. cbv zeta.
  rewrite (orb_comm (negb (isinstance (tg_class (blocks shape2)) _))).
  destruct (_ || _); [done|].
  rewrite (attributes_equal_sym _ (blocks shape2)).
  destruct (attributes_equal _ _ _); [|done]. cbn [negb].
  destruct (all_in (tg_verthashes (blocks shape1)) _),
    (all_in (tg_verthashes (blocks shape2)) _); cbn [negb]; try done.
  destruct (hashed_triangles_cases (tg_verthashes (blocks shape1))
              (tg_triangles (blocks shape1))) as [-> | [l1 ->]],
    (hashed_triangles_cases (tg_verthashes (blocks shape2))
       (tg_triangles (blocks shape2))) as [-> | [l2 ->]]; try done.
  cbn. by destruct (all_in l1 l2), (all_in l2 l1).
Qed.

(** X27 — what [isequalTriGeomData] compares.  For two different blocks
    whose triangles refer to vertices that exist, the answer is [True]
    exactly when each is an instance of the other's class, the eleven
    attributes agree, the same vertex hashes occur in both, and the same
    triples of vertex hashes occur as triangles in both; how often, and in
    which order, they occur is not compared. *)
Theorem isequalTriGeomData_true {C A K : Type} `{EqDecision A} `{EqDecision K}
    (isinstance : C → C → bool) (blocks : nat → TriGeomData (C:=C) (A:=A) (K:=K))
    (shape1 shape2 : nat) :
  let s1 := blocks shape1 in
  let s2 := blocks shape2 in
  let in_range (s : TriGeomData) :=
    Forall (λ tri : nat * nat * nat,
              tri.1.1 < length (tg_verthashes s) ∧ tri.1.2 < length (tg_verthashes s) ∧
              tri.2 < length (tg_verthashes s)) (tg_triangles s) in
  let hashed (s : TriGeomData) (h : K * K * K) :=
    ∃ tri, tri ∈ tg_triangles s ∧ tg_verthashes s !! tri.1.1 = Some h.1.1 ∧
           tg_verthashes s !! tri.1.2 = Some h.1.2 ∧ tg_verthashes s !! tri.2 = Some h.2 in
  shape1 ≠ shape2 → in_range s1 → in_range s2 →
  ∃ b, isequalTriGeomData isinstance blocks shape1 shape2 = Done b ∧
    (b = true ↔
     isinstance (tg_class s1) (tg_class s2) = true ∧
     isinstance (tg_class s2) (tg_class s1) = true ∧
     (∀ a, a ∈ trivial_attributes → tg_getattr s1 a = tg_getattr s2 a) ∧
     (∀ h, h ∈ tg_verthashes s1 ↔ h ∈ tg_verthashes s2) ∧
     (∀ h, hashed s1 h ↔ hashed s2 h)).
Proof.
  cbv zeta. intros Hne Hr1 Hr2. unfold isequalTriGeomData.
  rewrite decide_False by done. cbv zeta.
  destruct (isinstance (tg_class (blocks shape1)) _) eqn:E12; cbn [negb orb];
    [|exists false; split; [done|]; split; [done|]; intros (? & _); done].
  destruct (isinstance (tg_class (blocks shape2)) _) eqn:E21; cbn [negb orb];
    [|exists false; split; [done|]; split; [done|]; intros (_ & ? & _); done].
  destruct (attributes_equal _ _ _) eqn:Eattr; cbn [negb].
  2:{ exists false. split; [done|]. split; [done|]. intros (_ & _ & Hattr & _).
      apply attributes_equal_true in Hattr. congruence. }
  pose proof (proj1 (attributes_equal_true _ _ _) Eattr) as Hattr.
  destruct (all_in (tg_verthashes (blocks shape1)) _) eqn:Ev12; cbn [negb].
  2:{ exists false. split; [done|]. split; [done|]. intros (_ & _ & _ & Hv & _).
      assert (all_in (tg_verthashes (blocks shape1)) (tg_verthashes (blocks shape2))
              = true) as Hx by (apply all_in_true; intros h; apply Hv).
      congruence. }
  destruct (all_in (tg_verthashes (blocks shape2)) _) eqn:Ev21; cbn [negb].
  2:{ exists false. split; [done|]. split; [done|]. intros (_ & _ & _ & Hv & _).
      assert (all_in (tg_verthashes (blocks shape2)) (tg_verthashes (blocks shape1))
              = true) as Hx by (apply all_in_true; intros h; apply Hv).
      congruence. }
  pose proof (proj1 (all_in_true _ _) Ev12) as Hv12.
  pose proof (proj1 (all_in_true _ _) Ev21) as Hv21.
  destruct (hashed_triangles_Done _ _ Hr1) as (l1 & -> & Hl1).
  destruct (hashed_triangles_Done _ _ Hr2) as (l2 & -> & Hl2).
  cbn.
  destruct (all_in l1 l2) eqn:Et12; cbn [negb].
  2:{ exists false. split; [done|]. split; [done|]. intros (_ & _ & _ & _ & Ht).
      assert (all_in l1 l2 = true) as Hx.
      { apply all_in_true. intros h Hh. apply Hl2, Ht, Hl1, Hh. }
      congruence. }
  destruct (all_in l2 l1) eqn:Et21; cbn [negb].
  2:{ exists false. split; [done|]. split; [done|]. intros (_ & _ & _ & _ & Ht).
      assert (all_in l2 l1 = true) as Hx.
      { apply all_in_true. intros h Hh. apply Hl1, Ht, Hl2, Hh. }
      congruence. }
  pose proof (proj1 (all_in_true _ _) Et12) as Ht12.
  pose proof (proj1 (all_in_true _ _) Et21) as Ht21.
  exists true. split; [done|]. split; [|done]. intros _.
  split; [done|]. split; [done|]. split; [exact Hattr|]. split.
  - intros h. split; [apply Hv12|apply Hv21].
  - intros h. rewrite <- Hl1, <- Hl2. split; [apply Ht12|apply Ht21].
Qed.

Lemma isequalTriGeomData_true_witness :
  ∃ b,
    isequalTriGeomData Nat.eqb
      (λ n, if n =? 0
            then {| tg_class := 1; tg_getattr := λ _, 0; tg_verthashes := [7; 3; 9];
                    tg_triangles := [(0, 1, 2)] |}
            else {| tg_class := 1; tg_getattr := λ _, 0; tg_verthashes := [9; 7; 3; 7];
                    tg_triangles := [(3, 2, 0); (1, 2, 0)] |}) 0 1 = Done b ∧
    b = true.
Proof.
  destruct (isequalTriGeomData_true Nat.eqb
    (λ n, if n =? 0
          then {| tg_class := 1; tg_getattr := λ _, 0; tg_verthashes := [7; 3; 9];
                  tg_triangles := [(0, 1, 2)] |}
          else {| tg_class := 1; tg_getattr := λ _, 0; tg_verthashes := [9; 7; 3; 7];
                  tg_triangles := [(3, 2, 0); (1, 2, 0)] |}) 0 1)
    as (b & Hb & _).
  - lia.
  - apply (bool_decide_unpack _). by vm_compute.
  - apply (bool_decide_unpack _). by vm_compute.
  - exists b. split; [exact Hb|]. vm_compute in Hb. congruence.
Defined.


(** X28 — [fixTexturePath].  The new file name is the old one with every
    line feed turned into a backslash and the letter n, every carriage
    return into a backslash and the letter r, and every other character
    kept, in the same order.  So afterwards the file name holds neither a
    line feed nor a carriage return, and is longer by their number; the two
    lines printed are the notice and the new name after two blanks, and they
    are printed exactly when the name has changed; and [fixTexturePath] on
    the new name changes and prints nothing. *)
Theorem fixTexturePath_escapes (fileName : string) :
  let r := fixTexturePath fileName in
  list_ascii_of_string r.2
  = flat_map (λ c, if Ascii.eqb c LF then [backslash; "n"%char]
                   else if Ascii.eqb c CR then [backslash; "r"%char]
                   else [c])
      (list_ascii_of_string fileName) ∧
  (r.1 = [] ∨ r.1 = ["fixing corrupted file name"; String.append "  " r.2]%string) ∧
  contains_char LF r.2 = false ∧
  contains_char CR r.2 = false ∧
  String.length r.2
  = String.length fileName + count_char LF fileName + count_char CR fileName ∧
  (r.1 = [] ↔ r.2 = fileName) ∧
  fixTexturePath r.2 = ([], r.2).
Proof.
  cbv zeta.
  assert (contains_char LF (fixTexturePath fileName).2 = false ∧
          contains_char CR (fixTexturePath fileName).2 = false ∧
          String.length (fixTexturePath fileName).2
          = String.length fileName + count_char LF fileName + count_char CR fileName ∧
          ((fixTexturePath fileName).1 = [] ↔ (fixTexturePath fileName).2 = fileName))
    as (Hlf & Hcr & Hlen & Hprint).
  { unfold fixTexturePath.
    destruct (contains_char LF fileName) eqn:Elf;
      [|destruct (contains_char CR fileName) eqn:Ecr]; cbn [orb fst snd].
    - pose proof (length_replace_char CR "\r" (replace_char LF "\n" fileName)) as H1.
      pose proof (length_replace_char LF "\n" fileName) as H2.
      rewrite (count_char_replace_other CR LF "\n") in H1 by done.
      cbn [String.length] in H1, H2.
      pose proof (count_char_pos _ _ Elf) as Hpos.
      split; [|split; [|split]].
      + rewrite contains_char_replace_other by done.
        by apply contains_char_replace_same.
      + by apply contains_char_replace_same.
      + lia.
      + split; [done|]. intros Heq. rewrite Heq in H1. lia.
    - pose proof (length_replace_char CR "\r" (replace_char LF "\n" fileName)) as H1.
      rewrite (replace_char_absent LF) in * by done.
      cbn [String.length] in H1.
      pose proof (count_char_pos _ _ Ecr) as Hpos.
      rewrite (count_char_0 LF) by done.
      split; [|split; [|split]].
      + by rewrite contains_char_replace_other.
      + by apply contains_char_replace_same.
      + lia.
      + split; [done|]. intros Heq. rewrite Heq in H1. lia.
    - rewrite (count_char_0 LF), (count_char_0 CR) by done.
      split; [done|]. split; [done|]. split; [lia|done]. }
  split; [|split; [|split; [done|split; [done|split; [done|split; [done|]]]]]].
  - rewrite fixTexturePath_replaced, !list_ascii_of_replace_char, flat_map_flat_map.
    apply flat_map_ext. intros c.
    destruct (Ascii.eqb c LF) eqn:Elf; [done|].
    cbn [flat_map app]. destruct (Ascii.eqb c CR); done.
  - unfold fixTexturePath.
    destruct (contains_char LF fileName || contains_char CR fileName);
      cbn [fst snd]; [by right|by left].
  - unfold fixTexturePath at 1. by rewrite Hlf, Hcr.
Qed.


(** X29 — merging properties in [testRoot]: the first one wins, and a
    property with a controller stays.  After the loop over the properties of
    a block: the block has as many properties as before; a property that has
    a controller, or whose class is excluded, is still in its place; any
    other property has been replaced by the property that [property_map] now
    holds for its hash; the entries that [property_map] had are unchanged;
    and an entry that is new holds a property of this block with that hash
    that has no controller and is not excluded. *)
Theorem merge_properties_first_wins {P H : Type} `{EqDecision P} `{Countable H}
    (has_controller : P → bool) (class_name : P → string) (excluded : P → bool)
    (hashvalue : P → H) (properties : list P) (property_map : gmap H P) :
  let r := merge_properties has_controller class_name excluded hashvalue
             properties property_map in
  length r.1.1 = length properties ∧
  property_map ⊆ r.1.2 ∧
  (∀ j prop, properties !! j = Some prop →
     if has_controller prop || excluded prop
     then r.1.1 !! j = Some prop
     else is_Some (r.1.1 !! j) ∧ r.1.1 !! j = r.1.2 !! hashvalue prop) ∧
  (∀ h v, r.1.2 !! h = Some v →
     property_map !! h = Some v ∨
     ∃ j, properties !! j = Some v ∧ hashvalue v = h ∧
          has_controller v = false ∧ excluded v = false).
Proof.
  cbv zeta. unfold merge_properties.
  destruct (merge_properties_loop_spec has_controller class_name excluded hashvalue
              (length properties) 0 properties property_map [])
    as (H1 & _ & H3 & H4 & H5); [done|]. cbv zeta in *.
  split; [done|]. split; [done|]. split.
  - intros j prop Hj. apply (H4 j prop); [lia|done].
  - intros h v Hv. destruct (H5 h v Hv) as [?|(j & _ & Hj & Hh & Hskip)]; [by left|].
    right. exists j. apply orb_false_iff in Hskip as [? ?]. done.
Qed.

(** X30 — merging the properties again.  When every entry of [property_map]
    is filed under its own hash and holds a property that has no controller
    and is not excluded, a second run of the loop over the same block, with
    the map the first run left, changes neither the block nor the map, and
    prints nothing. *)
Theorem merge_properties_twice {P H : Type} `{EqDecision P} `{Countable H}
    (has_controller : P → bool) (class_name : P → string) (excluded : P → bool)
    (hashvalue : P → H) (properties : list P) (property_map : gmap H P) :
  (∀ h v, property_map !! h = Some v →
     hashvalue v = h ∧ has_controller v = false ∧ excluded v = false) →
  let r := merge_properties has_controller class_name excluded hashvalue
             properties property_map in
  merge_properties has_controller class_name excluded hashvalue r.1.1 r.1.2
  = (r.1.1, r.1.2, []).
Proof.
  intros Hmap. cbv zeta. unfold merge_properties at 1.
  destruct (merge_properties_loop_spec has_controller class_name excluded hashvalue
              (length properties) 0 properties property_map [])
    as (H1 & _ & H3 & H4 & H5); [done|]. cbv zeta in *.
  fold (merge_properties has_controller class_name excluded hashvalue
          properties property_map) in *.
  set (r := merge_properties has_controller class_name excluded hashvalue
              properties property_map) in *.
  apply merge_properties_loop_fixed. intros j prop' Hj.
  assert (∀ h v, r.1.2 !! h = Some v →
            hashvalue v = h ∧ has_controller v = false ∧ excluded v = false) as Hmap'.
  { intros h v Hv. destruct (H5 h v Hv) as [Hm|(i & _ & Hi & Hh & Hskip)].
    - by apply Hmap.
    - apply orb_false_iff in Hskip as [? ?]. done. }
  destruct (lookup_lt_is_Some_2 properties j) as [prop Hprop].
  { apply lookup_lt_Some in Hj. lia. }
  specialize (H4 j prop ltac:(lia) Hprop).
  destruct (has_controller prop || excluded prop) eqn:Hskip.
  - left. rewrite Hj in H4. injection H4 as ->. done.
  - right. destruct H4 as [_ H4]. rewrite Hj in H4. symmetry in H4.
    destruct (Hmap' _ _ H4) as (Hh & _). by rewrite Hh.
Qed.

Lemma merge_properties_twice_witness :
  let r := merge_properties (λ p, 100 <=? p) (λ _, "NiMaterialProperty"%string)
             (λ _, false) (λ p, p mod 10) [12; 33; 152; 22; 43] ∅ in
  merge_properties (λ p, 100 <=? p) (λ _, "NiMaterialProperty"%string)
    (λ _, false) (λ p, p mod 10) r.1.1 r.1.2
  = (r.1.1, r.1.2, []).
Proof.
  apply (merge_properties_twice (λ p, 100 <=? p) (λ _, "NiMaterialProperty"%string)
           (λ _, false) (λ p, p mod 10) [12; 33; 152; 22; 43] ∅).
  intros h v Hv. by rewrite lookup_empty in Hv.
Defined.





(** C8 — corrupt strip indices: what the repair does with the first
    element.  With four old vertices of which the third repeats the first,
    [v_map] is [[0; 1; 0; 2]] and there are three new vertices.  A strip that
    is the single bad index 7 makes the handler read [strip[1]]: after the
    warning the loop ends in [IndexError].  In the strips [[7; 9; 1]] and
    [[7; 3; 1]] the bad first index is replaced by the second index as it
    stands, so that the strips become [[9; 9; 1]] and [[3; 2; 1]], which
    still hold an index that is not one of the three new vertices.  A bad
    index after the first is replaced by the new value before it:
    [[3; 7; 1]] becomes [[2; 2; 1]]. *)
Theorem remap_strip_first_index_slip :
  remap_strip [0; 1; 0; 2] [7] = ([7], Raised IndexError) ∧
  remap_strip [0; 1; 0; 2] [7; 9; 1] = ([7; 9], Done [9; 9; 1]) ∧
  remap_strip [0; 1; 0; 2] [7; 3; 1] = ([7], Done [3; 2; 1]) ∧
  remap_strip [0; 1; 0; 2] [3; 7; 1] = ([7], Done [2; 2; 1]).
Proof. repeat split. Qed.










(** C7 (as amended) — what a particle emitter switches off.  In the merge
    spell, [datainspect] answers [False] when the header reports a
    [NiPSysMeshEmitter], [True] when it reports none, and [True] as well
    when the header raises [ValueError].  In the old [testRoot],
    [opt_shapes] is [False] exactly when some block of the list is an
    emitter; then the loop that removes duplicate and empty children leaves
    the children of every block as they are, and the loop that merges shape
    data leaves the data of every shape as it is, prints nothing and raises
    nothing.  Without an emitter the children of a node are cleaned. *)
Theorem emitter_switches_off {B D : Type} `{EqDecision B}
    (is_NiPSysMeshEmitter is_NiNode is_tri_shape : B → bool)
    (isequal : D → D → outcome bool) (block_name : B → string)
    (block_list : list B) (children : B → list (option B)) (data : B → D) :
  (merge_datainspect (Done true) = Done false ∧
   merge_datainspect (Done false) = Done true ∧
   ∀ msg, merge_datainspect (Raised (ValueError msg)) = Done true) ∧
  (opt_shapes is_NiPSysMeshEmitter block_list = false
   ↔ ∃ block, block ∈ block_list ∧ is_NiPSysMeshEmitter block = true) ∧
  ((∃ block, block ∈ block_list ∧ is_NiPSysMeshEmitter block = true) →
   remove_duplicate_children is_NiNode (opt_shapes is_NiPSysMeshEmitter block_list)
     block_list children = children ∧
   ∀ shapes out,
     merge_shape_data is_tri_shape isequal block_name
       (opt_shapes is_NiPSysMeshEmitter block_list) block_list shapes data out
     = Done (data, out)) ∧
  (∀ block, is_NiNode block = true →
     remove_duplicate_children is_NiNode true [block] children block
     = Some <$> unique_refs [] (children block)).
Proof.
  split; [done|]. split; [apply opt_shapes_false|]. split.
  - intros Hem. apply opt_shapes_false in Hem. rewrite Hem. split.
    + apply remove_duplicate_children_off.
    + intros shapes out. apply merge_shape_data_off.
  - intros block Hnode. cbn [remove_duplicate_children negb]. rewrite Hnode.
    cbn [negb]. apply fn_lookup_insert.
Qed.

Lemma emitter_switches_off_witness :
  remove_duplicate_children (λ b, b <? 10) (opt_shapes (λ b, b =? 77) [1; 2; 77])
    [1; 2; 77] (λ b, if b =? 1 then [Some 2; None; Some 2] else [])
  = (λ b, if b =? 1 then [Some 2; None; Some 2] else []) ∧
  remove_duplicate_children (λ b, b <? 10) true [1]
    (λ b, if b =? 1 then [Some 2; None; Some 2] else []) 1
  = [Some 2].
Proof.
  destruct (emitter_switches_off (λ b, b =? 77) (λ b, b <? 10) (λ b, 10 <=? b)
              (λ _ _ : nat, Done false) (λ _, "shape"%string) [1; 2; 77]
              (λ b, if b =? 1 then [Some 2; None; Some 2] else [])
              (λ b : nat, b)) as (_ & _ & Hoff & Hon).
  split.
  - apply Hoff. exists 77. split; [|reflexivity].
    apply (bool_decide_unpack _). by vm_compute.
  - apply (Hon 1). reflexivity.
Defined.

(** C7 as stated fails.  In the old [testRoot] the loop that joins duplicate
    properties runs before [opt_shapes] is computed and does not read it:
    in a document with the emitter 77, in which the blocks 1 and 2 carry the
    properties 21 and 31 with the same hash, [opt_shapes] is [False] and the
    property 31 of block 2 is still replaced by 21.  In the merge spell,
    [datainspect] answers [True] when the header raises [ValueError]. *)
Lemma emitter_document_still_merges :
  let properties := λ b, if b =? 1 then [Some 21] else if b =? 2 then [Some 31] else [] in
  let r := join_duplicate_properties (λ b, b <? 10) (λ _, false)
             (λ _, "NiMaterialProperty"%string) (λ _, false) (λ p, p mod 10)
             [1; 2; 77] properties ∅ [] in
  opt_shapes (λ b, b =? 77) [1; 2; 77] = false ∧
  properties 2 = [Some 31] ∧
  r.1.1 2 = [Some 21] ∧
  r.2 = ["  removing duplicate NiMaterialProperty block"]%string ∧
  merge_datainspect (Raised (ValueError "no block types")) = Done true.
Proof. cbv zeta. repeat split. Qed.


(** C3 — a second run changes a strip.  Four vertices of which the third
    repeats the first, more than 32000 triangles, so that the strips are not
    recalculated, and one strip that begins with the bad index 7 followed by
    the index 3, all later indices being 0 or 1.  The first run leaves three
    vertices and puts the old index 3 in front of the strip; for the second
    run 3 is a bad index, and the strip changes again, from [3; 2; ...] to
    [2; 2; ...].  The vertices are the same after both runs. *)
Theorem second_run_changes_strip
    (restrip : list (list nat) → outcome (list (list nat)))
    (num_triangles : nat) (tail : list nat) :
  32000 < num_triangles → Forall (λ v, v < 2) tail →
  optimize_strips_data (λ a : nat, a) restrip [10; 20; 10; 30] num_triangles
    [7 :: 3 :: tail]
  = ([BadStripIndex 7; InsaneTriangles num_triangles],
     Done ([10; 20; 30], [3 :: 2 :: tail])) ∧
  optimize_strips_data (λ a : nat, a) restrip [10; 20; 30] num_triangles
    [3 :: 2 :: tail]
  = ([BadStripIndex 3; InsaneTriangles num_triangles],
     Done ([10; 20; 30], [2 :: 2 :: tail])).
Proof.
  intros Hn Htail. apply Nat.ltb_lt in Hn.
  assert (unique_map [10; 20; 10; 30] = Done ([0; 1; 0; 2], [0; 1; 3])) as Hmap1
    by (by vm_compute).
  assert (unique_map [10; 20; 30] = Done ([0; 1; 2], [0; 1; 2])) as Hmap2
    by (by vm_compute).
  assert (Forall (λ v, [0; 1; 0; 2] !! v = Some v) tail) as Htail1.
  { eapply Forall_impl; [exact Htail|]. intros v Hv.
    destruct v as [|[|v]]; [done|done|lia]. }
  assert (Forall (λ v, [0; 1; 2] !! v = Some v) tail) as Htail2.
  { eapply Forall_impl; [exact Htail|]. intros v Hv.
    destruct v as [|[|v]]; [done|done|lia]. }
  split.
  - unfold optimize_strips_data. cbn [fmap list_fmap]. rewrite Hmap1.
    cbn [length copy_old copy_old_loop getitem lookup list_lookup mbind
         outcome_bind obind mret outcome_ret].
    cbn [remap_strips].
    rewrite (remap_strip_bad_first_fixed_tail [0; 1; 0; 2] 7 3 2 tail) by done.
    cbn [fst snd app mbind outcome_bind obind mret outcome_ret]. by rewrite Hn.
  - unfold optimize_strips_data. cbn [fmap list_fmap]. rewrite Hmap2.
    cbn [length copy_old copy_old_loop getitem lookup list_lookup mbind
         outcome_bind obind mret outcome_ret].
    cbn [remap_strips].
    rewrite (remap_strip_bad_first_fixed_tail [0; 1; 2] 3 2 2 tail) by done.
    cbn [fst snd app mbind outcome_bind obind mret outcome_ret]. by rewrite Hn.
Qed.

Lemma second_run_changes_strip_witness :
  optimize_strips_data (λ a : nat, a) (λ points, Done points) [10; 20; 10; 30]
    32001 [7 :: 3 :: replicate 32001 1]
  = ([BadStripIndex 7; InsaneTriangles 32001],
     Done ([10; 20; 30], [3 :: 2 :: replicate 32001 1])) ∧
  optimize_strips_data (λ a : nat, a) (λ points, Done points) [10; 20; 30]
    32001 [3 :: 2 :: replicate 32001 1]
  = ([BadStripIndex 3; InsaneTriangles 32001],
     Done ([10; 20; 30], [2 :: 2 :: replicate 32001 1])).
Proof.
  apply (second_run_changes_strip (λ points, Done points) 32001 (replicate 32001 1)).
  - apply Nat.ltb_lt. vm_compute. reflexivity.
  - apply Forall_replicate. lia.
Defined.
